(** * Resumable chunked upload: chunk partitioner, session state store and
      upload scheduler

    A shallow embedding of

    - [utils/fileChunker.ts]   ([splitFileIntoChunks]),
    - [utils/uploadState.ts]   ([createUploadState], [updateChunkStatus],
                                [saveUploadState], [loadUploadState],
                                [getAllUploadStates], [deleteUploadState]),
    - [utils/api.ts]           ([setUploadSpeed], [getUploadSpeed]),
    - [utils/formatters.ts]    ([formatTime]),
    - [components/FileUpload.tsx] ([handleFileSelect]),
    - [hooks/useResumableUpload.ts] ([uploadSingleChunk],
                                [retryFailedChunks], [startUpload],
                                [pauseUpload], [cancelUpload],
                                [getUploadedBytes], [getFailedChunks]),

    followed by the properties of the specification that concern them
    and by further properties of the code.

    Conventions.  Byte counts and timestamps are JavaScript numbers that
    only ever hold integers here; they are modelled in [Z].  Where the
    source divides such numbers ([formatTime]) the rounded quotient is a
    parameter of the model ([Number]).  Array
    positions and retry counters are natural numbers.  [Date.now()], the
    transfer client, the user's pause and cancel requests and the moment
    at which React commits state updates are inputs of the model
    ([Env]).  A callback reads the React state of the render that
    created it; where the source does so ([retryFailedChunks] reads
    [state.chunks]) the rendered value is an explicit argument.  Loops
    that need not terminate take a fuel argument, and the statements
    about runs hold for every fuel. *)

From Stdlib Require Import ZArith Lia Bool QArith Qround Qabs Lqa.
From stdpp Require Import base option list gmap strings sorting pretty.

Local Open Scope Z_scope.

(** ** types/upload.ts *)

Record ChunkStatus := mkChunkStatus {
  chunkIndex : nat;
  uploaded : bool;
  failed : bool;
  retryCount : nat
}.

Record UploadState := mkUploadState {
  uploadId : string;
  fileName : string;
  fileSize : Z;
  totalChunks : Z;
  chunkSize : Z;
  chunks : list ChunkStatus;
  startTime : Z;
  lastUpdate : Z
}.

(** A [File] as far as the program looks at it: its name and its byte
    length.  A [Blob] produced by [file.slice(start, end)] is the byte
    range [start, end) of the file. *)
Record File := mkFile {
  file_name : string;
  file_size : Z
}.

Record Blob := mkBlob {
  blob_start : Z;
  blob_end : Z
}.

Definition blob_size (b : Blob) : Z := blob_end b - blob_start b.

Definition slice (start end_ : Z) : Blob := mkBlob start end_.

(** Sum of the lengths of a list of ranges. *)
Definition total_size (blobs : list Blob) : Z :=
  foldr (λ b n, blob_size b + n) 0 blobs.

(** ** utils/fileChunker.ts *)

(** The [while (start < file.size)] loop.  Each iteration pushes one blob
    and moves [start] to [end].  The fuel bounds the number of
    iterations; [None] means that the bound was reached with the loop
    condition still true. *)
Fixpoint split_loop (fuel : nat) (size chunk_size start : Z)
    (acc : list Blob) : option (list Blob) :=
  if decide (start < size) then
    match fuel with
    | O => None
    | S fuel' =>
        let end_ := Z.min (start + chunk_size) size in
        let chunk := slice start end_ in
        split_loop fuel' size chunk_size end_ (acc ++ [chunk])
    end
  else Some acc.

(** [splitFileIntoChunks(file, chunkSize)].  With [chunkSize > 0] every
    iteration advances [start] by at least one byte, so [file.size]
    iterations are enough (lemma [splitFileIntoChunks_total]); with
    [chunkSize <= 0] and a non-empty file the source loop never leaves. *)
Definition splitFileIntoChunks (file : File) (chunk_size : Z)
    : option (list Blob) :=
  split_loop (Z.to_nat (file_size file)) (file_size file) chunk_size 0 [].

(** ** utils/uploadState.ts: the chunk table *)

(** [Array.from({ length: totalChunks }, (_, index) => ...)]: a length
    below zero gives the empty array, as [Z.to_nat] does. *)
Definition createUploadState (upload_id file_name_ : string)
    (file_size_ total_chunks chunk_size now_start now_update : Z)
    : UploadState :=
  let chunks_ :=
    (λ index, mkChunkStatus index false false 0)
      <$> seq 0 (Z.to_nat total_chunks) in
  mkUploadState upload_id file_name_ file_size_ total_chunks chunk_size
    chunks_ now_start now_update.

(** [updateChunkStatus(state, chunkIndex, uploaded, failed)].  [now] is
    the value of [Date.now()].  [if (chunk)] fails exactly when the index
    is outside the array; list insertion does nothing there. *)
Definition updateChunkStatus (state : UploadState) (index : nat)
    (uploaded_ failed_ : bool) (now : Z) : UploadState :=
  let updatedChunks := chunks state in
  let updatedChunks' :=
    match updatedChunks !! index with
    | Some chunk =>
        <[index :=
            mkChunkStatus (chunkIndex chunk) uploaded_ failed_
              (if failed_ then (retryCount chunk + 1)%nat
               else retryCount chunk)]> updatedChunks
    | None => updatedChunks
    end in
  mkUploadState (uploadId state) (fileName state) (fileSize state)
    (totalChunks state) (chunkSize state) updatedChunks'
    (startTime state) now.

(** ** utils/uploadState.ts: persistence *)

(** Outcome of a JavaScript computation that may throw. *)
Inductive completion (A : Type) : Type :=
| Normal (value : A)
| Throw (error : string).
Arguments Normal {A} value.
Arguments Throw {A} error.

#[global] Instance completion_ret : MRet completion := λ A, @Normal A.
#[global] Instance completion_bind : MBind completion := λ A B k m,
  match m with
  | Normal v => k v
  | Throw e => Throw e
  end.

(** [try { body } catch (error) { handler }] *)
Definition try_catch {A} (body : completion A)
    (handler : string → completion A) : completion A :=
  match body with
  | Normal v => Normal v
  | Throw e => handler e
  end.

(** The browser's [localStorage].  Every access throws when the store is
    not [accessible] (storage disabled for the origin); [setItem] also
    throws when the store does not have room for the pair, which
    [has_room] decides. *)
Record Storage := mkStorage {
  accessible : bool;
  has_room : string → string → bool;
  items : gmap string string
}.

Definition getItem (st : Storage) (key : string)
    : completion (option string) :=
  if accessible st then Normal (items st !! key)
  else Throw "SecurityError".

Definition setItem (st : Storage) (key value : string)
    : completion Storage :=
  if accessible st then
    if has_room st key value then
      Normal (mkStorage (accessible st) (has_room st)
                (<[key := value]> (items st)))
    else Throw "QuotaExceededError"
  else Throw "SecurityError".

(** [JSON.stringify] and [JSON.parse] are the browser's; the program only
    relies on their interface.  [JSON_parse] throws on text that is not
    JSON; a parsed value is read at the type the source declares,
    [UploadState | null]. *)
Class JSON := {
  JSON_stringify : UploadState → string;
  JSON_parse : string → completion (option UploadState)
}.

Definition STORAGE_PREFIX : string := "upload_state_".

Definition storage_key (upload_id : string) : string :=
  STORAGE_PREFIX +:+ upload_id.

(** [saveUploadState]: the [catch] logs the error and swallows it, so
    the call completes normally with the store as it was. *)
Definition saveUploadState `{JSON} (localStorage : Storage)
    (upload_id : string) (state : UploadState) : completion Storage :=
  try_catch
    (let key := storage_key upload_id in
     setItem localStorage key (JSON_stringify state))
    (λ error, Normal localStorage).

(** [loadUploadState]: [data ? JSON.parse(data) : null]; a string is
    truthy unless it is empty. *)
Definition loadUploadState `{JSON} (localStorage : Storage)
    (upload_id : string) : completion (option UploadState) :=
  try_catch
    (let key := storage_key upload_id in
     data ← getItem localStorage key;
     match data with
     | Some text => if decide (text = "") then Normal None
                    else JSON_parse text
     | None => Normal None
     end)
    (λ error, Normal None).

(** ** [updateChunkStatus] on the object heap

    The same function at the level of JavaScript objects, to observe what
    it writes.  A session is a state object that points to an array of
    pointers to chunk objects. *)
Module JsHeap.

Definition loc := positive.

Inductive object :=
| ChunkObj (chunk : ChunkStatus)
| ArrayObj (elems : list loc)
| StateObj (upload_id file_name_ : string)
    (file_size_ total_chunks chunk_size : Z) (chunks_ : loc)
    (start_time last_update : Z).

Abbreviation heap := (gmap loc object).

(** Object and array literals allocate at an unused address. *)
Definition alloc (h : heap) (o : object) : heap * loc :=
  let l := fresh (dom h) in (<[l := o]> h, l).

Definition read_chunk (h : heap) (l : loc) : option ChunkStatus :=
  match h !! l with
  | Some (ChunkObj c) => Some c
  | _ => None
  end.

(** The [UploadState] value that the object at [l] denotes. *)
Definition read_state (h : heap) (l : loc) : option UploadState :=
  match h !! l with
  | Some (StateObj uid fname fsize total csize arr start last) =>
      match h !! arr with
      | Some (ArrayObj elems) =>
          cs ← mapM (read_chunk h) elems;
          Some (mkUploadState uid fname fsize total csize cs start last)
      | _ => None
      end
  | _ => None
  end.

(** [h'] keeps every object of [h] as it is. *)
Definition preserves (h h' : heap) : Prop :=
  ∀ l o, h !! l = Some o → h' !! l = Some o.

(** Statement by statement:
    [const updatedChunks = [...state.chunks]] allocates a copy of the
    array; [updatedChunks[chunkIndex] = { ...chunk, ... }] allocates a
    chunk object and stores its address in the copy; the returned
    [{ ...state, chunks: updatedChunks, lastUpdate: Date.now() }] is a
    third allocation.  [None] when [state] does not point to a
    well-formed session. *)
Definition updateChunkStatus (h : heap) (state : loc) (index : nat)
    (uploaded_ failed_ : bool) (now : Z) : option (heap * loc) :=
  match h !! state with
  | Some (StateObj uid fname fsize total csize arr start last) =>
      match h !! arr with
      | Some (ArrayObj elems) =>
          let '(h1, updatedChunks) := alloc h (ArrayObj elems) in
          match elems !! index with
          | Some chunk_loc =>
              match read_chunk h1 chunk_loc with
              | Some chunk =>
                  let '(h2, fresh_chunk) :=
                    alloc h1
                      (ChunkObj
                         (mkChunkStatus (chunkIndex chunk) uploaded_
                            failed_
                            (if failed_ then (retryCount chunk + 1)%nat
                             else retryCount chunk))) in
                  let h3 :=
                    <[updatedChunks :=
                        ArrayObj (<[index := fresh_chunk]> elems)]> h2 in
                  Some (alloc h3
                          (StateObj uid fname fsize total csize
                             updatedChunks start now))
              | None => None
              end
          | None =>
              Some (alloc h1
                      (StateObj uid fname fsize total csize
                         updatedChunks start now))
          end
      | _ => None
      end
  | _ => None
  end.

(** A heap that holds a given session: one object per record, the
    array, and the state object. *)
Fixpoint store_chunks (h : heap) (cs : list ChunkStatus)
    : heap * list loc :=
  match cs with
  | [] => (h, [])
  | c :: cs' =>
      let '(h1, l) := alloc h (ChunkObj c) in
      let '(h2, ls) := store_chunks h1 cs' in
      (h2, l :: ls)
  end.

Definition store_state (s : UploadState) : heap * loc :=
  let '(h1, ls) := store_chunks ∅ (chunks s) in
  let '(h2, arr) := alloc h1 (ArrayObj ls) in
  alloc h2
    (StateObj (uploadId s) (fileName s) (fileSize s) (totalChunks s)
       (chunkSize s) arr (startTime s) (lastUpdate s)).

End JsHeap.

(** ** components/FileUpload.tsx *)

Definition CHUNK_SIZE : Z := 1024 * 1024.

(** [Math.ceil(a / b)] for integers [a] and [b > 0]. *)
Definition Math_ceil_div (a b : Z) : Z := - ((- a) / b).

(** Line 131: [file.size === 0 ? 1 : Math.ceil(file.size / CHUNK_SIZE)],
    with the chunk size as a parameter. *)
Definition countChunks (size chunk_size : Z) : Z :=
  if decide (size = 0) then 1 else Math_ceil_div size chunk_size.

(** [handleFileSelect(file)] up to the session it creates (it then saves
    the session and hands it to [onUploadStart]).  The generated upload
    id and the two clock readings are inputs. *)
Definition handleFileSelect_with (chunk_size : Z) (file : File)
    (upload_id : string) (now_start now_update : Z) : UploadState :=
  let total := countChunks (file_size file) chunk_size in
  createUploadState upload_id (file_name file) (file_size file) total
    chunk_size now_start now_update.

Definition handleFileSelect : File → string → Z → Z → UploadState :=
  handleFileSelect_with CHUNK_SIZE.

(** ** hooks/useResumableUpload.ts *)

Definition MAX_RETRIES : nat := 3.
Definition MAX_PARALLEL_UPLOADS : nat := 5.

(** What a run does that is visible outside the hook, most recent event
    first: a batch selected by the dispatch loop (with the chunk table it
    was selected from), a call of [uploadSingleChunk], a call of the
    transfer client [uploadChunk], a call of [onComplete]. *)
Inductive event :=
| EvBatch (table : list ChunkStatus) (indices : list nat)
| EvDispatch (index : nat)
| EvTransfer (index : nat)
| EvComplete.

#[global] Instance ChunkStatus_eq_dec : EqDecision ChunkStatus.
Proof. solve_decision. Defined.

#[global] Instance event_eq_dec : EqDecision event.
Proof. solve_decision. Defined.

(** The places where [startUpload] is suspended at an [await]:
    [Promise.allSettled(batchPromises)] and the 100 ms timer of loop
    iteration [k], and [retryFailedChunks()] after the loop. *)
Inductive suspension :=
| AwaitBatch (k : nat)
| AwaitDelay (k : nat)
| AwaitRetry.

Inductive request := NoRequest | Pause | Cancel.

(** The environment of a run.
    - [uploadChunk n i]: whether the [n]-th call of the transfer client,
      made for chunk [i], resolves ([true]) or rejects ([false]);
    - [Date_now n]: the clock at the moment that call settles;
    - [user_request p]: whether the user pressed pause or cancel while
      the run was suspended at [p];
    - [ref_committed k]: whether, when the run resumes after batch [k],
      React has already committed the batch's state updates and run the
      effect [stateRef.current = state].  At the top of an iteration the
      ref holds the committed state; at the check after the batch it
      holds either that same value or the state with the batch's
      outcomes applied. *)
Record Env := mkEnv {
  uploadChunk : nat → nat → bool;
  Date_now : nat → Z;
  user_request : suspension → request;
  ref_committed : nat → bool
}.

(** The hook instance: props ([file]), refs ([chunksRef], [isPausedRef]),
    React state ([state], [isUploading], [isPaused]), the number of
    transfer-client calls made so far and the trace. *)
Record Hook := mkHook {
  file : option File;
  chunksRef : list Blob;
  state : UploadState;
  isUploading : bool;
  isPaused : bool;
  isPausedRef : bool;
  calls : nat;
  trace : list event
}.

Definition setState (f : UploadState → UploadState) (h : Hook) : Hook :=
  mkHook (file h) (chunksRef h) (f (state h)) (isUploading h) (isPaused h)
    (isPausedRef h) (calls h) (trace h).

Definition setIsUploading (b : bool) (h : Hook) : Hook :=
  mkHook (file h) (chunksRef h) (state h) b (isPaused h) (isPausedRef h)
    (calls h) (trace h).

(** [setIsPaused(b); isPausedRef.current = b] always come together. *)
Definition setIsPaused (b : bool) (h : Hook) : Hook :=
  mkHook (file h) (chunksRef h) (state h) (isUploading h) b b (calls h)
    (trace h).

Definition log (e : event) (h : Hook) : Hook :=
  mkHook (file h) (chunksRef h) (state h) (isUploading h) (isPaused h)
    (isPausedRef h) (calls h) (e :: trace h).

Definition tick (h : Hook) : Hook :=
  mkHook (file h) (chunksRef h) (state h) (isUploading h) (isPaused h)
    (isPausedRef h) (S (calls h)) (trace h).

Definition onComplete (h : Hook) : Hook := log EvComplete h.

(** The hook as first rendered with props [uploadState] and [file]: the
    effect of lines 39-43 fills [chunksRef] when a file is bound.  [None]
    when [splitFileIntoChunks] does not return. *)
Definition useResumableUpload (uploadState : UploadState)
    (file_ : option File) : option Hook :=
  blobs ← match file_ with
          | Some f => splitFileIntoChunks f (chunkSize uploadState)
          | None => Some []
          end;
  Some (mkHook file_ blobs uploadState false false false 0 []).

(** Binding a data source to a mounted hook.  The components pass a
    file on only when its name and size are the ones recorded in the
    session ([validFile]); the effect of lines 39-43 then refills
    [chunksRef]. *)
Definition validFile (s : UploadState) (f : File) : Prop :=
  file_name f = fileName s ∧ file_size f = fileSize s.

Definition bindFile (f : File) (h : Hook) : option Hook :=
  blobs ← splitFileIntoChunks f (chunkSize (state h));
  Some (mkHook (Some f) blobs (state h) (isUploading h) (isPaused h)
          (isPausedRef h) (calls h) (trace h)).

Definition pauseUpload (h : Hook) : Hook := setIsPaused true h.

Definition cancelUpload (h : Hook) : Hook :=
  setIsUploading false (setIsPaused true h).

(** [uploadSingleChunk(chunkIndex)].  A blob object is truthy, so
    [!chunksRef.current[chunkIndex]] holds exactly when the index is
    outside [chunksRef]. *)
Definition uploadSingleChunk (env : Env) (index : nat) (h : Hook)
    : bool * Hook :=
  let h := log (EvDispatch index) h in
  match file h, chunksRef h !! index with
  | Some _, Some chunk =>
      let n := calls h in
      let h := tick (log (EvTransfer index) h) in
      if uploadChunk env n index then
        (true,
         setState (λ prevState,
           updateChunkStatus prevState index true false (Date_now env n)) h)
      else
        (false,
         setState (λ prevState,
           updateChunkStatus prevState index false true (Date_now env n)) h)
  | _, _ => (false, h)
  end.

(** [Promise.allSettled(cs.map(chunk => uploadSingleChunk(chunk.chunkIndex)))].
    The transfers overlap in time, but each outcome reaches the state
    through a functional [setState], one after the other; the model
    applies them in array order. *)
Definition uploadAll (env : Env) (cs : list ChunkStatus) (h : Hook) : Hook :=
  foldl (λ h chunk, (uploadSingleChunk env (chunkIndex chunk) h).2) h cs.

(** The updater of lines 97-104. *)
Definition resetFailed (prevState : UploadState) : UploadState :=
  mkUploadState (uploadId prevState) (fileName prevState)
    (fileSize prevState) (totalChunks prevState) (chunkSize prevState)
    ((λ chunk,
        if failed chunk && (retryCount chunk <? MAX_RETRIES)%nat
        then mkChunkStatus (chunkIndex chunk) (uploaded chunk) false
               (retryCount chunk)
        else chunk) <$> chunks prevState)
    (startTime prevState) (lastUpdate prevState).

(** [retryFailedChunks()].  [rendered] is [state.chunks] as the callback
    closed over it: the chunk table of the render that created the
    callback. *)
Definition retryFailedChunks (env : Env) (rendered : list ChunkStatus)
    (h : Hook) : Hook :=
  let failedChunks :=
    filter (λ chunk, uploaded chunk = false ∧ failed chunk = true ∧
                     (retryCount chunk < MAX_RETRIES)%nat) rendered in
  if decide (length failedChunks = 0%nat) then h
  else uploadAll env failedChunks (setState resetFailed h).

(** A user request that arrives while the run is suspended. *)
Definition suspend (env : Env) (p : suspension) (h : Hook) : Hook :=
  match user_request env p with
  | NoRequest => h
  | Pause => pauseUpload h
  | Cancel => cancelUpload h
  end.

Definition pendingChunks (s : UploadState) : list ChunkStatus :=
  filter (λ chunk, uploaded chunk = false) (chunks s).

Definition allUploaded (s : UploadState) : bool :=
  forallb uploaded (chunks s).

(** The [while (hasMoreChunks)] loop from iteration [k] on.  The fuel
    bounds the number of batches; the result is [(true, h)] when the loop
    was left with hook [h] and [(false, h)] when the bound was reached
    with the loop about to dispatch another batch from [h]. *)
Fixpoint dispatch_loop (fuel : nat) (env : Env) (k : nat) (h : Hook)
    : bool * Hook :=
  if isPausedRef h then (true, h) else
  let currentState := state h in
  let pending := pendingChunks currentState in
  if decide (length pending = 0%nat) then (true, h) else
  match fuel with
  | O => (false, h)
  | S fuel' =>
      let batch := take MAX_PARALLEL_UPLOADS pending in
      let h :=
        log (EvBatch (chunks currentState) (chunkIndex <$> batch)) h in
      let h := uploadAll env batch h in
      let h := suspend env (AwaitBatch k) h in
      if isPausedRef h then (true, h) else
      let latestState :=
        if ref_committed env k then state h else currentState in
      if allUploaded latestState then
        (true, onComplete (setIsUploading false h))
      else
        dispatch_loop fuel' env (S k) (suspend env (AwaitDelay k) h)
  end.

(** The final [setState] updater of lines 188-197, which leaves the state
    as it is. *)
Definition finalCheck (h : Hook) : Hook :=
  if allUploaded (state h) then onComplete (setIsUploading false h)
  else setIsUploading false h.

(** [startUpload()].  The callback closes over the render it was created
    in: [isUploading], [isPaused] and, through [retryFailedChunks],
    [state.chunks] are those of the hook at the call.  The result is
    [(true, h)] when the call has returned and [(false, h)] when the
    dispatch loop is still running after [fuel] batches. *)
Definition startUpload (fuel : nat) (env : Env) (h : Hook) : bool * Hook :=
  match file h with
  | None => (true, h)
  | Some _ =>
      if isUploading h && negb (isPaused h) then (true, h) else
      let rendered := chunks (state h) in
      let h := setIsUploading true (setIsPaused false h) in
      let '(exited, h) := dispatch_loop fuel env 0 h in
      if negb exited then (false, h) else
      let h :=
        if negb (isPausedRef h)
        then suspend env AwaitRetry (retryFailedChunks env rendered h)
        else h in
      if isPausedRef h then (true, h)
      else (true, finalCheck h)
  end.

(** Read-outs of the trace. *)
Definition completions (h : Hook) : nat :=
  length (filter (λ e, e = EvComplete) (trace h)).

Definition is_dispatch (e : event) : option nat :=
  match e with EvDispatch i => Some i | _ => None end.

Definition is_transfer (e : event) : option nat :=
  match e with EvTransfer i => Some i | _ => None end.

(** Indices passed to [uploadSingleChunk], oldest first. *)
Definition dispatched (evs : list event) : list nat :=
  omap is_dispatch (reverse evs).

(** Indices passed to [uploadChunk], oldest first. *)
Definition transferred (evs : list event) : list nat :=
  omap is_transfer (reverse evs).

(** ** Chunk-table vocabulary used by the statements *)

(** A record is consistent when it is not both uploaded and failed. *)
Definition consistent (chunk : ChunkStatus) : Prop :=
  ¬ (uploaded chunk = true ∧ failed chunk = true).

(** Every record carries its own position as [chunkIndex]. *)
Definition well_indexed (cs : list ChunkStatus) : Prop :=
  ∀ i chunk, cs !! i = Some chunk → chunkIndex chunk = i.

(** Whether position [i] holds a record that is not uploaded. *)
Definition pending_at (cs : list ChunkStatus) (i : nat) : bool :=
  match cs !! i with
  | Some chunk => negb (uploaded chunk)
  | None => false
  end.

(** Positions of the records that are not uploaded, in ascending order. *)
Definition pending_indices (cs : list ChunkStatus) : list nat :=
  filter (λ i, pending_at cs i = true) (seq 0 (length cs)).

(** Failed records that are below the retry ceiling. *)
Definition retryable (chunk : ChunkStatus) : Prop :=
  failed chunk = true ∧ (retryCount chunk < MAX_RETRIES)%nat.

#[global] Instance retryable_dec chunk : Decision (retryable chunk).
Proof. unfold retryable. apply _. Defined.

Definition clearFailed (chunk : ChunkStatus) : ChunkStatus :=
  mkChunkStatus (chunkIndex chunk) (uploaded chunk) false (retryCount chunk).

(** Chunk tables that the scheduler can produce from a new session. *)
Inductive reachable : UploadState → Prop :=
| reachable_created uid fname fsize total csize t1 t2 :
    reachable (createUploadState uid fname fsize total csize t1 t2)
| reachable_uploaded s i now :
    reachable s → reachable (updateChunkStatus s i true false now)
| reachable_failed s i now :
    reachable s → reachable (updateChunkStatus s i false true now)
| reachable_reset s :
    reachable s → reachable (resetFailed s).

(** Operations on the chunk table, for sequences of them. *)
Inductive table_op :=
| OpOutcome (index : nat) (uploaded_ failed_ : bool) (now : Z)
| OpReset.

Definition apply_op (s : UploadState) (op : table_op) : UploadState :=
  match op with
  | OpOutcome i u f now => updateChunkStatus s i u f now
  | OpReset => resetFailed s
  end.

Definition apply_ops (s : UploadState) (ops : list table_op) : UploadState :=
  foldl apply_op s ops.

(** Number of outcomes in [ops] that record a failure of chunk [i]. *)
Definition records_failure (i : nat) (op : table_op) : bool :=
  match op with
  | OpOutcome j _ f _ => bool_decide (i = j) && f
  | OpReset => false
  end.

Definition recorded_failures (i : nat) (ops : list table_op) : nat :=
  length (filter (λ op, records_failure i op = true) ops).

(** What the user and the component can do with a mounted hook. *)
Inductive hook_step : Hook → Hook → Prop :=
| step_start fuel env h :
    hook_step h (startUpload fuel env h).2
| step_retry env h :
    hook_step h (retryFailedChunks env (chunks (state h)) h)
| step_upload env i h :
    hook_step h (uploadSingleChunk env i h).2
| step_pause h :
    hook_step h (pauseUpload h)
| step_cancel h :
    hook_step h (cancelUpload h)
| step_bind f h h' :
    validFile (state h) f → bindFile f h = Some h' → hook_step h h'.

(** What a run that starts from chunk table [cs0] may do, as far as
    resuming is concerned: dispatch and transfer only chunks that [cs0]
    has pending, and select as a batch the first [MAX_PARALLEL_UPLOADS]
    pending positions of the table the loop read. *)
Definition event_allowed (cs0 : list ChunkStatus) (e : event) : Prop :=
  match e with
  | EvDispatch i | EvTransfer i => pending_at cs0 i = true
  | EvBatch table b =>
      length table = length cs0 ∧
      b = take MAX_PARALLEL_UPLOADS (pending_indices table)
  | EvComplete => True
  end.

(** The chunk table of [h] has the shape of [cs0] and still has uploaded
    what [cs0] has uploaded. *)
Definition keeps_uploaded (cs0 : list ChunkStatus) (h : Hook) : Prop :=
  length (chunks (state h)) = length cs0 ∧
  well_indexed (chunks (state h)) ∧
  ∀ i c0, cs0 !! i = Some c0 → uploaded c0 = true →
          ∃ c, chunks (state h) !! i = Some c ∧ uploaded c = true.

(** Whether [uploadSingleChunk(i)] gets past its guard
    [!file || !chunksRef.current[i]]. *)
Definition guard_passes (h : Hook) (i : nat) : bool :=
  match file h, chunksRef h !! i with
  | Some _, Some _ => true
  | _, _ => false
  end.

(** The invariant of a run that started from chunk table [cs0] with
    trace [t0]. *)
Definition resume_inv (cs0 : list ChunkStatus) (t0 : list event)
    (h : Hook) : Prop :=
  keeps_uploaded cs0 h ∧
  ∃ evs, trace h = evs ++ t0 ∧ Forall (event_allowed cs0) evs.

(** The hook of a zero-byte session: no blob to transfer, one record
    that is not uploaded, and no completion so far. *)
Definition stuck (h : Hook) : Prop :=
  chunksRef h = [] ∧
  fileSize (state h) = 0 ∧
  chunks (state h) = [mkChunkStatus 0 false false 0] ∧
  completions h = 0%nat.

(** A codec that knows a single document, to run the persistence
    functions on an example: it prints every session as [sample_text]
    and parses that text, and no other, to [sample_state]. *)
Definition sample_state : UploadState :=
  createUploadState "u1" "a.bin" 2 2 1 100 100.

Definition sample_text : string := "{uploadId:u1,fileName:a.bin}".

Definition sample_JSON : JSON := {|
  JSON_stringify := λ _, sample_text;
  JSON_parse := λ text,
    if decide (text = sample_text) then Normal (Some sample_state)
    else Throw "SyntaxError"
|}.

(** ** The rest of utils/uploadState.ts *)

Definition removeItem (st : Storage) (key : string) : completion Storage :=
  if accessible st then
    Normal (mkStorage (accessible st) (has_room st) (delete key (items st)))
  else Throw "SecurityError".

(** [deleteUploadState]: the [catch] logs and swallows the error. *)
Definition deleteUploadState (localStorage : Storage) (upload_id : string)
    : completion Storage :=
  try_catch
    (let key := storage_key upload_id in
     removeItem localStorage key)
    (λ error, Normal localStorage).

(** The body of the [for] loop of [getAllUploadStates], run over the keys
    [localStorage.key(i)], [localStorage.key(i + 1)], ...  The array
    [states] lives outside the [try]: the first component is the array
    when the loop is left, the second tells whether it was left by an
    exception.  A parsed value is pushed as it is, null included. *)
Fixpoint getAll_loop `{JSON} (localStorage : Storage) (keys : list string)
    (states : list (option UploadState))
    : list (option UploadState) * completion () :=
  match keys with
  | [] => (states, Normal ())
  | key :: rest =>
      if negb (bool_decide (key = "")) && String.prefix STORAGE_PREFIX key
      then
        match getItem localStorage key with
        | Normal (Some data) =>
            if decide (data = "") then getAll_loop localStorage rest states
            else
              match JSON_parse data with
              | Normal value =>
                  getAll_loop localStorage rest (states ++ [value])
              | Throw e => (states, Throw e)
              end
        | Normal None => getAll_loop localStorage rest states
        | Throw e => (states, Throw e)
        end
      else getAll_loop localStorage rest states
  end.

(** [getAllUploadStates()].  [enumeration] is the sequence of keys that
    [localStorage.key(0)], ..., [localStorage.key(length - 1)] return;
    its order is the browser's.  Reading [localStorage.length] throws
    when the store is not accessible.  The [catch] logs; the function
    returns [states] as far as it was filled. *)
Definition getAllUploadStates `{JSON} (localStorage : Storage)
    (enumeration : list string) : list (option UploadState) :=
  if accessible localStorage
  then (getAll_loop localStorage enumeration []).1
  else [].

(** [enumeration] lists the keys of the store, each once. *)
Definition enumerates (st : Storage) (enumeration : list string) : Prop :=
  NoDup enumeration ∧ ∀ key, key ∈ enumeration ↔ is_Some (items st !! key).

(** What [getAllUploadStates] pushes for one key, if anything. *)
Definition listed `{JSON} (st : Storage) (key : string)
    : option (option UploadState) :=
  if negb (bool_decide (key = "")) && String.prefix STORAGE_PREFIX key then
    match items st !! key with
    | Some data =>
        if decide (data = "") then None
        else match JSON_parse data with
             | Normal value => Some value
             | Throw _ => None
             end
    | None => None
    end
  else None.

(** A key of the upload-state family whose text does not parse. *)
Definition corrupt `{JSON} (st : Storage) (key : string) : Prop :=
  key ≠ "" ∧ String.prefix STORAGE_PREFIX key = true ∧
  ∃ data e, items st !! key = Some data ∧ data ≠ "" ∧
            JSON_parse data = Throw e.

(** ** utils/api.ts: the speed setting *)

Definition UPLOAD_SPEEDS : list (string * (Z * Z)) :=
  [("fast", (50, 150)); ("normal", (150, 300)); ("slow", (500, 1000));
   ("verySlow", (1000, 2000))].

(** [name in UPLOAD_SPEEDS]: the [in] operator also finds the properties
    that an object literal inherits; [inherited] is the list of their
    names. *)
Definition in_UPLOAD_SPEEDS (inherited : list string) (name : string)
    : bool :=
  bool_decide (name ∈ UPLOAD_SPEEDS.*1) || bool_decide (name ∈ inherited).

(** [setUploadSpeed(speed)]: the module variable [currentSpeed] is
    assigned first, then the store is written, with no [try] around it.
    The result is the new [currentSpeed] and the completion of the
    write. *)
Definition setUploadSpeed (localStorage : Storage) (speed : string)
    : string * completion Storage :=
  (speed, setItem localStorage "uploadSpeed" speed).

(** [getUploadSpeed()]: it reads the store, not [currentSpeed]. *)
Definition getUploadSpeed (inherited : list string) (localStorage : Storage)
    : completion string :=
  stored ← getItem localStorage "uploadSpeed";
  match stored with
  | Some name =>
      if negb (bool_decide (name = "")) && in_UPLOAD_SPEEDS inherited name
      then Normal name
      else Normal "verySlow"
  | None => Normal "verySlow"
  end.

(** ** hooks/useResumableUpload.ts: the read-outs *)

Definition uploadedCount (s : UploadState) : nat :=
  length (filter (λ chunk, uploaded chunk = true) (chunks s)).

(** [getUploadedBytes()] *)
Definition getUploadedBytes (h : Hook) : Z :=
  Z.of_nat (uploadedCount (state h)) * chunkSize (state h).

(** [getFailedChunks()] *)
Definition getFailedChunks (h : Hook) : list ChunkStatus :=
  filter (λ chunk, failed chunk = true ∧ uploaded chunk = false)
    (chunks (state h)).

(** ** Vocabulary for the statements about whole runs *)

(** The chunk-list part of [updateChunkStatus]. *)
Definition table_update (cs : list ChunkStatus) (index : nat)
    (uploaded_ failed_ : bool) : list ChunkStatus :=
  match cs !! index with
  | Some chunk =>
      <[index :=
          mkChunkStatus (chunkIndex chunk) uploaded_ failed_
            (if failed_ then (retryCount chunk + 1)%nat
             else retryCount chunk)]> cs
  | None => cs
  end.

(** A transfer client whose every call has the same outcome. *)
Definition constant_client (env : Env) (outcome : bool) : Prop :=
  ∀ n i, uploadChunk env n i = outcome.

(** Nobody presses pause or cancel. *)
Definition undisturbed (env : Env) : Prop :=
  ∀ p, user_request env p = NoRequest.

(** A file is bound and [chunksRef] has a blob for every record. *)
Definition covered (h : Hook) : Prop :=
  is_Some (file h) ∧
  (length (chunks (state h)) ≤ length (chunksRef h))%nat.

(** A record once it is uploaded. *)
Definition asUploaded (chunk : ChunkStatus) : ChunkStatus :=
  mkChunkStatus (chunkIndex chunk) true false (retryCount chunk).

(** A record at the end of a run in which every transfer succeeds. *)
Definition finished (chunk : ChunkStatus) : ChunkStatus :=
  if uploaded chunk then chunk else asUploaded chunk.

(** A record after [n] failed transfers. *)
Definition afterFailures (n : nat) (chunk : ChunkStatus) : ChunkStatus :=
  match n with
  | O => chunk
  | S _ => mkChunkStatus (chunkIndex chunk) false true
             (retryCount chunk + n)
  end.

(** The record that [updateChunkStatus] writes. *)
Definition transition (uploaded_ failed_ : bool) (chunk : ChunkStatus)
    : ChunkStatus :=
  mkChunkStatus (chunkIndex chunk) uploaded_ failed_
    (if failed_ then (retryCount chunk + 1)%nat else retryCount chunk).

(** What a run may not change: the identity of the session, the sizes
    it was created with, and which position holds which chunk. *)
Definition same_session (s s' : UploadState) : Prop :=
  uploadId s' = uploadId s ∧ fileName s' = fileName s ∧
  fileSize s' = fileSize s ∧ totalChunks s' = totalChunks s ∧
  chunkSize s' = chunkSize s ∧ startTime s' = startTime s ∧
  chunkIndex <$> chunks s' = chunkIndex <$> chunks s.

Definition same_binding (h h' : Hook) : Prop :=
  file h' = file h ∧ chunksRef h' = chunksRef h ∧
  same_session (state h) (state h').

(** ** utils/formatters.ts *)

(** JavaScript numbers are IEEE 754 doubles.  [formatTime] divides,
    takes [Math.floor], takes remainders and prints.  On doubles that
    hold integers, [Math.floor] and [%] are exact, so they are the
    operations of [Q] and [Z]; the quotient of two such doubles is
    rounded, and how a number is printed depends on its size, so these
    two operations of the language are parameters:
    - [Number_div a b]: the double [a / b], as a rational;
    - [Number_toString x]: the text of [x] in a template literal. *)
Class Number := {
  Number_div : Z → Z → Q;
  Number_toString : Z → string
}.

(** Division rounds to nearest, for the operands [formatTime] can have
    below [2^53]: a quotient that is an integer is returned as it is,
    and any quotient with a relative error of at most [2^-53]. *)
Definition correctly_rounded `{Number} : Prop :=
  (∀ a b n, 0 < b → a = b * n → Z.abs a < 2 ^ 53 →
     (Number_div a b == inject_Z n)%Q) ∧
  (∀ a b, 0 < b → Z.abs a < 2 ^ 53 →
     (Qabs (Number_div a b - inject_Z a / inject_Z b) * inject_Z (2 ^ 53)
      <= Qabs (inject_Z a / inject_Z b))%Q).

(** An integer below [2^53] is printed in decimal. *)
Definition decimal_toString `{Number} : Prop :=
  ∀ x, Z.abs x < 2 ^ 53 → Number_toString x = pretty x.

(** [formatTime(ms)] for a double [ms] that holds an integer. *)
Definition formatTime `{Number} (ms : Z) : string :=
  let seconds := Qfloor (Number_div ms 1000) in
  let minutes := Qfloor (Number_div seconds 60) in
  let hours := Qfloor (Number_div minutes 60) in
  if decide (hours > 0) then
    Number_toString hours +:+ "h "
      +:+ Number_toString (Z.rem minutes 60) +:+ "m "
      +:+ Number_toString (Z.rem seconds 60) +:+ "s"
  else if decide (minutes > 0) then
    Number_toString minutes +:+ "m "
      +:+ Number_toString (Z.rem seconds 60) +:+ "s"
  else
    Number_toString seconds +:+ "s".

(** Numbers without rounding, for the examples. *)
Definition sample_Number : Number :=
  {| Number_div a b := (inject_Z a / inject_Z b)%Q;
     Number_toString := pretty |}.

(** * Properties *)

(** ** The partitioner *)

Lemma Math_ceil_div_spec a b q :
  0 < b → (q - 1) * b < a ≤ q * b → Math_ceil_div a b = q.
Proof.
  intros Hb [Hlo Hhi]. unfold Math_ceil_div.
  assert (- a / b = - q) as ->; [|lia].
  symmetry. apply Z.div_unique with (r := q * b - a); lia.
Qed.

Lemma split_loop_acc fuel size chunk_size start acc :
  split_loop fuel size chunk_size start acc
  = (acc ++.) <$> split_loop fuel size chunk_size start [].
Proof.
  revert start acc.
  induction fuel as [|fuel IH]; intros start acc; simpl.
  - case_decide; simpl; [done | by rewrite app_nil_r].
  - case_decide; simpl; [| by rewrite app_nil_r].
    rewrite IH, (IH _ [slice _ _]).
    destruct (split_loop fuel size chunk_size _ []); simpl; [|done].
    by rewrite <- app_assoc.
Qed.

Lemma split_loop_spec fuel size chunk_size start :
  0 < chunk_size → 0 ≤ start ≤ size → size - start ≤ Z.of_nat fuel →
  ∃ blobs,
    split_loop fuel size chunk_size start [] = Some blobs ∧
    Z.of_nat (length blobs) = Math_ceil_div (size - start) chunk_size ∧
    total_size blobs = size - start ∧
    Forall (λ b, 0 < blob_size b ≤ chunk_size) blobs.
Proof.
  intros Hc. revert start.
  induction fuel as [|fuel IH]; intros start Hs Hfuel; simpl.
  - case_decide; [lia|]. exists []. repeat split; [|simpl; lia|constructor].
    simpl. symmetry. apply Math_ceil_div_spec; lia.
  - case_decide as Hlt.
    + destruct (IH (Z.min (start + chunk_size) size))
        as (bs & Hbs & Hlen & Hsum & Hall); [lia | lia |].
      rewrite split_loop_acc, Hbs. simpl.
      eexists. split; [done|]. repeat split.
      * simpl length. rewrite Nat2Z.inj_succ, Hlen.
        symmetry. destruct (decide (start + chunk_size ≤ size)) as [Hle|Hgt].
        -- rewrite Z.min_l by lia.
           set (q := Math_ceil_div (size - (start + chunk_size)) chunk_size).
           assert (Hq : (q - 1) * chunk_size < size - (start + chunk_size)
                        ≤ q * chunk_size).
           { unfold q, Math_ceil_div.
             set (a := - (size - (start + chunk_size))).
             pose proof (Z.div_mod a chunk_size).
             pose proof (Z.mod_pos_bound a chunk_size).
             nia. }
           apply Math_ceil_div_spec; lia.
        -- rewrite Z.min_r by lia.
           replace (size - size) with 0 by lia.
           assert (Math_ceil_div 0 chunk_size = 0) as ->
             by (apply Math_ceil_div_spec; lia).
           apply Math_ceil_div_spec; lia.
      * simpl. unfold blob_size at 1. simpl. lia.
      * constructor; [|done]. unfold blob_size; simpl. lia.
    + exists []. repeat split; [|simpl; lia|constructor].
      simpl. symmetry. apply Math_ceil_div_spec; lia.
Qed.

Lemma splitFileIntoChunks_total file chunk_size :
  0 ≤ file_size file → 0 < chunk_size →
  is_Some (splitFileIntoChunks file chunk_size).
Proof.
  intros Hsize Hc.
  destruct (split_loop_spec (Z.to_nat (file_size file)) (file_size file)
              chunk_size 0) as (bs & Hbs & _); [lia..|].
  unfold splitFileIntoChunks. rewrite Hbs. eauto.
Qed.

Lemma splitFileIntoChunks_empty file chunk_size :
  file_size file = 0 → splitFileIntoChunks file chunk_size = Some [].
Proof.
  intros Hz. unfold splitFileIntoChunks. rewrite Hz. reflexivity.
Qed.

(** C2 (the code as it is).  For a byte length [L >= 0] and a chunk size
    [C > 0], [splitFileIntoChunks] returns, and the lengths of the ranges
    add up to [L].  For [L > 0] there are [ceil(L / C)] ranges, each
    non-empty and at most [C] long.  For [L = 0] the list of ranges is
    empty: there is no range at all, where the specification and the
    test "should handle empty file" ask for one empty range. *)
Theorem splitFileIntoChunks_ranges (file : File) (chunk_size : Z) :
  0 ≤ file_size file → 0 < chunk_size →
  ∃ blobs,
    splitFileIntoChunks file chunk_size = Some blobs ∧
    total_size blobs = file_size file ∧
    (0 < file_size file →
       Z.of_nat (length blobs) = Math_ceil_div (file_size file) chunk_size) ∧
    (file_size file = 0 → blobs = []) ∧
    Forall (λ b, 0 < blob_size b ≤ chunk_size) blobs.
Proof.
  intros Hsize Hc.
  destruct (split_loop_spec (Z.to_nat (file_size file)) (file_size file)
              chunk_size 0) as (bs & Hbs & Hlen & Hsum & Hall); [lia..|].
  exists bs. unfold splitFileIntoChunks. rewrite Hbs.
  rewrite Z.sub_0_r in Hlen, Hsum.
  repeat split; [done|done| |done].
  intros Hz. rewrite Hz in Hlen.
  assert (Math_ceil_div 0 chunk_size = 0) as Hq
    by (apply Math_ceil_div_spec; lia).
  rewrite Hq in Hlen. destruct bs; [done | simpl in Hlen; lia].
Qed.

Lemma splitFileIntoChunks_ranges_empty_file :
  0 ≤ 0 ∧ 0 < CHUNK_SIZE ∧
  ∃ blobs,
    splitFileIntoChunks (mkFile "empty.txt" 0) CHUNK_SIZE = Some blobs ∧
    length blobs = 0%nat.
Proof.
  split; [lia|]. split; [reflexivity|].
  destruct (splitFileIntoChunks_ranges (mkFile "empty.txt" 0) CHUNK_SIZE)
    as (blobs & Heq & _ & _ & Hnil & _); [simpl; lia | reflexivity |].
  exists blobs. split; [exact Heq|]. rewrite (Hnil eq_refl). reflexivity.
Defined.

(** ** The chunk table *)

Lemma createUploadState_lookup uid fname fsize total csize t1 t2 i chunk :
  chunks (createUploadState uid fname fsize total csize t1 t2) !! i
    = Some chunk →
  chunk = mkChunkStatus i false false 0.
Proof.
  simpl. rewrite list_lookup_fmap. intros Hl.
  destruct (seq 0 (Z.to_nat total) !! i) as [j|] eqn:Hj; [|done].
  apply lookup_seq in Hj as [-> _]. simpl in Hl. congruence.
Qed.

Lemma createUploadState_length uid fname fsize total csize t1 t2 :
  length (chunks (createUploadState uid fname fsize total csize t1 t2))
  = Z.to_nat total.
Proof. simpl. by rewrite length_fmap, length_seq. Qed.

Lemma updateChunkStatus_length s i u f now :
  length (chunks (updateChunkStatus s i u f now)) = length (chunks s).
Proof.
  simpl. destruct (chunks s !! i); [by rewrite length_insert | done].
Qed.

Lemma updateChunkStatus_lookup_eq s i u f now chunk :
  chunks s !! i = Some chunk →
  chunks (updateChunkStatus s i u f now) !! i
  = Some (mkChunkStatus (chunkIndex chunk) u f
            (if f then (retryCount chunk + 1)%nat else retryCount chunk)).
Proof.
  intros Hl. simpl. rewrite Hl.
  apply list_lookup_insert_eq. by eapply lookup_lt_Some.
Qed.

Lemma updateChunkStatus_lookup_ne s i j u f now :
  i ≠ j →
  chunks (updateChunkStatus s i u f now) !! j = chunks s !! j.
Proof.
  intros Hne. simpl.
  destruct (chunks s !! i); [by apply list_lookup_insert_ne | done].
Qed.

Lemma updateChunkStatus_out_of_range s i u f now :
  chunks s !! i = None →
  chunks (updateChunkStatus s i u f now) = chunks s.
Proof. intros Hl. simpl. by rewrite Hl. Qed.

Lemma resetFailed_lookup s i :
  chunks (resetFailed s) !! i
  = (λ chunk, if failed chunk && (retryCount chunk <? MAX_RETRIES)%nat
              then clearFailed chunk else chunk) <$> chunks s !! i.
Proof. simpl. by rewrite list_lookup_fmap. Qed.

Lemma resetFailed_length s :
  length (chunks (resetFailed s)) = length (chunks s).
Proof. simpl. by rewrite length_fmap. Qed.

(** C3.  In every chunk table that can be reached from a new session by
    marking chunks uploaded, marking chunks failed and clearing failed
    flags, no record is both uploaded and failed. *)
Theorem reachable_consistent (s : UploadState) :
  reachable s → Forall consistent (chunks s).
Proof.
  induction 1 as [uid fname fsize total csize t1 t2
                 | s i now _ IH | s i now _ IH | s _ IH];
    apply Forall_lookup; intros j c Hc.
  - apply createUploadState_lookup in Hc as ->. by intros [? ?].
  - destruct (decide (i = j)) as [->|Hne].
    + destruct (chunks s !! j) as [c0|] eqn:H0.
      * rewrite (updateChunkStatus_lookup_eq _ _ _ _ _ _ H0) in Hc.
        injection Hc as <-. by intros [? ?].
      * rewrite (updateChunkStatus_out_of_range _ _ _ _ _ H0) in Hc.
        congruence.
    + rewrite updateChunkStatus_lookup_ne in Hc by done.
      by eapply Forall_lookup_1 in IH.
  - destruct (decide (i = j)) as [->|Hne].
    + destruct (chunks s !! j) as [c0|] eqn:H0.
      * rewrite (updateChunkStatus_lookup_eq _ _ _ _ _ _ H0) in Hc.
        injection Hc as <-. by intros [? ?].
      * rewrite (updateChunkStatus_out_of_range _ _ _ _ _ H0) in Hc.
        congruence.
    + rewrite updateChunkStatus_lookup_ne in Hc by done.
      by eapply Forall_lookup_1 in IH.
  - rewrite resetFailed_lookup in Hc.
    destruct (chunks s !! j) as [c0|] eqn:H0; [|done].
    simpl in Hc. injection Hc as <-.
    eapply Forall_lookup_1 in IH; [|done].
    destruct (failed c0 && _); [by intros [? ?] | done].
Qed.

(** Reachable tables also keep every record at its own index. *)
Lemma reachable_well_indexed s : reachable s → well_indexed (chunks s).
Proof.
  induction 1 as [uid fname fsize total csize t1 t2
                 | s i now _ IH | s i now _ IH | s _ IH]; intros j c Hc.
  - by apply createUploadState_lookup in Hc as ->.
  - destruct (decide (i = j)) as [->|Hne].
    + destruct (chunks s !! j) as [c0|] eqn:H0.
      * rewrite (updateChunkStatus_lookup_eq _ _ _ _ _ _ H0) in Hc.
        injection Hc as <-. simpl. by apply IH.
      * rewrite (updateChunkStatus_out_of_range _ _ _ _ _ H0) in Hc.
        congruence.
    + rewrite updateChunkStatus_lookup_ne in Hc by done. by apply IH.
  - destruct (decide (i = j)) as [->|Hne].
    + destruct (chunks s !! j) as [c0|] eqn:H0.
      * rewrite (updateChunkStatus_lookup_eq _ _ _ _ _ _ H0) in Hc.
        injection Hc as <-. simpl. by apply IH.
      * rewrite (updateChunkStatus_out_of_range _ _ _ _ _ H0) in Hc.
        congruence.
    + rewrite updateChunkStatus_lookup_ne in Hc by done. by apply IH.
  - rewrite resetFailed_lookup in Hc.
    destruct (chunks s !! j) as [c0|] eqn:H0; [|done].
    simpl in Hc. injection Hc as <-. specialize (IH _ _ H0).
    by destruct (failed c0 && _).
Qed.

Lemma reachable_consistent_example :
  reachable
    (resetFailed
       (updateChunkStatus
          (updateChunkStatus (createUploadState "id" "f" 3 3 1 0 0) 1
             false true 5) 0 true false 6)) ∧
  Forall consistent
    (chunks
       (resetFailed
          (updateChunkStatus
             (updateChunkStatus (createUploadState "id" "f" 3 3 1 0 0) 1
                false true 5) 0 true false 6))).
Proof.
  assert (Hr : reachable
    (resetFailed
       (updateChunkStatus
          (updateChunkStatus (createUploadState "id" "f" 3 3 1 0 0) 1
             false true 5) 0 true false 6))).
  { apply reachable_reset, reachable_uploaded, reachable_failed,
      reachable_created. }
  split; [exact Hr | exact (reachable_consistent _ Hr)].
Defined.

Lemma apply_op_retryCount s op i chunk :
  chunks s !! i = Some chunk →
  ∃ chunk',
    chunks (apply_op s op) !! i = Some chunk' ∧
    chunkIndex chunk' = chunkIndex chunk ∧
    retryCount chunk'
    = (retryCount chunk + if records_failure i op then 1 else 0)%nat.
Proof.
  intros Hl. destruct op as [j u f now|]; simpl apply_op.
  - destruct (decide (j = i)) as [->|Hne].
    + rewrite (updateChunkStatus_lookup_eq _ _ _ _ _ _ Hl).
      eexists. split; [done|]. simpl.
      rewrite bool_decide_eq_true_2 by done. destruct f; simpl; lia.
    + rewrite updateChunkStatus_lookup_ne by done.
      eexists. split; [done|]. simpl.
      rewrite bool_decide_eq_false_2 by done. simpl. lia.
  - rewrite resetFailed_lookup, Hl. simpl.
    eexists. split; [done|].
    destruct (failed chunk && _); simpl; lia.
Qed.

(** C7.  Along any sequence of chunk-table operations (outcomes with any
    flags, for any chunk, and failed-flag resets) the record at a
    position stays in place and its [retryCount] grows by exactly the
    number of failures recorded for that chunk; in particular it never
    decreases, and one recorded failure adds exactly one. *)
Theorem retryCount_counts_failures (s : UploadState) (ops : list table_op)
    (i : nat) (chunk : ChunkStatus) :
  chunks s !! i = Some chunk →
  ∃ chunk',
    chunks (apply_ops s ops) !! i = Some chunk' ∧
    retryCount chunk' = (retryCount chunk + recorded_failures i ops)%nat ∧
    (retryCount chunk ≤ retryCount chunk')%nat ∧
    ∀ u now chunk'',
      chunks (apply_ops s (ops ++ [OpOutcome i u true now])) !! i
        = Some chunk'' →
      retryCount chunk'' = S (retryCount chunk').
Proof.
  revert s chunk.
  assert (Hmain : ∀ ops s chunk, chunks s !! i = Some chunk →
    ∃ chunk', chunks (apply_ops s ops) !! i = Some chunk' ∧
      retryCount chunk'
      = (retryCount chunk + recorded_failures i ops)%nat).
  { clear ops. induction ops as [|op ops IH]; intros s chunk Hl.
    - exists chunk. split; [done|]. unfold recorded_failures. simpl. lia.
    - destruct (apply_op_retryCount s op i chunk Hl) as (c1 & H1 & _ & Hrc).
      destruct (IH _ _ H1) as (c2 & H2 & Hrc2).
      exists c2. split; [exact H2|]. rewrite Hrc2, Hrc.
      unfold recorded_failures. rewrite filter_cons.
      destruct (records_failure i op) eqn:Hop.
      + rewrite decide_True by done. simpl. lia.
      + rewrite decide_False by (intros ?; congruence). lia. }
  intros s chunk Hl.
  destruct (Hmain ops s chunk Hl) as (c' & Hc' & Hrc).
  exists c'. repeat split; [done|done|lia|].
  intros u now c'' Hc''.
  unfold apply_ops in Hc''. rewrite foldl_app in Hc''.
  cbn [foldl apply_op] in Hc''. fold (apply_ops s ops) in Hc''.
  rewrite (updateChunkStatus_lookup_eq _ _ _ _ _ _ Hc') in Hc''.
  injection Hc'' as <-. simpl. lia.
Qed.

Lemma retryCount_counts_failures_example :
  let s := createUploadState "id" "f" 3 3 1 0 0 in
  let ops := [OpOutcome 1 false true 5; OpReset; OpOutcome 1 false true 6;
              OpOutcome 0 true false 7; OpOutcome 1 true false 8] in
  chunks s !! 1%nat = Some (mkChunkStatus 1 false false 0) ∧
  ∃ chunk',
    chunks (apply_ops s ops) !! 1%nat = Some chunk' ∧
    retryCount chunk' = 2%nat.
Proof.
  intros s ops.
  split; [reflexivity|].
  destruct (retryCount_counts_failures s ops 1 (mkChunkStatus 1 false false 0))
    as (chunk' & Hl & Hrc & _); [reflexivity|].
  exists chunk'. split; [exact Hl | exact Hrc].
Defined.

(** ** [updateChunkStatus]: what changes and what does not *)

Module JsHeapFacts.

Lemma fresh_unused (h : JsHeap.heap) : h !! fresh (dom h) = None.
Proof. apply not_elem_of_dom, is_fresh. Qed.

Lemma alloc_preserves (h : JsHeap.heap) o :
  JsHeap.preserves h (JsHeap.alloc h o).1.
Proof.
  intros l o' Hl. simpl. rewrite lookup_insert_ne; [done|].
  intros <-. rewrite fresh_unused in Hl. done.
Qed.

Lemma preserves_trans (h1 h2 h3 : JsHeap.heap) :
  JsHeap.preserves h1 h2 → JsHeap.preserves h2 h3 → JsHeap.preserves h1 h3.
Proof. intros H12 H23 l o Hl. eauto. Qed.

Lemma read_chunk_preserved (h h' : JsHeap.heap) l c :
  JsHeap.preserves h h' →
  JsHeap.read_chunk h l = Some c → JsHeap.read_chunk h' l = Some c.
Proof.
  intros Hp. unfold JsHeap.read_chunk.
  destruct (h !! l) as [o|] eqn:Hl; [|done].
  rewrite (Hp _ _ Hl). done.
Qed.

Lemma read_chunks_preserved (h h' : JsHeap.heap) elems cs :
  JsHeap.preserves h h' →
  mapM (JsHeap.read_chunk h) elems = Some cs →
  mapM (JsHeap.read_chunk h') elems = Some cs.
Proof.
  intros Hp. rewrite !mapM_Some. intros Hall.
  eapply Forall2_impl; [exact Hall|].
  intros l c. by apply read_chunk_preserved.
Qed.

Lemma read_state_preserved (h h' : JsHeap.heap) l s :
  JsHeap.preserves h h' →
  JsHeap.read_state h l = Some s → JsHeap.read_state h' l = Some s.
Proof.
  intros Hp. unfold JsHeap.read_state.
  destruct (h !! l) as [o|] eqn:Hl; [|done].
  rewrite (Hp _ _ Hl).
  destruct o as [| |uid fname fsize total csize arr start last]; try done.
  destruct (h !! arr) as [oa|] eqn:Ha; [|done].
  rewrite (Hp _ _ Ha). destruct oa as [|elems|]; try done.
  destruct (mapM (JsHeap.read_chunk h) elems) as [cs|] eqn:Hcs; [|done].
  rewrite (read_chunks_preserved h h' elems cs Hp Hcs). done.
Qed.

Lemma store_chunks_read (h : JsHeap.heap) cs :
  JsHeap.preserves h (JsHeap.store_chunks h cs).1 ∧
  mapM (JsHeap.read_chunk (JsHeap.store_chunks h cs).1)
    (JsHeap.store_chunks h cs).2 = Some cs.
Proof.
  revert h. induction cs as [|c cs IH]; intros h;
    cbn [JsHeap.store_chunks JsHeap.alloc].
  - split; [by intros l o|done].
  - destruct (IH (<[fresh (dom h) := JsHeap.ChunkObj c]> h)) as [Hp Hr].
    destruct (JsHeap.store_chunks _ cs) as [h2 ls]. cbn [fst snd] in *.
    split.
    + eapply preserves_trans; [apply (alloc_preserves h)|exact Hp].
    + apply mapM_Some. constructor; [|by apply mapM_Some].
      apply (read_chunk_preserved _ _ _ _ Hp).
      unfold JsHeap.read_chunk. by rewrite lookup_insert_eq.
Qed.

(** Every session value is held by some heap, so the statements below
    about heaps speak about every session. *)
Lemma store_state_read s :
  JsHeap.read_state (JsHeap.store_state s).1 (JsHeap.store_state s).2
  = Some s.
Proof.
  unfold JsHeap.store_state.
  destruct (store_chunks_read ∅ (chunks s)) as [_ Hr].
  destruct (JsHeap.store_chunks ∅ (chunks s)) as [h1 ls]. simpl in Hr.
  simpl. unfold JsHeap.read_state.
  set (arr := fresh (dom h1)).
  set (h2 := <[arr := JsHeap.ArrayObj ls]> h1).
  assert (Hne : fresh (dom h2) ≠ arr).
  { intros Heq. pose proof (fresh_unused h2) as Hf. rewrite Heq in Hf.
    unfold h2 in Hf. by rewrite lookup_insert_eq in Hf. }
  rewrite lookup_insert_eq. rewrite lookup_insert_ne by done.
  unfold h2 at 1. rewrite lookup_insert_eq.
  assert (Hp : JsHeap.preserves h1
                 (<[fresh (dom h2) := JsHeap.StateObj (uploadId s)
                      (fileName s) (fileSize s) (totalChunks s)
                      (chunkSize s) arr (startTime s) (lastUpdate s)]> h2)).
  { eapply preserves_trans; [apply (alloc_preserves h1)|].
    apply (alloc_preserves h2). }
  rewrite (read_chunks_preserved _ _ _ _ Hp Hr). simpl. by destruct s.
Qed.

(** The heap-level function computes the value-level one, allocates
    what it writes, and keeps every object that existed before. *)
Lemma updateChunkStatus_refines (h : JsHeap.heap) (p : JsHeap.loc) s index
    u f now :
  JsHeap.read_state h p = Some s →
  ∃ h' p',
    JsHeap.updateChunkStatus h p index u f now = Some (h', p') ∧
    JsHeap.preserves h h' ∧
    h !! p' = None ∧
    JsHeap.read_state h' p' = Some (updateChunkStatus s index u f now).
Proof.
  unfold JsHeap.read_state, JsHeap.updateChunkStatus.
  destruct (h !! p) as [o|] eqn:Hp; [|done].
  destruct o as [| |uid fname fsize total csize arr start last]; try done.
  destruct (h !! arr) as [oa|] eqn:Ha; [|done].
  destruct oa as [|elems|]; try done.
  destruct (mapM (JsHeap.read_chunk h) elems) as [cs|] eqn:Hcs; [|done].
  simpl. intros [= <-].
  set (l1 := fresh (dom h)).
  set (h1 := <[l1 := JsHeap.ArrayObj elems]> h).
  assert (Hl1 : h !! l1 = None) by apply fresh_unused.
  assert (H01 : JsHeap.preserves h h1) by apply (alloc_preserves h).
  pose proof Hcs as Hall. rewrite mapM_Some in Hall.
  unfold updateChunkStatus. simpl.
  destruct (elems !! index) as [cl|] eqn:Hel.
  - destruct (Forall2_lookup_l _ _ _ _ _ Hall Hel) as (c & Hc & Hrc).
    rewrite Hc.
    rewrite (read_chunk_preserved h h1 cl c H01 Hrc).
    set (c' := mkChunkStatus (chunkIndex c) u f
                 (if f then (retryCount c + 1)%nat else retryCount c)).
    set (l2 := fresh (dom h1)).
    set (h2 := <[l2 := JsHeap.ChunkObj c']> h1).
    set (h3 := <[l1 := JsHeap.ArrayObj (<[index := l2]> elems)]> h2).
    set (l3 := fresh (dom h3)).
    assert (Hl2 : h1 !! l2 = None) by apply fresh_unused.
    assert (Hl3 : h3 !! l3 = None) by apply fresh_unused.
    assert (Hne12 : l1 ≠ l2).
    { intros Heq. rewrite <- Heq in Hl2. unfold h1 in Hl2.
      rewrite lookup_insert_eq in Hl2. done. }
    assert (Hne13 : l1 ≠ l3).
    { intros Heq. rewrite <- Heq in Hl3. unfold h3 in Hl3.
      rewrite lookup_insert_eq in Hl3. done. }
    assert (Hne23 : l2 ≠ l3).
    { intros Heq. rewrite <- Heq in Hl3. unfold h3, h2 in Hl3.
      rewrite lookup_insert_ne, lookup_insert_eq in Hl3 by done. done. }
    set (obj := JsHeap.StateObj uid fname fsize total csize l1 start now).
    assert (H0' : JsHeap.preserves h (<[l3 := obj]> h3)).
    { intros l o Hl.
      assert (l ≠ l1) by (intros ->; congruence).
      assert (h1 !! l = Some o) as Hl' by (by apply H01).
      assert (l ≠ l2) by (intros ->; congruence).
      assert (h3 !! l = Some o) as Hl''.
      { unfold h3, h2. by rewrite !lookup_insert_ne. }
      rewrite lookup_insert_ne; [done|]. intros <-. congruence. }
    assert (Hread : mapM (JsHeap.read_chunk (<[l3 := obj]> h3))
                      (<[index := l2]> elems)
                    = Some (<[index := c']> cs)).
    { apply mapM_Some. apply Forall2_insert.
      - eapply Forall2_impl; [exact Hall|].
        intros l c0. by apply read_chunk_preserved.
      - unfold JsHeap.read_chunk. rewrite lookup_insert_ne by done.
        unfold h3, h2.
        rewrite lookup_insert_ne, lookup_insert_eq by done. done. }
    subst obj.
    eexists _, l3. split; [reflexivity|]. split; [exact H0'|].
    split.
    { destruct (h !! l3) as [o|] eqn:Hl; [|done].
      assert (l3 ≠ l1) by (intros Heq; rewrite Heq in Hl; congruence).
      assert (h1 !! l3 = Some o) as Hl' by (by apply H01).
      assert (h3 !! l3 = Some o); [|congruence].
      unfold h3, h2. by rewrite !lookup_insert_ne. }
    rewrite lookup_insert_eq.
    rewrite lookup_insert_ne by done.
    unfold h3 at 1. rewrite lookup_insert_eq.
    change (fresh (dom h3)) with l3. rewrite Hread. reflexivity.
  - assert (Hc : cs !! index = None).
    { apply lookup_ge_None. apply lookup_ge_None in Hel.
      by rewrite <- (Forall2_length _ _ _ Hall). }
    rewrite Hc.
    set (l3 := fresh (dom h1)).
    assert (Hl3 : h1 !! l3 = None) by apply fresh_unused.
    assert (Hne13 : l1 ≠ l3).
    { intros Heq. rewrite <- Heq in Hl3. unfold h1 in Hl3.
      rewrite lookup_insert_eq in Hl3. done. }
    set (obj := JsHeap.StateObj uid fname fsize total csize l1 start now).
    assert (H0' : JsHeap.preserves h (<[l3 := obj]> h1)).
    { eapply preserves_trans; [exact H01|]. apply (alloc_preserves h1). }
    subst obj.
    eexists _, l3. split; [reflexivity|]. split; [exact H0'|].
    split.
    { destruct (h !! l3) as [o|] eqn:Hl; [|done].
      rewrite (H01 _ _ Hl) in Hl3. done. }
    rewrite lookup_insert_eq.
    rewrite lookup_insert_ne by done.
    unfold h1 at 1. rewrite lookup_insert_eq.
    change (fresh (dom h1)) with l3.
    rewrite (read_chunks_preserved h _ elems cs H0' Hcs). reflexivity.
Qed.

End JsHeapFacts.

(** C4.  For a session object and an index inside its chunk table,
    [updateChunkStatus] returns a new object whose value differs from the
    input's only in the addressed record (the given flags; [retryCount]
    one higher when [failed] is set, unchanged otherwise; same
    [chunkIndex]) and in [lastUpdate], which is the current time.  Every
    other record and every other session field is unchanged, and every
    object that existed before the call, the input session among them,
    is left as it was. *)
Theorem updateChunkStatus_frame (h : JsHeap.heap) (p : JsHeap.loc)
    (s : UploadState) (index : nat) (chunk : ChunkStatus)
    (u f : bool) (now : Z) :
  JsHeap.read_state h p = Some s →
  chunks s !! index = Some chunk →
  ∃ h' p' s',
    JsHeap.updateChunkStatus h p index u f now = Some (h', p') ∧
    JsHeap.read_state h' p' = Some s' ∧
    s' = updateChunkStatus s index u f now ∧
    chunks s' !! index
      = Some (mkChunkStatus (chunkIndex chunk) u f
                (if f then S (retryCount chunk) else retryCount chunk)) ∧
    (∀ j, j ≠ index → chunks s' !! j = chunks s !! j) ∧
    length (chunks s') = length (chunks s) ∧
    lastUpdate s' = now ∧
    uploadId s' = uploadId s ∧ fileName s' = fileName s ∧
    fileSize s' = fileSize s ∧ totalChunks s' = totalChunks s ∧
    chunkSize s' = chunkSize s ∧ startTime s' = startTime s ∧
    JsHeap.preserves h h' ∧
    JsHeap.read_state h' p = Some s.
Proof.
  intros Hread Hchunk.
  destruct (JsHeapFacts.updateChunkStatus_refines h p s index u f now Hread)
    as (h' & p' & Hrun & Hpres & _ & Hread').
  exists h', p', (updateChunkStatus s index u f now).
  split; [exact Hrun|]. split; [exact Hread'|]. split; [reflexivity|].
  split.
  { rewrite (updateChunkStatus_lookup_eq _ _ _ _ _ _ Hchunk).
    destruct f; [by rewrite Nat.add_1_r | done]. }
  split; [intros j Hne; by apply updateChunkStatus_lookup_ne|].
  split; [apply updateChunkStatus_length|].
  repeat (split; [reflexivity|]).
  split; [exact Hpres|].
  by apply (JsHeapFacts.read_state_preserved h h').
Qed.

Lemma updateChunkStatus_frame_example :
  let c0 := mkChunkStatus 0 true false 0 in
  let c1 := mkChunkStatus 1 false false 2 in
  let h : JsHeap.heap :=
    <[1%positive := JsHeap.StateObj "id" "f.bin" 2 2 1 2%positive 10 11]>
      (<[2%positive := JsHeap.ArrayObj [3%positive; 4%positive]]>
         (<[3%positive := JsHeap.ChunkObj c0]>
            (<[4%positive := JsHeap.ChunkObj c1]> ∅))) in
  let s := mkUploadState "id" "f.bin" 2 2 1 [c0; c1] 10 11 in
  JsHeap.read_state h 1%positive = Some s ∧
  chunks s !! 1%nat = Some c1 ∧
  ∃ h' p',
    JsHeap.updateChunkStatus h 1%positive 1 false true 12 = Some (h', p') ∧
    JsHeap.read_state h' p'
    = Some (mkUploadState "id" "f.bin" 2 2 1
              [c0; mkChunkStatus 1 false true 3] 10 12) ∧
    JsHeap.read_state h' 1%positive = Some s.
Proof.
  intros c0 c1 h s.
  assert (Hread : JsHeap.read_state h 1%positive = Some s)
    by (vm_compute; reflexivity).
  assert (Hchunk : chunks s !! 1%nat = Some c1) by reflexivity.
  split; [exact Hread|]. split; [exact Hchunk|].
  destruct (updateChunkStatus_frame h 1%positive s 1 c1 false true 12
              Hread Hchunk)
    as (h' & p' & s' & Hrun & Hread' & Hs' & _ & _ & _ & _ & _ & _ & _ & _
        & _ & _ & _ & Hold).
  exists h', p'. split; [exact Hrun|]. split; [|exact Hold].
  rewrite Hread', Hs'. reflexivity.
Defined.

(** ** Persistence *)

Lemma storage_key_inj id1 id2 : storage_key id1 = storage_key id2 → id1 = id2.
Proof. unfold storage_key. apply String.app_inj. Qed.

Lemma saveUploadState_normal `{JSON} st id s :
  ∃ st', saveUploadState st id s = Normal st'.
Proof.
  unfold saveUploadState, try_catch. simpl.
  destruct (setItem st _ _); eauto.
Qed.

Lemma loadUploadState_unfold `{JSON} st id :
  accessible st = true →
  loadUploadState st id
  = match items st !! storage_key id with
    | Some text =>
        if decide (text = "") then Normal None
        else try_catch (JSON_parse text) (λ _, Normal None)
    | None => Normal None
    end.
Proof.
  intros Hacc. unfold loadUploadState, getItem. rewrite Hacc. simpl.
  destruct (items st !! storage_key id) as [text|]; [|done].
  by case_decide.
Qed.

(** C8.  [loadUploadState] always completes normally, whatever the store
    holds and whether or not it can be read.  It returns null when no
    snapshot is stored under the id and when the stored text does not
    parse.  When [saveUploadState] has written a snapshot (the write was
    accepted, and the text written parses back to the snapshot), a load
    of the same id from the resulting store, or from that store after
    saves under other ids or saves that the store rejected, returns
    that snapshot. *)
Theorem loadUploadState_spec `{JSON} (st : Storage) (id : string) :
  (∃ result, loadUploadState st id = Normal result) ∧
  (items st !! storage_key id = None →
     loadUploadState st id = Normal None) ∧
  (∀ text e,
     items st !! storage_key id = Some text →
     JSON_parse text = Throw e →
     loadUploadState st id = Normal None) ∧
  (∀ s st1,
     setItem st (storage_key id) (JSON_stringify s) = Normal st1 →
     JSON_stringify s ≠ "" →
     JSON_parse (JSON_stringify s) = Normal (Some s) →
     saveUploadState st id s = Normal st1 ∧
     loadUploadState st1 id = Normal (Some s) ∧
     ∀ id' s' st2,
       id' ≠ id ∨
       has_room st1 (storage_key id') (JSON_stringify s') = false →
       saveUploadState st1 id' s' = Normal st2 →
       loadUploadState st2 id = Normal (Some s)).
Proof.
  split; [|split; [|split]].
  - unfold loadUploadState, try_catch, getItem.
    destruct (accessible st); simpl; [|eauto].
    destruct (items st !! storage_key id) as [text|]; [|eauto].
    case_decide; [eauto|]. destruct (JSON_parse text); eauto.
  - intros Hnone. unfold loadUploadState, try_catch, getItem.
    destruct (accessible st); simpl; [|done]. by rewrite Hnone.
  - intros text e Hsome Hthrow. unfold loadUploadState, try_catch, getItem.
    destruct (accessible st); simpl; [|done]. rewrite Hsome.
    case_decide; [done|]. by rewrite Hthrow.
  - intros s st1 Hset Hne Hparse.
    assert (Hsave : saveUploadState st id s = Normal st1).
    { unfold saveUploadState, try_catch. simpl. by rewrite Hset. }
    unfold setItem in Hset.
    destruct (accessible st) eqn:Hacc; [|done].
    destruct (has_room st _ _); [|done].
    injection Hset as <-.
    split; [exact Hsave|]. split.
    + rewrite loadUploadState_unfold by done. simpl.
      rewrite lookup_insert_eq. rewrite decide_False by done.
      by rewrite Hparse.
    + intros id' s' st2 Hid Hsave'.
      assert (Hitems : items st2 !! storage_key id
                       = Some (JSON_stringify s)).
      { revert Hsave'. unfold saveUploadState, try_catch, setItem.
        cbn [accessible has_room items].
        destruct (has_room st (storage_key id') (JSON_stringify s'))
          eqn:Hroom; intros [= <-]; cbn [items].
        - destruct Hid as [Hid|Hid]; [|simpl in Hid; congruence].
          rewrite lookup_insert_ne
            by (intros Heq; apply storage_key_inj in Heq; done).
          apply lookup_insert_eq.
        - apply lookup_insert_eq. }
      assert (Hacc2 : accessible st2 = true).
      { revert Hsave'. unfold saveUploadState, try_catch, setItem. simpl.
        destruct (has_room st _ _); by intros [= <-]. }
      rewrite loadUploadState_unfold by done.
      rewrite Hitems. rewrite decide_False by done. by rewrite Hparse.
Qed.

Lemma loadUploadState_spec_example :
  let empty := mkStorage true (λ _ _, true) ∅ in
  let corrupt :=
    mkStorage true (λ _ _, true) {[storage_key "u1" := "invalid json"]} in
  @loadUploadState sample_JSON empty "u1" = Normal None ∧
  @loadUploadState sample_JSON corrupt "u1" = Normal None ∧
  ∃ st1,
    @saveUploadState sample_JSON empty "u1" sample_state = Normal st1 ∧
    @loadUploadState sample_JSON st1 "u1" = Normal (Some sample_state).
Proof.
  intros empty corrupt.
  destruct (@loadUploadState_spec sample_JSON empty "u1")
    as (_ & Habsent & _ & Hsaved).
  destruct (@loadUploadState_spec sample_JSON corrupt "u1")
    as (_ & _ & Hcorrupt & _).
  split; [apply Habsent; reflexivity|].
  split; [apply (Hcorrupt "invalid json" "SyntaxError"); reflexivity|].
  destruct (Hsaved sample_state
              (mkStorage true (λ _ _, true)
                 (<[storage_key "u1" := sample_text]> ∅)))
    as (Hsave & Hload & _); [reflexivity | discriminate | reflexivity |].
  eexists. split; [exact Hsave | exact Hload].
Defined.

(** ** The scheduler: batches and resume *)

Lemma sorted_filter_seq (P : nat → Prop) `{∀ i, Decision (P i)} n len :
  StronglySorted lt (filter P (seq n len)) ∧
  Forall (λ i, (n ≤ i)%nat) (filter P (seq n len)).
Proof.
  revert n. induction len as [|len IH]; intros n; simpl.
  - split; constructor.
  - destruct (IH (S n)) as [Hs Hall]. rewrite filter_cons.
    case_decide.
    + split.
      * constructor; [done|]. eapply Forall_impl; [exact Hall|].
        simpl. intros; lia.
      * constructor; [lia|]. eapply Forall_impl; [exact Hall|].
        simpl. intros; lia.
    + split; [done|]. eapply Forall_impl; [exact Hall|]. simpl. intros; lia.
Qed.

Lemma sorted_take {A} (R : A → A → Prop) n (l : list A) :
  StronglySorted R l → StronglySorted R (take n l).
Proof.
  intros Hs. revert n. induction Hs as [|x l Hs IH Hall]; intros [|n]; simpl;
    try constructor; [apply IH|].
  apply Forall_take. exact Hall.
Qed.

Lemma pending_indices_sorted cs n :
  StronglySorted lt (take n (pending_indices cs)).
Proof. apply sorted_take. apply sorted_filter_seq. Qed.

Lemma pending_indices_elem cs i :
  i ∈ pending_indices cs ↔
  ∃ chunk, cs !! i = Some chunk ∧ uploaded chunk = false.
Proof.
  unfold pending_indices. rewrite list_elem_of_filter, elem_of_seq.
  unfold pending_at. split.
  - intros [Hp _]. destruct (cs !! i) as [c|]; [|done].
    exists c. split; [done|]. by destruct (uploaded c).
  - intros (c & Hc & Hu). rewrite Hc, Hu. split; [done|].
    apply lookup_lt_Some in Hc. lia.
Qed.

Lemma pendingChunks_indices_from pre cs :
  well_indexed (pre ++ cs) →
  chunkIndex <$> filter (λ chunk, uploaded chunk = false) cs
  = filter (λ i, pending_at (pre ++ cs) i = true)
      (seq (length pre) (length cs)).
Proof.
  revert pre. induction cs as [|c cs IH]; intros pre Hwf; [done|].
  simpl length. simpl seq. rewrite !filter_cons.
  assert (Hc : (pre ++ c :: cs) !! length pre = Some c)
    by apply list_lookup_middle, eq_refl.
  assert (Hidx : chunkIndex c = length pre) by (by apply Hwf).
  specialize (IH (pre ++ [c])).
  rewrite <- app_assoc in IH. simpl in IH.
  rewrite length_app in IH. simpl in IH.
  replace (length pre + 1)%nat with (S (length pre)) in IH by lia.
  assert (Hp : pending_at (pre ++ c :: cs) (length pre) = negb (uploaded c))
    by (unfold pending_at; by rewrite Hc).
  destruct (uploaded c) eqn:Hu; simpl in Hp.
  - rewrite decide_False by done.
    rewrite decide_False by (rewrite Hp; done).
    by apply IH.
  - rewrite decide_True by done. rewrite decide_True by done.
    rewrite fmap_cons, Hidx. f_equal. by apply IH.
Qed.

(** The batch of the source, read off the [chunkIndex] fields of the
    first pending records, is the list of the first pending positions. *)
Lemma batch_indices s :
  well_indexed (chunks s) →
  chunkIndex <$> take MAX_PARALLEL_UPLOADS (pendingChunks s)
  = take MAX_PARALLEL_UPLOADS (pending_indices (chunks s)).
Proof.
  intros Hwf. rewrite fmap_take. f_equal.
  apply (pendingChunks_indices_from [] (chunks s)). exact Hwf.
Qed.

Lemma pending_count cs :
  (length (pending_indices cs)
   + length (filter (λ chunk, uploaded chunk = true) cs))%nat = length cs.
Proof.
  assert (Hgen : ∀ pre cs,
    (length (filter (λ i, pending_at (pre ++ cs) i = true)
               (seq (length pre) (length cs)))
     + length (filter (λ chunk, uploaded chunk = true) cs))%nat = length cs).
  { clear cs. intros pre cs. revert pre.
    induction cs as [|c cs IH]; intros pre; [done|].
    simpl length. simpl seq. rewrite !filter_cons.
    assert (Hc : (pre ++ c :: cs) !! length pre = Some c)
      by apply list_lookup_middle, eq_refl.
    specialize (IH (pre ++ [c])).
    rewrite <- app_assoc in IH. simpl in IH.
    rewrite length_app in IH. simpl in IH.
    replace (length pre + 1)%nat with (S (length pre)) in IH by lia.
    assert (Hp : pending_at (pre ++ c :: cs) (length pre)
                 = negb (uploaded c))
      by (unfold pending_at; by rewrite Hc).
    destruct (uploaded c) eqn:Hu; simpl in Hp.
    - rewrite decide_False by (rewrite Hp; done).
      rewrite decide_True by done. simpl. lia.
    - rewrite decide_True by done. rewrite decide_False by done.
      simpl. lia. }
  apply (Hgen [] cs).
Qed.

Section Resume.
Variable cs0 : list ChunkStatus.
Variable t0 : list event.
Variable env : Env.

#[local] Abbreviation inv := (resume_inv cs0 t0).

Lemma inv_same_table h h' :
  state h' = state h → trace h' = trace h → inv h → inv h'.
Proof.
  intros Hs Ht [Hk He]. split.
  - unfold keeps_uploaded. by rewrite Hs.
  - by rewrite Ht.
Qed.

Lemma inv_log e h : event_allowed cs0 e → inv h → inv (log e h).
Proof.
  intros Hok [Hk (evs & Ht & Hall)]. split; [exact Hk|].
  exists (e :: evs). simpl. rewrite Ht. split; [done|].
  by constructor.
Qed.

Lemma inv_suspend p h : inv h → inv (suspend env p h).
Proof.
  unfold suspend. destruct (user_request env p); [done|..];
    by apply inv_same_table.
Qed.

Lemma inv_outcome i u f now h :
  pending_at cs0 i = true → inv h →
  inv (setState (λ prevState, updateChunkStatus prevState i u f now) h).
Proof.
  intros Hp [(Hlen & Hwf & Hup) He]. split; [|exact He].
  unfold keeps_uploaded. cbn [state setState].
  split; [by rewrite updateChunkStatus_length|]. split.
  - intros j c Hc. destruct (decide (i = j)) as [->|Hne].
    + destruct (chunks (state h) !! j) as [c1|] eqn:H1.
      * rewrite (updateChunkStatus_lookup_eq _ _ _ _ _ _ H1) in Hc.
        injection Hc as <-. simpl. by apply Hwf.
      * rewrite (updateChunkStatus_out_of_range _ _ _ _ _ H1) in Hc.
        congruence.
    + rewrite updateChunkStatus_lookup_ne in Hc by done. by apply Hwf.
  - intros j c0 Hc0 Hu. rewrite updateChunkStatus_lookup_ne; [by eapply Hup|].
    intros ->. unfold pending_at in Hp. rewrite Hc0, Hu in Hp. done.
Qed.

Lemma inv_reset h : inv h → inv (setState resetFailed h).
Proof.
  intros [(Hlen & Hwf & Hup) He]. split; [|exact He].
  unfold keeps_uploaded. cbn [state setState].
  split; [by rewrite resetFailed_length|]. split.
  - intros j c. rewrite resetFailed_lookup.
    destruct (chunks (state h) !! j) as [c1|] eqn:H1; [|done].
    simpl. intros [= <-]. specialize (Hwf _ _ H1).
    by destruct (failed c1 && _).
  - intros j c0 Hc0 Hu. destruct (Hup _ _ Hc0 Hu) as (c & Hc & Hcu).
    rewrite resetFailed_lookup, Hc. simpl.
    eexists. split; [done|]. by destruct (failed c && _).
Qed.

Lemma inv_uploadSingleChunk i h :
  pending_at cs0 i = true → inv h → inv (uploadSingleChunk env i h).2.
Proof.
  intros Hp Hinv. unfold uploadSingleChunk. cbn [file chunksRef log].
  assert (Hd : inv (log (EvDispatch i) h)) by (by apply inv_log).
  destruct (file h); [|exact Hd].
  destruct (chunksRef h !! i); [|exact Hd].
  assert (Ht : inv (tick (log (EvTransfer i) (log (EvDispatch i) h)))).
  { eapply inv_same_table;
      [| |apply (inv_log (EvTransfer i)); [exact Hp|exact Hd]]; done. }
  destruct (uploadChunk env _ i); cbn [snd];
    by apply inv_outcome.
Qed.

Lemma inv_uploadAll cs h :
  Forall (λ chunk, pending_at cs0 (chunkIndex chunk) = true) cs →
  inv h → inv (uploadAll env cs h).
Proof.
  intros Hall. revert h. unfold uploadAll.
  induction Hall as [|c cs Hc _ IH]; intros h Hinv; simpl; [done|].
  apply IH. by apply inv_uploadSingleChunk.
Qed.

(** A record that is pending in the current table sits at a position
    that was pending in [cs0]. *)
Lemma pending_now_pending_before h chunk :
  keeps_uploaded cs0 h →
  chunk ∈ pendingChunks (state h) →
  pending_at cs0 (chunkIndex chunk) = true.
Proof.
  intros (Hlen & Hwf & Hup) Hin.
  apply list_elem_of_filter in Hin as [Hu Hin].
  apply list_elem_of_lookup in Hin as [i Hi].
  rewrite (Hwf _ _ Hi). unfold pending_at.
  destruct (cs0 !! i) as [c0|] eqn:H0.
  - destruct (uploaded c0) eqn:Hu0; [|done].
    destruct (Hup _ _ H0 Hu0) as (c & Hc & Hcu). congruence.
  - apply lookup_ge_None in H0. apply lookup_lt_Some in Hi. lia.
Qed.

Lemma inv_dispatch_loop fuel k h :
  inv h → inv (dispatch_loop fuel env k h).2.
Proof.
  revert k h. induction fuel as [|fuel IH]; intros k h Hinv; simpl.
  - destruct (isPausedRef h); [done|]. by case_decide.
  - destruct (isPausedRef h) eqn:Hpaused; [done|].
    case_decide as Hpend; [done|].
    set (batch := take MAX_PARALLEL_UPLOADS (pendingChunks (state h))).
    set (h1 := log (EvBatch (chunks (state h)) (chunkIndex <$> batch)) h).
    assert (H1 : inv h1).
    { apply inv_log; [|done]. destruct Hinv as [(Hlen & Hwf & _) _].
      split; [done|]. by apply batch_indices. }
    set (h2 := uploadAll env batch h1).
    assert (H2 : inv h2).
    { apply inv_uploadAll; [|done]. apply Forall_forall. intros c Hc.
      apply (pending_now_pending_before h); [apply Hinv|].
      by apply (subseteq_take MAX_PARALLEL_UPLOADS). }
    set (h3 := suspend env (AwaitBatch k) h2).
    assert (H3 : inv h3) by (by apply inv_suspend).
    destruct (isPausedRef h3); [done|].
    destruct (allUploaded _).
    + cbn [snd]. apply inv_log; [done|]. by eapply inv_same_table.
    + apply IH. by apply inv_suspend.
Qed.

Lemma inv_retryFailedChunks h :
  well_indexed cs0 → inv h → inv (retryFailedChunks env cs0 h).
Proof.
  intros Hwf0 Hinv. unfold retryFailedChunks. case_decide; [done|].
  apply inv_uploadAll; [|by apply inv_reset].
  apply Forall_forall. intros c Hc.
  apply list_elem_of_filter in Hc as [(Hu & _ & _) Hin].
  apply list_elem_of_lookup in Hin as [i Hi].
  rewrite (Hwf0 _ _ Hi). unfold pending_at. by rewrite Hi, Hu.
Qed.

End Resume.

Lemma startUpload_inv fuel env h :
  well_indexed (chunks (state h)) →
  resume_inv (chunks (state h)) (trace h) (startUpload fuel env h).2.
Proof.
  intros Hwf.
  assert (H0 : resume_inv (chunks (state h)) (trace h) h).
  { split; [|exists []; split; [done|constructor]].
    split; [done|]. split; [done|]. eauto. }
  unfold startUpload. destruct (file h); [|exact H0].
  destruct (isUploading h && negb (isPaused h)); [exact H0|].
  set (h1 := setIsUploading true (setIsPaused false h)).
  assert (H1 : resume_inv (chunks (state h)) (trace h) h1)
    by (by eapply inv_same_table).
  pose proof (inv_dispatch_loop _ _ env fuel 0 h1 H1) as H2.
  destruct (dispatch_loop fuel env 0 h1) as [exited h2]. cbn [snd] in H2.
  destruct exited; cbn [negb]; [|exact H2].
  set (h3 := if negb (isPausedRef h2)
             then suspend env AwaitRetry
                    (retryFailedChunks env (chunks (state h)) h2)
             else h2).
  assert (H3 : resume_inv (chunks (state h)) (trace h) h3).
  { unfold h3. destruct (negb (isPausedRef h2)); [|exact H2].
    apply inv_suspend. by apply inv_retryFailedChunks. }
  destruct (isPausedRef h3); [exact H3|]. cbn [snd].
  unfold finalCheck. destruct (allUploaded (state h3)).
  - apply inv_log; [done|]. by eapply inv_same_table.
  - by eapply inv_same_table.
Qed.

(** C6.  Let [start()] be invoked on a session whose table has [k] of
    its [n] records uploaded (and every record at its own index).  Up to
    any point of the run, every chunk that was dispatched, and every
    chunk handed to the transfer client, is one of the [n - k] records
    that were not uploaded at the invocation; a record that was uploaded
    is never dispatched.  Every batch is the list of the first
    [MAX_PARALLEL_UPLOADS = 5] pending positions of the table the loop
    read, in ascending order. *)
Theorem startUpload_resumes (fuel : nat) (env : Env) (h : Hook) :
  let cs0 := chunks (state h) in
  well_indexed cs0 →
  ∃ evs,
    trace (startUpload fuel env h).2 = evs ++ trace h ∧
    (∀ i, EvDispatch i ∈ evs ∨ EvTransfer i ∈ evs →
       i ∈ pending_indices cs0) ∧
    (∀ i chunk, cs0 !! i = Some chunk → uploaded chunk = true →
       (EvDispatch i ∉ evs) ∧ (EvTransfer i ∉ evs)) ∧
    (∀ table b, EvBatch table b ∈ evs →
       b = take MAX_PARALLEL_UPLOADS (pending_indices table) ∧
       (length b ≤ 5)%nat ∧
       StronglySorted lt b ∧
       ∀ i, i ∈ b → ∃ chunk, table !! i = Some chunk ∧
                             uploaded chunk = false) ∧
    length (pending_indices cs0)
    = (length cs0 - length (filter (λ chunk, uploaded chunk = true) cs0))%nat.
Proof.
  intros cs0 Hwf.
  destruct (startUpload_inv fuel env h Hwf) as [_ (evs & Ht & Hall)].
  fold cs0 in Hall.
  rewrite Forall_forall in Hall.
  assert (Hdisp : ∀ i, EvDispatch i ∈ evs ∨ EvTransfer i ∈ evs →
                       pending_at cs0 i = true).
  { intros i [Hi|Hi]; apply Hall in Hi; exact Hi. }
  exists evs. split; [exact Ht|]. split; [|split; [|split]].
  - intros i Hi. apply Hdisp in Hi. apply pending_indices_elem.
    unfold pending_at in Hi. destruct (cs0 !! i) as [c|]; [|done].
    exists c. split; [done|]. by destruct (uploaded c).
  - intros i c Hc Hu.
    split; intros Hin;
      [assert (Hp := Hdisp i (or_introl Hin))
      |assert (Hp := Hdisp i (or_intror Hin))];
      unfold pending_at in Hp; rewrite Hc, Hu in Hp; done.
  - intros table b Hin. apply Hall in Hin as [_ ->].
    split; [done|]. split; [|split].
    + rewrite length_take. unfold MAX_PARALLEL_UPLOADS. lia.
    + apply pending_indices_sorted.
    + intros i Hi. apply pending_indices_elem.
      by apply (subseteq_take MAX_PARALLEL_UPLOADS).
  - pose proof (pending_count cs0). lia.
Qed.

Lemma startUpload_resumes_example :
  let cs0 := [mkChunkStatus 0 true false 0; mkChunkStatus 1 false false 0;
              mkChunkStatus 2 false true 1] in
  let f := mkFile "a.bin" 3 in
  let h := mkHook (Some f)
             [slice 0 1; slice 1 2; slice 2 3]
             (mkUploadState "u" "a.bin" 3 3 1 cs0 0 0)
             false false false 0 [] in
  let env := mkEnv (λ _ _, true) (λ _, 7) (λ _, NoRequest) (λ _, false) in
  well_indexed cs0 ∧
  ∃ evs,
    trace (startUpload 4 env h).2 = evs ++ [] ∧
    (EvDispatch 0 ∉ evs) ∧
    ∀ i, EvDispatch i ∈ evs → i ∈ pending_indices cs0.
Proof.
  intros cs0 f h env.
  assert (Hwf : well_indexed cs0).
  { intros [|[|[|i]]] c; simpl; intros [= <-]; reflexivity. }
  split; [exact Hwf|].
  destruct (startUpload_resumes 4 env h Hwf)
    as (evs & Ht & Hpend & Hnever & _).
  exists evs. split; [exact Ht|]. split.
  - apply (Hnever 0%nat (mkChunkStatus 0 true false 0)); reflexivity.
  - intros i Hi. apply Hpend. by left.
Defined.

(** ** The scheduler: missing data source *)

(** C9.  With no file bound, [startUpload] returns at once and leaves
    the hook exactly as it was: nothing is dispatched, nothing is handed
    to the transfer client, and the chunk table, with every [failed]
    flag and [retryCount], is the same.  [uploadSingleChunk] itself
    returns [false] without a transfer and without touching the table. *)
Theorem startUpload_without_file (fuel : nat) (env : Env) (h : Hook) :
  file h = None →
  startUpload fuel env h = (true, h) ∧
  ∀ i, uploadSingleChunk env i h = (false, log (EvDispatch i) h) ∧
       state (uploadSingleChunk env i h).2 = state h ∧
       transferred (trace (uploadSingleChunk env i h).2)
       = transferred (trace h).
Proof.
  intros Hfile. split.
  - unfold startUpload. by rewrite Hfile.
  - intros i. unfold uploadSingleChunk. cbn [file log]. rewrite Hfile.
    split; [done|]. split; [done|]. cbn [snd trace log].
    unfold transferred. rewrite reverse_cons, omap_app. simpl.
    by rewrite app_nil_r.
Qed.

Lemma startUpload_without_file_example :
  let cs := [mkChunkStatus 0 true false 0; mkChunkStatus 1 false true 1] in
  let h := mkHook None [] (mkUploadState "u" "a.bin" 2 2 1 cs 0 0)
             false false false 0 [] in
  let env := mkEnv (λ _ _, false) (λ _, 7) (λ _, NoRequest) (λ _, true) in
  file h = None ∧
  pendingChunks (state h) ≠ [] ∧
  startUpload 9 env h = (true, h).
Proof.
  intros cs h env. split; [reflexivity|]. split; [discriminate|].
  apply (startUpload_without_file 9 env h). reflexivity.
Defined.

(** ** The scheduler: retrying failed chunks *)

Lemma dispatched_app evs1 evs2 :
  dispatched (evs2 ++ evs1) = dispatched evs1 ++ dispatched evs2.
Proof. unfold dispatched. by rewrite reverse_app, omap_app. Qed.

Lemma transferred_app evs1 evs2 :
  transferred (evs2 ++ evs1) = transferred evs1 ++ transferred evs2.
Proof. unfold transferred. by rewrite reverse_app, omap_app. Qed.

Lemma uploadSingleChunk_effect env i h :
  let h' := (uploadSingleChunk env i h).2 in
  file h' = file h ∧ chunksRef h' = chunksRef h ∧
  length (chunks (state h')) = length (chunks (state h)) ∧
  (∀ j, j ≠ i → chunks (state h') !! j = chunks (state h) !! j) ∧
  ∃ evs,
    trace h' = evs ++ trace h ∧
    dispatched evs = [i] ∧
    transferred evs = (if guard_passes h i then [i] else []).
Proof.
  cbv zeta. unfold uploadSingleChunk, guard_passes. cbn [file chunksRef log].
  destruct (file h) as [f|] eqn:Hf;
    [destruct (chunksRef h !! i) as [b|] eqn:Hb|].
  - destruct (uploadChunk env _ i);
      cbn [snd setState tick log file chunksRef state trace].
    + split; [done|]. split; [done|].
      split; [apply updateChunkStatus_length|].
      split; [intros j Hj; by apply updateChunkStatus_lookup_ne|].
      by exists [EvTransfer i; EvDispatch i].
    + split; [done|]. split; [done|].
      split; [apply updateChunkStatus_length|].
      split; [intros j Hj; by apply updateChunkStatus_lookup_ne|].
      by exists [EvTransfer i; EvDispatch i].
  - cbn [snd log file chunksRef state trace]. repeat split; [done|].
    by exists [EvDispatch i].
  - cbn [snd log file chunksRef state trace]. repeat split; [done|].
    by exists [EvDispatch i].
Qed.

Lemma uploadAll_effect env cs h :
  let h' := uploadAll env cs h in
  file h' = file h ∧ chunksRef h' = chunksRef h ∧
  length (chunks (state h')) = length (chunks (state h)) ∧
  (∀ j, j ∉ chunkIndex <$> cs →
        chunks (state h') !! j = chunks (state h) !! j) ∧
  ∃ evs,
    trace h' = evs ++ trace h ∧
    dispatched evs = chunkIndex <$> cs ∧
    transferred evs
    = filter (λ i, guard_passes h i = true) (chunkIndex <$> cs).
Proof.
  cbv zeta. revert h. unfold uploadAll.
  induction cs as [|c cs IH]; intros h; simpl.
  - do 4 (split; [done|]). by exists [].
  - destruct (uploadSingleChunk_effect env (chunkIndex c) h)
      as (Hf1 & Hr1 & Hl1 & Hfr1 & evs1 & Ht1 & Hd1 & Htr1).
    destruct (IH (uploadSingleChunk env (chunkIndex c) h).2)
      as (Hf2 & Hr2 & Hl2 & Hfr2 & evs2 & Ht2 & Hd2 & Htr2).
    split; [congruence|]. split; [congruence|]. split; [congruence|].
    split.
    + intros j Hj. rewrite Hfr2, Hfr1; [done|..].
      * intros ->. apply Hj. by left.
      * intros Hin. apply Hj. by right.
    + exists (evs2 ++ evs1). split; [by rewrite Ht2, Ht1, app_assoc|].
      rewrite dispatched_app, transferred_app, Hd1, Hd2, Htr1, Htr2.
      split; [done|]. rewrite filter_cons.
      assert (Hg : ∀ i,
        guard_passes (uploadSingleChunk env (chunkIndex c) h).2 i
        = guard_passes h i).
      { intros i. unfold guard_passes. by rewrite Hf1, Hr1. }
      rewrite (list_filter_iff _ (λ i, guard_passes h i = true))
        by (intros i; by rewrite Hg).
      destruct (guard_passes h (chunkIndex c)).
      * by rewrite decide_True.
      * by rewrite decide_False.
Qed.

Lemma retryable_reflect chunk :
  failed chunk && (retryCount chunk <? MAX_RETRIES)%nat = true
  ↔ retryable chunk.
Proof.
  unfold retryable. rewrite andb_true_iff, Nat.ltb_lt. done.
Qed.

Lemma failedChunks_retryable cs :
  Forall consistent cs →
  filter (λ chunk, uploaded chunk = false ∧ failed chunk = true ∧
                   (retryCount chunk < MAX_RETRIES)%nat) cs
  = filter retryable cs.
Proof.
  induction 1 as [|c cs Hc _ IH]; [done|].
  rewrite !filter_cons, IH.
  destruct (decide (retryable c)) as [Hr|Hr].
  - rewrite decide_True; [done|]. destruct Hr as [Hf Hrc].
    split; [|done]. destruct (uploaded c) eqn:Hu; [|done].
    exfalso. by apply Hc.
  - rewrite decide_False; [done|]. intros (_ & Hf & Hrc). by apply Hr.
Qed.

Lemma resetFailed_none s :
  filter retryable (chunks s) = [] → resetFailed s = s.
Proof.
  intros Hnone. destruct s as [uid fname fsize total csize cs start last].
  unfold resetFailed. simpl in *. f_equal.
  induction cs as [|c cs IH]; [done|].
  rewrite filter_cons in Hnone.
  destruct (decide (retryable c)) as [Hr|Hr]; [done|].
  rewrite fmap_cons, IH by done. f_equal.
  destruct (failed c && _) eqn:Hb; [|done].
  apply retryable_reflect in Hb. done.
Qed.

Lemma filter_all {A} (P : A → Prop) `{∀ x, Decision (P x)} (l : list A) :
  Forall P l → filter P l = l.
Proof.
  induction 1 as [|x l Hx _ IH]; [done|].
  rewrite filter_cons, decide_True by done. by rewrite IH.
Qed.

(** The call made from a render whose chunk table [cs] is the current
    one (the Retry button), on a table that is consistent and has every
    record at its own index.  The call clears the [failed] flag of exactly the
    records with [failed = true] and [retryCount < MAX_RETRIES = 3],
    leaving their [retryCount] (and every other record) as it was, and
    then calls [uploadSingleChunk] for exactly those records, in table
    order; with a file bound that has a blob for each, these are the
    calls of the transfer client.  A record with
    [retryCount >= MAX_RETRIES] is the same after the call as before. *)
Theorem retryFailedChunks_spec (env : Env) (h : Hook) :
  let cs := chunks (state h) in
  Forall consistent cs → well_indexed cs →
  retryFailedChunks env cs h
  = uploadAll env (filter retryable cs) (setState resetFailed h) ∧
  (∀ i chunk, cs !! i = Some chunk →
     chunks (resetFailed (state h)) !! i
     = Some (if decide (retryable chunk) then clearFailed chunk
             else chunk) ∧
     retryCount (clearFailed chunk) = retryCount chunk) ∧
  (∃ evs,
     trace (retryFailedChunks env cs h) = evs ++ trace h ∧
     dispatched evs = chunkIndex <$> filter retryable cs ∧
     (∀ i, i ∈ dispatched evs ↔
           ∃ chunk, cs !! i = Some chunk ∧ retryable chunk) ∧
     (is_Some (file h) → (length cs ≤ length (chunksRef h))%nat →
      transferred evs = dispatched evs)) ∧
  (∀ i chunk, cs !! i = Some chunk →
     (MAX_RETRIES ≤ retryCount chunk)%nat →
     chunks (state (retryFailedChunks env cs h)) !! i = Some chunk).
Proof.
  intros cs Hcons Hwf.
  assert (Heq : retryFailedChunks env cs h
                = uploadAll env (filter retryable cs)
                    (setState resetFailed h)).
  { assert (Hfc : retryFailedChunks env cs h
                  = if decide (length (filter retryable cs) = 0%nat) then h
                    else uploadAll env (filter retryable cs)
                           (setState resetFailed h)).
    { rewrite <- (failedChunks_retryable cs Hcons). reflexivity. }
    rewrite Hfc. case_decide as Hlen; [|done].
    apply nil_length_inv in Hlen. rewrite Hlen. simpl.
    unfold setState. rewrite (resetFailed_none (state h) Hlen).
    by destruct h. }
  assert (Hmem : ∀ i, i ∈ chunkIndex <$> filter retryable cs ↔
                      ∃ chunk, cs !! i = Some chunk ∧ retryable chunk).
  { intros i. rewrite list_elem_of_fmap. split.
    - intros (c & -> & Hin). apply list_elem_of_filter in Hin as [Hr Hin].
      apply list_elem_of_lookup in Hin as [j Hj].
      exists c. rewrite (Hwf _ _ Hj). done.
    - intros (c & Hc & Hr). exists c. split; [by rewrite (Hwf _ _ Hc)|].
      apply list_elem_of_filter. split; [done|].
      apply list_elem_of_lookup. eauto. }
  destruct (uploadAll_effect env (filter retryable cs)
              (setState resetFailed h))
    as (Hfile & Href & Hlen & Hframe & evs & Ht & Hd & Htr).
  split; [exact Heq|]. split; [|split].
  - intros i c Hc. split; [|done].
    rewrite resetFailed_lookup. fold cs. rewrite Hc. simpl. f_equal.
    destruct (decide (retryable c)) as [Hr|Hr].
    + apply retryable_reflect in Hr. by rewrite Hr.
    + destruct (failed c && _) eqn:Hb; [|done].
      apply retryable_reflect in Hb. done.
  - exists evs. rewrite Heq. split; [exact Ht|]. split; [exact Hd|].
    split; [intros i; rewrite Hd; apply Hmem|].
    intros Hsome Hblobs. rewrite Htr, Hd.
    apply filter_all. rewrite Forall_forall. intros i Hi.
    apply Hmem in Hi as (c & Hc & _).
    unfold guard_passes. cbn [file chunksRef setState].
    destruct Hsome as [f ->].
    apply lookup_lt_Some in Hc.
    destruct (lookup_lt_is_Some_2 (chunksRef h) i) as [b ->]; [lia|done].
  - intros i c Hc Hmax. rewrite Heq, Hframe.
    + cbn [state setState]. rewrite resetFailed_lookup. fold cs.
      rewrite Hc. simpl. f_equal.
      destruct (failed c && _) eqn:Hb; [|done].
      apply retryable_reflect in Hb as [_ Hlt]. lia.
    + intros Hin. apply Hmem in Hin as (c' & Hc' & [_ Hlt]).
      assert (c' = c) as -> by congruence. lia.
Qed.

Lemma retryFailedChunks_spec_example :
  let c0 := mkChunkStatus 0 true false 0 in
  let c1 := mkChunkStatus 1 false true 1 in
  let c2 := mkChunkStatus 2 false true 3 in
  let h := mkHook (Some (mkFile "a.bin" 3))
             [slice 0 1; slice 1 2; slice 2 3]
             (mkUploadState "u" "a.bin" 3 3 1 [c0; c1; c2] 0 0)
             false false false 0 [] in
  let env := mkEnv (λ _ _, true) (λ _, 7) (λ _, NoRequest) (λ _, true) in
  Forall consistent [c0; c1; c2] ∧ well_indexed [c0; c1; c2] ∧
  chunks (resetFailed (state h)) = [c0; clearFailed c1; c2] ∧
  ∃ evs,
    trace (retryFailedChunks env [c0; c1; c2] h) = evs ++ [] ∧
    dispatched evs = [1%nat] ∧
    transferred evs = [1%nat] ∧
    chunks (state (retryFailedChunks env [c0; c1; c2] h)) !! 2%nat = Some c2.
Proof.
  intros c0 c1 c2 h env.
  assert (Hcons : Forall consistent [c0; c1; c2]).
  { repeat constructor; intros [? ?]; discriminate. }
  assert (Hwf : well_indexed [c0; c1; c2]).
  { intros [|[|[|i]]] c; simpl; intros [= <-]; reflexivity. }
  split; [exact Hcons|]. split; [exact Hwf|]. split; [reflexivity|].
  destruct (retryFailedChunks_spec env h Hcons Hwf)
    as (_ & _ & (evs & Ht & Hd & _ & Htr) & Hkeep).
  exists evs. split; [exact Ht|]. split; [exact Hd|]. split.
  - rewrite Htr; [exact Hd | by eexists | simpl; lia].
  - apply Hkeep; [reflexivity | unfold MAX_RETRIES; simpl; lia].
Defined.

(** ** The scheduler: zero-byte files *)

Lemma completions_log e h :
  e ≠ EvComplete → completions (log e h) = completions h.
Proof.
  intros Hne. unfold completions. cbn [trace log].
  by rewrite filter_cons, decide_False.
Qed.

Lemma stuck_not_allUploaded h : stuck h → allUploaded (state h) = false.
Proof. intros (_ & _ & Hcs & _). unfold allUploaded. by rewrite Hcs. Qed.

Lemma stuck_uploadSingleChunk env i h :
  stuck h →
  uploadSingleChunk env i h = (false, log (EvDispatch i) h) ∧
  stuck (uploadSingleChunk env i h).2.
Proof.
  intros (Href & Hsize & Hcs & Hcompl).
  assert (Heq : uploadSingleChunk env i h = (false, log (EvDispatch i) h)).
  { unfold uploadSingleChunk. cbn [file chunksRef log]. rewrite Href.
    rewrite lookup_nil. by destruct (file h). }
  split; [exact Heq|]. rewrite Heq. cbn [snd].
  split; [done|]. split; [done|]. split; [done|].
  by rewrite completions_log.
Qed.

Lemma stuck_uploadAll env cs h : stuck h → stuck (uploadAll env cs h).
Proof.
  revert h. unfold uploadAll. induction cs as [|c cs IH]; intros h Hs; [done|].
  simpl. apply IH. by apply stuck_uploadSingleChunk.
Qed.

Lemma stuck_same h h' :
  chunksRef h' = chunksRef h → state h' = state h → trace h' = trace h →
  stuck h → stuck h'.
Proof.
  intros Hr Hs Ht (? & ? & ? & ?). unfold stuck, completions.
  by rewrite Hr, Hs, Ht.
Qed.

Lemma stuck_suspend env p h : stuck h → stuck (suspend env p h).
Proof.
  unfold suspend. destruct (user_request env p); [done|..];
    by apply stuck_same.
Qed.

Lemma stuck_dispatch_loop fuel env k h :
  stuck h → stuck (dispatch_loop fuel env k h).2.
Proof.
  revert k h. induction fuel as [|fuel IH]; intros k h Hs; simpl.
  - destruct (isPausedRef h); [done|]. by case_decide.
  - destruct (isPausedRef h); [done|]. case_decide; [done|].
    set (h1 := log _ h).
    assert (H1 : stuck h1).
    { destruct Hs as (? & ? & ? & ?).
      split; [done|]. split; [done|]. split; [done|].
      unfold h1. by rewrite completions_log. }
    set (h2 := uploadAll env _ h1).
    assert (H2 : stuck h2) by (by apply stuck_uploadAll).
    set (h3 := suspend env (AwaitBatch k) h2).
    assert (H3 : stuck h3) by (by apply stuck_suspend).
    destruct (isPausedRef h3); [done|].
    assert (Hno : allUploaded (if ref_committed env k then state h3
                               else state h) = false).
    { destruct (ref_committed env k); by apply stuck_not_allUploaded. }
    rewrite Hno. apply IH. by apply stuck_suspend.
Qed.

Lemma stuck_retryFailedChunks env rendered h :
  stuck h → stuck (retryFailedChunks env rendered h).
Proof.
  intros Hs. unfold retryFailedChunks. case_decide; [done|].
  apply stuck_uploadAll. destruct Hs as (Hr & Hsize & Hcs & Hc).
  split; [done|]. split; [done|]. split; [|done].
  cbn [state setState]. unfold resetFailed. cbn [chunks]. by rewrite Hcs.
Qed.

Lemma stuck_startUpload fuel env h :
  stuck h → stuck (startUpload fuel env h).2.
Proof.
  intros Hs. unfold startUpload. destruct (file h); [|done].
  destruct (isUploading h && negb (isPaused h)); [done|].
  set (h1 := setIsUploading true (setIsPaused false h)).
  assert (H1 : stuck h1) by (by eapply stuck_same).
  pose proof (stuck_dispatch_loop fuel env 0 h1 H1) as H2.
  destruct (dispatch_loop fuel env 0 h1) as [exited h2]. cbn [snd] in H2.
  destruct exited; cbn [negb]; [|exact H2].
  set (h3 := if negb (isPausedRef h2)
             then suspend env AwaitRetry
                    (retryFailedChunks env (chunks (state h)) h2)
             else h2).
  assert (H3 : stuck h3).
  { unfold h3. destruct (negb (isPausedRef h2)); [|exact H2].
    by apply stuck_suspend, stuck_retryFailedChunks. }
  destruct (isPausedRef h3); [exact H3|]. cbn [snd].
  unfold finalCheck. rewrite (stuck_not_allUploaded h3 H3).
  by eapply stuck_same.
Qed.

Lemma stuck_step h h' : hook_step h h' → stuck h → stuck h'.
Proof.
  destruct 1 as [fuel env h|env h|env i h|h|h|f h h' Hvalid Hbind];
    intros Hs.
  - by apply stuck_startUpload.
  - by apply stuck_retryFailedChunks.
  - by apply stuck_uploadSingleChunk.
  - by eapply stuck_same.
  - by eapply stuck_same.
  - destruct Hs as (Hr & Hsize & Hcs & Hc).
    destruct Hvalid as [_ Hfsize]. unfold bindFile in Hbind.
    rewrite splitFileIntoChunks_empty in Hbind by congruence.
    simpl in Hbind. injection Hbind as <-. done.
Qed.

(** C10.  For a zero-byte file (and any chunk size) session creation
    makes a chunk table with exactly one record, while
    [splitFileIntoChunks] returns no blob for the same file.  In the
    hook mounted on that session and file, [uploadSingleChunk(0)]
    returns [false] and leaves the table as it is; and whatever sequence
    of [startUpload], [retryFailedChunks], [uploadSingleChunk],
    [pauseUpload], [cancelUpload] and re-binding of a valid file
    follows, the record is never uploaded and [onComplete] is never
    called. *)
Theorem zero_byte_session_never_completes (chunk_size : Z) (f : File)
    (uid : string) (t1 t2 : Z) :
  file_size f = 0 →
  let s := handleFileSelect_with chunk_size f uid t1 t2 in
  length (chunks s) = 1%nat ∧
  splitFileIntoChunks f chunk_size = Some [] ∧
  ∃ h0,
    useResumableUpload s (Some f) = Some h0 ∧
    (∀ env, (uploadSingleChunk env 0 h0).1 = false ∧
            state (uploadSingleChunk env 0 h0).2 = state h0) ∧
    ∀ h, rtc hook_step h0 h →
         chunks (state h) = [mkChunkStatus 0 false false 0] ∧
         allUploaded (state h) = false ∧
         completions h = 0%nat.
Proof.
  intros Hz s.
  assert (Hcs : chunks s = [mkChunkStatus 0 false false 0]).
  { unfold s, handleFileSelect_with, countChunks. rewrite Hz.
    rewrite decide_True by done. reflexivity. }
  assert (Hsplit : splitFileIntoChunks f chunk_size = Some [])
    by (by apply splitFileIntoChunks_empty).
  split; [by rewrite Hcs|]. split; [exact Hsplit|].
  exists (mkHook (Some f) [] s false false false 0 []).
  set (h0 := mkHook (Some f) [] s false false false 0 []).
  assert (Hchunk : chunkSize s = chunk_size) by reflexivity.
  assert (H0 : stuck h0).
  { split; [done|]. split; [exact Hz|]. split; done. }
  split.
  { unfold useResumableUpload. rewrite Hchunk, Hsplit. reflexivity. }
  split.
  { intros env. destruct (stuck_uploadSingleChunk env 0 h0 H0) as [-> _].
    done. }
  intros h Hrtc.
  assert (Hs : stuck h).
  { induction Hrtc as [|h1 h2 h3 Hstep _ IH]; [exact H0|].
    apply IH. by eapply stuck_step. }
  split; [apply Hs|]. split; [by apply stuck_not_allUploaded|apply Hs].
Qed.

Lemma zero_byte_session_never_completes_example :
  let f := mkFile "empty.txt" 0 in
  let env := mkEnv (λ _ _, true) (λ _, 7) (λ _, NoRequest) (λ _, true) in
  file_size f = 0 ∧
  length (chunks (handleFileSelect f "u" 1 1)) = 1%nat ∧
  splitFileIntoChunks f CHUNK_SIZE = Some [] ∧
  ∃ h0,
    useResumableUpload (handleFileSelect f "u" 1 1) (Some f) = Some h0 ∧
    completions (startUpload 50 env h0).2 = 0%nat ∧
    allUploaded (state (startUpload 50 env h0).2) = false.
Proof.
  intros f env. split; [reflexivity|].
  destruct (zero_byte_session_never_completes CHUNK_SIZE f "u" 1 1 eq_refl)
    as (Hlen & Hsplit & h0 & Hmount & _ & Hnever).
  split; [exact Hlen|]. split; [exact Hsplit|].
  exists h0. split; [exact Hmount|].
  destruct (Hnever (startUpload 50 env h0).2) as (_ & Hall & Hc).
  { apply rtc_once. apply step_start. }
  split; [exact Hc | exact Hall].
Defined.

(** ** The scheduler: the completion notification *)

Lemma allUploaded_pending s :
  allUploaded s = true ↔ pendingChunks s = [].
Proof.
  unfold allUploaded, pendingChunks.
  induction (chunks s) as [|c cs IH]; [done|].
  cbn [forallb]. rewrite filter_cons.
  destruct (uploaded c) eqn:Hu; cbn [andb].
  - by rewrite decide_False.
  - rewrite decide_True by done. split; intros; discriminate.
Qed.

Lemma completions_onComplete h :
  completions (onComplete h) = S (completions h).
Proof. unfold completions, onComplete. cbn [trace log]. done. Qed.

Lemma uploadSingleChunk_quiet env i h :
  completions (uploadSingleChunk env i h).2 = completions h ∧
  isPausedRef (uploadSingleChunk env i h).2 = isPausedRef h.
Proof.
  unfold uploadSingleChunk, completions. cbn [file chunksRef log].
  destruct (file h); [destruct (chunksRef h !! i)|];
    [destruct (uploadChunk env _ i)|..]; cbn; done.
Qed.

Lemma uploadAll_quiet env cs h :
  completions (uploadAll env cs h) = completions h ∧
  isPausedRef (uploadAll env cs h) = isPausedRef h.
Proof.
  revert h. unfold uploadAll. induction cs as [|c cs IH]; intros h; [done|].
  simpl. destruct (IH (uploadSingleChunk env (chunkIndex c) h).2) as [-> ->].
  apply uploadSingleChunk_quiet.
Qed.

Lemma retryFailedChunks_quiet env rendered h :
  completions (retryFailedChunks env rendered h) = completions h ∧
  isPausedRef (retryFailedChunks env rendered h) = isPausedRef h.
Proof.
  unfold retryFailedChunks. case_decide; [done|].
  match goal with
  | |- context [uploadAll env ?cs ?h0] =>
      destruct (uploadAll_quiet env cs h0) as [-> ->]
  end.
  done.
Qed.

Section NoPause.
Variable env : Env.
Hypothesis no_request : ∀ p, user_request env p = NoRequest.

Lemma suspend_no_request p h : suspend env p h = h.
Proof. unfold suspend. by rewrite no_request. Qed.

(** How an unpaused loop ends: with every chunk uploaded, and with at
    most one notification.  There is none when no check after a batch
    sees the batch's outcomes in the ref; there is one when every such
    check does and the loop had something to dispatch. *)
Lemma dispatch_loop_exit fuel k h h' :
  isPausedRef h = false →
  dispatch_loop fuel env k h = (true, h') →
  isPausedRef h' = false ∧ allUploaded (state h') = true ∧
  (completions h' = completions h ∨
   completions h' = S (completions h)) ∧
  ((∀ j, ref_committed env j = false) →
   completions h' = completions h) ∧
  ((∀ j, ref_committed env j = true) →
   pendingChunks (state h) ≠ [] →
   completions h' = S (completions h)).
Proof.
  revert k h. induction fuel as [|fuel IH]; intros k h Hp; simpl;
    rewrite Hp.
  - case_decide as Hlen; [|done]. intros [= <-].
    apply nil_length_inv in Hlen.
    split; [done|]. split; [by apply allUploaded_pending|].
    split; [by left|]. split; [done|]. intros _ Hne. done.
  - case_decide as Hlen.
    { intros [= <-]. apply nil_length_inv in Hlen.
      split; [done|]. split; [by apply allUploaded_pending|].
      split; [by left|]. split; [done|]. intros _ Hne. done. }
    assert (Hne : pendingChunks (state h) ≠ []).
    { intros Heq. apply Hlen. by rewrite Heq. }
    rewrite suspend_no_request.
    set (h2 := uploadAll env _ (log _ h)).
    assert (Hq : completions h2 = completions h ∧ isPausedRef h2 = false).
    { unfold h2.
      match goal with
      | |- context [uploadAll env ?cs ?h0] =>
          destruct (uploadAll_quiet env cs h0) as [-> ->]
      end.
      split; [by apply completions_log | done]. }
    destruct Hq as [Hc2 Hp2]. rewrite Hp2.
    destruct (ref_committed env k) eqn:Hrc.
    + destruct (allUploaded (state h2)) eqn:Hall.
      * intros [= <-]. split; [done|]. split; [done|].
        assert (Hc : completions (onComplete (setIsUploading false h2))
                     = S (completions h)).
        { rewrite completions_onComplete. f_equal. exact Hc2. }
        split; [by right|]. split; [|done].
        intros Hstale. rewrite Hstale in Hrc. done.
      * rewrite suspend_no_request. intros Hrun.
        destruct (IH _ _ Hp2 Hrun) as (Hp' & Hall' & Hb & Hs & Hc).
        rewrite Hc2 in Hb, Hs, Hc.
        split; [done|]. split; [done|]. split; [done|]. split; [done|].
        intros Hcommitted _. apply Hc; [done|].
        intros Hnil. apply allUploaded_pending in Hnil. congruence.
    + assert (Hstale : allUploaded (state h) = false).
      { destruct (allUploaded (state h)) eqn:Ha; [|done].
        apply allUploaded_pending in Ha. done. }
      rewrite Hstale, suspend_no_request. intros Hrun.
      destruct (IH _ _ Hp2 Hrun) as (Hp' & Hall' & Hb & Hs & Hc).
      rewrite Hc2 in Hb, Hs, Hc.
      split; [done|]. split; [done|]. split; [done|]. split; [done|].
      intros Hcommitted. rewrite Hcommitted in Hrc. done.
Qed.

(** A run that returns unpaused with every chunk uploaded calls
    [onComplete] once in the final check, after whatever the loop
    did. *)
Lemma startUpload_completions fuel h h' :
  is_Some (file h) →
  isUploading h && negb (isPaused h) = false →
  startUpload fuel env h = (true, h') →
  allUploaded (state h') = true →
  (completions h' = S (completions h) ∨
   completions h' = S (S (completions h))) ∧
  ((∀ j, ref_committed env j = false) →
   completions h' = S (completions h)) ∧
  ((∀ j, ref_committed env j = true) →
   pendingChunks (state h) ≠ [] →
   completions h' = S (S (completions h))).
Proof.
  intros [f Hf] Hguard. unfold startUpload. rewrite Hf, Hguard.
  set (h1 := setIsUploading true (setIsPaused false h)).
  destruct (dispatch_loop fuel env 0 h1) as [exited h2] eqn:Hloop.
  destruct exited; cbn [negb]; [|done].
  assert (Hp1 : isPausedRef h1 = false) by reflexivity.
  destruct (dispatch_loop_exit _ _ _ _ Hp1 Hloop)
    as (Hp2 & _ & Hb & Hs & Hc).
  rewrite Hp2. cbn [negb]. rewrite suspend_no_request.
  destruct (retryFailedChunks_quiet env (chunks (state h)) h2)
    as [Hcr Hpr].
  rewrite Hpr, Hp2. intros [= <-] Hall.
  assert (Hfinal : completions
            (finalCheck (retryFailedChunks env (chunks (state h)) h2))
          = S (completions h2)).
  { unfold finalCheck in *.
    destruct (allUploaded (state (retryFailedChunks env _ h2))) eqn:Ha.
    - rewrite completions_onComplete. f_equal. exact Hcr.
    - cbn in Hall. congruence. }
  rewrite Hfinal.
  change (completions h1) with (completions h) in *.
  change (state h1) with (state h) in *.
  split; [destruct Hb as [-> | ->]; eauto|].
  split; [intros Hst; by rewrite Hs|].
  intros Hco Hne. by rewrite Hc.
Qed.

End NoPause.

(** C1 (the code as it is).  A new five-chunk session, a file bound, all
    transfers succeed, no pause, and the ref shows the batch's outcomes
    at the check after the batch: the run returns with all five chunks
    uploaded and none failed, and [onComplete] has been called twice,
    once by the check inside the loop and once by the final check. *)
Theorem startUpload_completes_twice :
  let f := mkFile "data.bin" 5 in
  let s := handleFileSelect_with 1 f "upload_1" 0 0 in
  let env := mkEnv (λ _ _, true) (λ n, Z.of_nat n) (λ _, NoRequest)
               (λ _, true) in
  ∃ h0 h',
    useResumableUpload s (Some f) = Some h0 ∧
    startUpload 1 env h0 = (true, h') ∧
    length (chunks (state h')) = 5%nat ∧
    allUploaded (state h') = true ∧
    forallb (λ chunk, negb (failed chunk)) (chunks (state h')) = true ∧
    dispatched (trace h') = [0; 1; 2; 3; 4]%nat ∧
    completions h' = 2%nat.
Proof.
  intros f s env. eexists _, _.
  split; [vm_compute; reflexivity|].
  split; [vm_compute; reflexivity|].
  vm_compute. repeat split.
Qed.

(** The same run when the check after the batch still reads the ref as
    it was before the batch: the loop goes round once more, finds
    nothing pending, and only the final check notifies. *)
Lemma startUpload_completes_once_stale_ref :
  let f := mkFile "data.bin" 5 in
  let s := handleFileSelect_with 1 f "upload_1" 0 0 in
  let env := mkEnv (λ _ _, true) (λ n, Z.of_nat n) (λ _, NoRequest)
               (λ _, false) in
  ∃ h0 h',
    useResumableUpload s (Some f) = Some h0 ∧
    startUpload 1 env h0 = (true, h') ∧
    allUploaded (state h') = true ∧
    completions h' = 1%nat.
Proof.
  intros f s env. eexists _, _.
  split; [vm_compute; reflexivity|].
  split; [vm_compute; reflexivity|].
  vm_compute. repeat split.
Qed.

(** ** The scheduler only performs the chunk-table operations *)

Lemma reachable_uploadSingleChunk env i h :
  reachable (state h) → reachable (state (uploadSingleChunk env i h).2).
Proof.
  intros Hr. unfold uploadSingleChunk. cbn [file chunksRef log].
  destruct (file h); [|done]. destruct (chunksRef h !! i); [|done].
  destruct (uploadChunk env _ i); cbn [snd state setState];
    by constructor.
Qed.

Lemma reachable_uploadAll env cs h :
  reachable (state h) → reachable (state (uploadAll env cs h)).
Proof.
  revert h. unfold uploadAll. induction cs as [|c cs IH]; intros h Hr; [done|].
  simpl. apply IH. by apply reachable_uploadSingleChunk.
Qed.

Lemma reachable_suspend env p h :
  reachable (state h) → reachable (state (suspend env p h)).
Proof. unfold suspend. by destruct (user_request env p). Qed.

Lemma reachable_retryFailedChunks env rendered h :
  reachable (state h) → reachable (state (retryFailedChunks env rendered h)).
Proof.
  intros Hr. unfold retryFailedChunks. case_decide; [done|].
  apply reachable_uploadAll. cbn [state setState]. by constructor.
Qed.

Lemma reachable_dispatch_loop fuel env k h :
  reachable (state h) → reachable (state (dispatch_loop fuel env k h).2).
Proof.
  revert k h. induction fuel as [|fuel IH]; intros k h Hr; simpl.
  - destruct (isPausedRef h); [done|]. by case_decide.
  - destruct (isPausedRef h); [done|]. case_decide; [done|].
    set (h2 := uploadAll env _ (log _ h)).
    assert (H2 : reachable (state h2)) by (by apply reachable_uploadAll).
    assert (H3 : reachable (state (suspend env (AwaitBatch k) h2)))
      by (by apply reachable_suspend).
    destruct (isPausedRef (suspend env (AwaitBatch k) h2)); [done|].
    destruct (allUploaded _); [done|].
    apply IH. by apply reachable_suspend.
Qed.

Lemma reachable_startUpload fuel env h :
  reachable (state h) → reachable (state (startUpload fuel env h).2).
Proof.
  intros Hr. unfold startUpload. destruct (file h); [|done].
  destruct (isUploading h && negb (isPaused h)); [done|].
  set (h1 := setIsUploading true (setIsPaused false h)).
  pose proof (reachable_dispatch_loop fuel env 0 h1 Hr) as H2.
  destruct (dispatch_loop fuel env 0 h1) as [exited h2]. cbn [snd] in H2.
  destruct exited; cbn [negb]; [|exact H2].
  set (h3 := if negb (isPausedRef h2)
             then suspend env AwaitRetry
                    (retryFailedChunks env (chunks (state h)) h2)
             else h2).
  assert (H3 : reachable (state h3)).
  { unfold h3. destruct (negb (isPausedRef h2)); [|exact H2].
    by apply reachable_suspend, reachable_retryFailedChunks. }
  destruct (isPausedRef h3); [exact H3|]. cbn [snd].
  unfold finalCheck. by destruct (allUploaded (state h3)).
Qed.

(** Whatever is done with a hook mounted on a new session, its chunk
    table is one of the reachable ones. *)
Lemma hook_steps_reachable h0 h :
  reachable (state h0) → rtc hook_step h0 h → reachable (state h).
Proof.
  intros Hr0 Hrtc.
  induction Hrtc as [|h1 h2 h3 Hstep _ IH]; [done|]. apply IH.
  destruct Hstep as [fuel env h1|env h1|env i h1|h1|h1|f h1 h2 _ Hbind].
  - by apply reachable_startUpload.
  - by apply reachable_retryFailedChunks.
  - by apply reachable_uploadSingleChunk.
  - done.
  - done.
  - unfold bindFile in Hbind.
    destruct (splitFileIntoChunks f _); [|done].
    simpl in Hbind. by injection Hbind as <-.
Qed.

(** ** The retry pass of [startUpload] reads the rendered table

    A resumed session whose only chunk had failed once.  The loop
    transfers it (first transfer succeeds) and leaves with everything
    uploaded.  The retry pass after the loop selects its chunks from the
    table as it was when [startUpload] was called, where chunk 0 is
    still failed: it transfers chunk 0 a second time, and when that
    transfer fails the chunk is marked failed and no longer uploaded.
    The run ends without a notification and with a failed chunk. *)
Lemma startUpload_retry_pass_uses_rendered_table :
  let f := mkFile "data.bin" 1 in
  let s := mkUploadState "upload_1" "data.bin" 1 1 1
             [mkChunkStatus 0 false true 1] 0 0 in
  let env := mkEnv (λ n _, bool_decide (n = 0%nat)) (λ n, Z.of_nat n)
               (λ _, NoRequest) (λ _, false) in
  ∃ h0 h',
    useResumableUpload s (Some f) = Some h0 ∧
    startUpload 2 env h0 = (true, h') ∧
    transferred (trace h') = [0; 0]%nat ∧
    chunks (state h') = [mkChunkStatus 0 false true 2] ∧
    completions h' = 0%nat.
Proof.
  intros f s env. eexists _, _.
  split; [vm_compute; reflexivity|].
  split; [vm_compute; reflexivity|].
  vm_compute. repeat split.
Qed.

(** * Further properties of the code *)

(** ** The partitioner: where the ranges lie *)

Lemma split_loop_done fuel size chunk_size acc :
  split_loop fuel size chunk_size size acc = Some acc.
Proof. destruct fuel; simpl; by rewrite decide_False by lia. Qed.

Lemma split_loop_layout fuel size chunk_size (k : nat) blobs :
  0 < chunk_size → Z.of_nat k * chunk_size ≤ size →
  split_loop fuel size chunk_size (Z.of_nat k * chunk_size) [] = Some blobs →
  ∀ i b, blobs !! i = Some b →
    b = slice (Z.of_nat (k + i) * chunk_size)
          (Z.min (Z.of_nat (k + i + 1) * chunk_size) size).
Proof.
  intros Hc. revert k blobs.
  induction fuel as [|fuel IH]; intros k blobs Hk; simpl.
  - case_decide; [done|]. intros [= <-] i b Hb. done.
  - case_decide as Hlt; [|intros [= <-] i b Hb; done].
    rewrite split_loop_acc. simpl.
    destruct (decide (Z.of_nat k * chunk_size + chunk_size ≤ size))
      as [Hle|Hgt].
    + rewrite Z.min_l by lia.
      replace (Z.of_nat k * chunk_size + chunk_size)
        with (Z.of_nat (S k) * chunk_size) by lia.
      destruct (split_loop fuel size chunk_size _ []) as [bs|] eqn:Hbs;
        [|done].
      simpl. intros [= <-] [|i] b Hb; simpl in Hb.
      * injection Hb as <-. f_equal; [f_equal; lia|].
        rewrite Z.min_l by lia. lia.
      * rewrite (IH (S k) bs ltac:(lia) Hbs i b Hb).
        f_equal; [f_equal; lia|]. f_equal. f_equal. lia.
    + rewrite Z.min_r by lia. rewrite split_loop_done. simpl.
      intros [= <-] [|i] b Hb; simpl in Hb; [|done].
      injection Hb as <-. f_equal; [f_equal; lia|].
      rewrite Z.min_r by lia. done.
Qed.

(** X1.  For a byte length [L >= 0] and a chunk size [C > 0] the [i]-th
    range returned by [splitFileIntoChunks] is [i*C, min((i+1)*C, L)):
    the ranges start at byte 0, follow each other without gap or
    overlap, and the last one ends at [L]. *)
Theorem splitFileIntoChunks_layout (file : File) (chunk_size : Z) :
  0 ≤ file_size file → 0 < chunk_size →
  ∃ blobs,
    splitFileIntoChunks file chunk_size = Some blobs ∧
    (∀ i b, blobs !! i = Some b →
       blob_start b = Z.of_nat i * chunk_size ∧
       blob_end b = Z.min (Z.of_nat (i + 1) * chunk_size) (file_size file)) ∧
    (∀ i b b', blobs !! i = Some b → blobs !! S i = Some b' →
       blob_start b' = blob_end b) ∧
    (∀ b, last blobs = Some b → blob_end b = file_size file).
Proof.
  intros Hsize Hc.
  destruct (split_loop_spec (Z.to_nat (file_size file)) (file_size file)
              chunk_size 0) as (bs & Hbs & Hlen & _ & _); [lia..|].
  assert (Hlay : ∀ i b, bs !! i = Some b →
            b = slice (Z.of_nat i * chunk_size)
                  (Z.min (Z.of_nat (i + 1) * chunk_size) (file_size file))).
  { intros i b Hb.
    apply (split_loop_layout (Z.to_nat (file_size file)) (file_size file)
             chunk_size 0%nat bs Hc); [simpl; lia | exact Hbs | exact Hb]. }
  exists bs. split; [exact Hbs|]. split; [|split].
  - intros i b Hb. by rewrite (Hlay i b Hb).
  - intros i b b' Hb Hb'. rewrite (Hlay _ _ Hb), (Hlay _ _ Hb'). simpl.
    apply lookup_lt_Some in Hb'.
    assert (Hq : Z.of_nat (S (S i)) ≤ Math_ceil_div (file_size file - 0)
                                      chunk_size) by lia.
    unfold Math_ceil_div in Hq.
    pose proof (Z.div_mod (- (file_size file - 0)) chunk_size).
    pose proof (Z.mod_pos_bound (- (file_size file - 0)) chunk_size).
    rewrite Z.min_l by nia. lia.
  - intros b Hlast. rewrite last_lookup in Hlast.
    destruct bs as [|b0 bs']; [done|].
    rewrite (Hlay _ _ Hlast). simpl blob_end. simpl length in *.
    unfold Math_ceil_div in Hlen.
    pose proof (Z.div_mod (- (file_size file - 0)) chunk_size).
    pose proof (Z.mod_pos_bound (- (file_size file - 0)) chunk_size).
    rewrite Z.min_r; [done|]. simpl Nat.pred. nia.
Qed.

Lemma splitFileIntoChunks_layout_example :
  0 ≤ 10 ∧ 0 < 4 ∧
  ∃ blobs,
    splitFileIntoChunks (mkFile "a.bin" 10) 4 = Some blobs ∧
    ∀ b, blobs !! 2%nat = Some b → blob_start b = 8 ∧ blob_end b = 10.
Proof.
  split; [lia|]. split; [lia|].
  destruct (splitFileIntoChunks_layout (mkFile "a.bin" 10) 4)
    as (blobs & Heq & Hlay & _); [simpl; lia | lia |].
  exists blobs. split; [exact Heq|]. intros b Hb.
  destruct (Hlay 2%nat b Hb) as [-> ->]. split; reflexivity.
Defined.

(** ** Session creation and the partitioner agree on non-empty files *)

Lemma splitFileIntoChunks_size_only f f' chunk_size :
  file_size f' = file_size f →
  splitFileIntoChunks f' chunk_size = splitFileIntoChunks f chunk_size.
Proof. intros Heq. unfold splitFileIntoChunks. by rewrite Heq. Qed.

Lemma guard_passes_covered h i :
  covered h → (i < length (chunks (state h)))%nat → guard_passes h i = true.
Proof.
  intros [[f Hf] Hlen] Hi. unfold guard_passes. rewrite Hf.
  destruct (lookup_lt_is_Some_2 (chunksRef h) i) as [b ->]; [lia|done].
Qed.

(** X2.  For a non-empty file, the session that [handleFileSelect]
    creates has exactly as many chunk records as [splitFileIntoChunks]
    makes blobs for the file: the mounted hook has a blob for every
    record, so no [uploadSingleChunk] stops at its guard.  All records
    are pending.  Binding another file of the recorded name and size
    later gives the same ranges. *)
Theorem handleFileSelect_covers (chunk_size : Z) (f : File) (uid : string)
    (t1 t2 : Z) :
  0 < file_size f → 0 < chunk_size →
  let s := handleFileSelect_with chunk_size f uid t1 t2 in
  ∃ h,
    useResumableUpload s (Some f) = Some h ∧
    Z.of_nat (length (chunks s)) = Math_ceil_div (file_size f) chunk_size ∧
    length (chunksRef h) = length (chunks (state h)) ∧
    (∀ i, (i < length (chunks (state h)))%nat → guard_passes h i = true) ∧
    pendingChunks (state h) = chunks (state h) ∧
    ∀ f' h', validFile (state h) f' → bindFile f' h = Some h' →
             chunksRef h' = chunksRef h ∧ state h' = state h.
Proof.
  intros Hsize Hc s.
  destruct (split_loop_spec (Z.to_nat (file_size f)) (file_size f)
              chunk_size 0) as (bs & Hbs & Hlen & _ & _); [lia..|].
  rewrite Z.sub_0_r in Hlen.
  assert (Hsplit : splitFileIntoChunks f chunk_size = Some bs) by exact Hbs.
  assert (Hcount : length (chunks s) = length bs).
  { unfold s, handleFileSelect_with. rewrite createUploadState_length.
    unfold countChunks. rewrite decide_False by lia. rewrite <- Hlen. lia. }
  exists (mkHook (Some f) bs s false false false 0 []).
  split.
  { unfold useResumableUpload.
    change (chunkSize s) with chunk_size. by rewrite Hsplit. }
  split; [by rewrite Hcount|].
  split; [cbn [chunksRef state]; by rewrite Hcount|]. split.
  { intros i Hi. apply guard_passes_covered; [|done].
    split; [by eexists|]. cbn [chunksRef state]. lia. }
  split.
  { unfold pendingChunks. apply filter_all. apply Forall_lookup.
    intros i c Hi. simpl in Hi.
    by apply createUploadState_lookup in Hi as ->. }
  intros f' h' [_ Hfsize] Hbind. unfold bindFile in Hbind.
  cbn [state chunkSize] in Hbind.
  change (chunkSize s) with chunk_size in Hbind.
  rewrite (splitFileIntoChunks_size_only f f') in Hbind by exact Hfsize.
  rewrite Hsplit in Hbind. simpl in Hbind. by injection Hbind as <-.
Qed.

Lemma handleFileSelect_covers_example :
  let f := mkFile "model.bin" (3 * CHUNK_SIZE + 7) in
  0 < file_size f ∧ 0 < CHUNK_SIZE ∧
  ∃ h,
    useResumableUpload (handleFileSelect f "u" 0 0) (Some f) = Some h ∧
    length (chunks (state h)) = 4%nat ∧
    length (chunksRef h) = 4%nat.
Proof.
  intros f. split; [reflexivity|]. split; [reflexivity|].
  destruct (handleFileSelect_covers CHUNK_SIZE f "u" 0 0)
    as (h & Hmount & Hcount & Hlen & _); [reflexivity..|].
  exists h. split; [exact Hmount|].
  assert (Hfour : length (chunks (handleFileSelect f "u" 0 0)) = 4%nat)
    by reflexivity.
  assert (Hs : state h = handleFileSelect f "u" 0 0).
  { unfold useResumableUpload in Hmount.
    destruct (splitFileIntoChunks f _); [|done].
    simpl in Hmount. by injection Hmount as <-. }
  rewrite Hlen, Hs. split; exact Hfour.
Defined.

(** ** The store: deleting and listing *)

Lemma prefix_append p x : String.prefix p (p +:+ x) = true.
Proof.
  induction p as [|a p IH]; simpl; [by destruct x|].
  destruct (Ascii.ascii_dec a a); [exact IH|done].
Qed.

Lemma storage_key_prefixed id :
  String.prefix STORAGE_PREFIX (storage_key id) = true.
Proof. apply prefix_append. Qed.

Lemma storage_key_nonempty id : storage_key id ≠ "".
Proof. done. Qed.

(** X3.  [deleteUploadState] always completes normally.  On an
    accessible store it removes the snapshot of that id and nothing
    else: a later load of the id returns null, loads of other ids are
    as before, and deleting an id that has no snapshot leaves the store
    as it is.  On a store that cannot be accessed it changes nothing. *)
Theorem deleteUploadState_spec `{JSON} (st : Storage) (id : string) :
  ∃ st',
    deleteUploadState st id = Normal st' ∧
    (accessible st = false → st' = st) ∧
    (accessible st = true →
       loadUploadState st' id = Normal None ∧
       (∀ id', id' ≠ id →
          loadUploadState st' id' = loadUploadState st id') ∧
       (∀ key, key ≠ storage_key id →
          items st' !! key = items st !! key) ∧
       (items st !! storage_key id = None → items st' = items st)).
Proof.
  unfold deleteUploadState, try_catch, removeItem.
  destruct (accessible st) eqn:Hacc; cbn.
  - eexists. split; [done|]. split; [done|]. intros _.
    split; [|split; [|split]].
    + rewrite loadUploadState_unfold by done. cbn [items].
      by rewrite lookup_delete_eq.
    + intros id' Hne. rewrite !loadUploadState_unfold by done. cbn [items].
      rewrite lookup_delete_ne; [done|].
      intros Heq. by apply storage_key_inj in Heq.
    + intros key Hne. cbn [items]. by rewrite lookup_delete_ne.
    + intros Hnone. cbn [items]. by apply delete_id.
  - exists st. split; [done|]. split; [done|]. done.
Qed.

Lemma deleteUploadState_spec_example :
  let st := mkStorage true (λ _ _, true)
              {[storage_key "u1" := sample_text]} in
  accessible st = true ∧
  @loadUploadState sample_JSON st "u1" = Normal (Some sample_state) ∧
  ∃ st',
    deleteUploadState st "u1" = Normal st' ∧
    @loadUploadState sample_JSON st' "u1" = Normal None.
Proof.
  intros st. split; [reflexivity|]. split; [reflexivity|].
  destruct (@deleteUploadState_spec sample_JSON st "u1")
    as (st' & Hdel & _ & Hacc).
  exists st'. split; [exact Hdel|]. apply Hacc. reflexivity.
Defined.

Lemma getAll_loop_clean `{JSON} st keys states :
  accessible st = true →
  Forall (λ key, ¬ corrupt st key) keys →
  getAll_loop st keys states = (states ++ omap (listed st) keys, Normal ()).
Proof.
  intros Hacc Hall. revert states.
  induction Hall as [|key keys Hkey _ IH]; intros states; simpl.
  - by rewrite app_nil_r.
  - unfold getItem, listed. rewrite Hacc.
    destruct (negb (bool_decide (key = "")) && String.prefix _ key)
      eqn:Hfam; [|apply IH].
    destruct (items st !! key) as [data|] eqn:Hdata; [|apply IH].
    destruct (decide (data = "")) as [Hempty|Hempty]; [apply IH|].
    destruct (JSON_parse data) as [v|e] eqn:Hparse.
    + rewrite IH. by rewrite <- app_assoc.
    + exfalso. apply Hkey. apply andb_true_iff in Hfam as [Hne Hpre].
      apply negb_true_iff, bool_decide_eq_false in Hne.
      split; [done|]. split; [done|]. eauto.
Qed.

Lemma getAll_loop_cut `{JSON} st before key after states :
  accessible st = true →
  Forall (λ key, ¬ corrupt st key) before →
  corrupt st key →
  (getAll_loop st (before ++ key :: after) states).1
  = states ++ omap (listed st) before.
Proof.
  intros Hacc Hall (Hne & Hpre & data & e & Hdata & Hempty & Hparse).
  revert states.
  induction Hall as [|k keys Hk _ IH]; intros states; simpl.
  - unfold getItem. rewrite Hacc, Hpre, Hdata.
    rewrite bool_decide_eq_false_2 by done. simpl.
    rewrite decide_False by done. rewrite Hparse. simpl.
    by rewrite app_nil_r.
  - unfold getItem, listed. rewrite Hacc.
    destruct (negb (bool_decide (k = "")) && String.prefix _ k)
      eqn:Hfam; [|apply IH].
    destruct (items st !! k) as [d|] eqn:Hd; [|apply IH].
    destruct (decide (d = "")) as [Hemp|Hemp]; [apply IH|].
    destruct (JSON_parse d) as [v|e'] eqn:Hp.
    + rewrite IH. by rewrite <- app_assoc.
    + exfalso. apply Hk. apply andb_true_iff in Hfam as [Hn Hpr].
      apply negb_true_iff, bool_decide_eq_false in Hn.
      split; [done|]. split; [done|]. eauto.
Qed.

(** X4.  [getAllUploadStates] returns, in the browser's key order, the
    parsed value of every non-empty entry whose key starts with
    [upload_state_], and ignores every other key, as long as no such
    entry fails to parse.  The first entry that fails to parse ends the
    listing: the result holds the entries enumerated before it and none
    of the ones after.  On a store that cannot be accessed the result
    is empty. *)
Theorem getAllUploadStates_spec `{JSON} (st : Storage)
    (enumeration : list string) :
  (accessible st = false → getAllUploadStates st enumeration = []) ∧
  (accessible st = true →
     Forall (λ key, ¬ corrupt st key) enumeration →
     getAllUploadStates st enumeration = omap (listed st) enumeration ∧
     ∀ id data value,
       storage_key id ∈ enumeration →
       items st !! storage_key id = Some data → data ≠ "" →
       JSON_parse data = Normal value →
       value ∈ getAllUploadStates st enumeration) ∧
  (accessible st = true →
     ∀ before key after,
       enumeration = before ++ key :: after →
       Forall (λ key, ¬ corrupt st key) before →
       corrupt st key →
       getAllUploadStates st enumeration = omap (listed st) before).
Proof.
  unfold getAllUploadStates. split; [by intros ->|]. split.
  - intros Hacc Hclean. rewrite Hacc.
    rewrite getAll_loop_clean by done. simpl. split; [done|].
    intros id data value Hin Hdata Hne Hparse.
    apply list_elem_of_omap. exists (storage_key id). split; [done|].
    unfold listed. rewrite storage_key_prefixed, Hdata.
    rewrite bool_decide_eq_false_2 by apply storage_key_nonempty.
    simpl. rewrite decide_False by done. by rewrite Hparse.
  - intros Hacc before key after -> Hclean Hcorrupt. rewrite Hacc.
    by rewrite getAll_loop_cut.
Qed.

Lemma getAllUploadStates_spec_example :
  let st := mkStorage true (λ _ _, true)
              {[storage_key "u1" := sample_text; "other_key" := "value"]} in
  let enumeration := ["other_key"; storage_key "u1"] in
  accessible st = true ∧
  Forall (λ key, ¬ @corrupt sample_JSON st key) enumeration ∧
  @getAllUploadStates sample_JSON st enumeration = [Some sample_state].
Proof.
  intros st enumeration.
  assert (Hclean : Forall (λ key, ¬ @corrupt sample_JSON st key) enumeration).
  { repeat constructor.
    - intros (_ & Hpre & _). discriminate.
    - intros (_ & _ & data & e & Hdata & _ & Hparse).
      vm_compute in Hdata. injection Hdata as <-. discriminate. }
  split; [reflexivity|]. split; [exact Hclean|].
  destruct (@getAllUploadStates_spec sample_JSON st enumeration)
    as (_ & Hok & _).
  destruct (Hok eq_refl Hclean) as [-> _]. reflexivity.
Defined.

Lemma omap_ext_in {A B} (f g : A → option B) (l : list A) :
  (∀ x, x ∈ l → f x = g x) → omap f l = omap g l.
Proof.
  induction l as [|x l IH]; intros Hfg; [done|].
  cbn [omap list_omap]. rewrite (Hfg x) by (by left).
  rewrite IH; [done|]. intros y Hy. apply Hfg. by right.
Qed.

Lemma listed_other_key `{JSON} st st' key :
  items st' !! key = items st !! key → listed st' key = listed st key.
Proof. intros Heq. unfold listed. by rewrite Heq. Qed.

(** X5.  Saving, listing and deleting compose.  After a save that the
    store accepted (and whose text parses back), the session is in the
    listing of the new store whenever no entry is corrupt.  After a
    delete, the key of the deleted id is no longer enumerated, and the
    listing is what the listing of the other keys was before. *)
Theorem save_delete_list `{JSON} (st : Storage) (id : string) :
  (∀ s st1 enumeration,
     setItem st (storage_key id) (JSON_stringify s) = Normal st1 →
     JSON_stringify s ≠ "" →
     JSON_parse (JSON_stringify s) = Normal (Some s) →
     enumerates st1 enumeration →
     Forall (λ key, ¬ corrupt st1 key) enumeration →
     saveUploadState st id s = Normal st1 ∧
     Some s ∈ getAllUploadStates st1 enumeration) ∧
  (∀ st' enumeration,
     accessible st = true →
     deleteUploadState st id = Normal st' →
     enumerates st' enumeration →
     (storage_key id ∉ enumeration) ∧
     (Forall (λ key, ¬ corrupt st key) enumeration →
      getAllUploadStates st' enumeration = omap (listed st) enumeration)).
Proof.
  split.
  - intros s st1 enumeration Hset Hne Hparse [_ Henum] Hclean.
    assert (Hsave : saveUploadState st id s = Normal st1).
    { unfold saveUploadState, try_catch. simpl. by rewrite Hset. }
    split; [exact Hsave|].
    unfold setItem in Hset.
    destruct (accessible st) eqn:Hacc; [|done].
    destruct (has_room st _ _); [|done]. injection Hset as <-.
    destruct (getAllUploadStates_spec
                (mkStorage true (has_room st)
                   (<[storage_key id := JSON_stringify s]> (items st)))
                enumeration) as (_ & Hok & _).
    destruct (Hok eq_refl Hclean) as [_ Hin].
    apply (Hin id (JSON_stringify s)); [|by apply lookup_insert_eq|done..].
    apply Henum. cbn [items]. rewrite lookup_insert_eq. eauto.
  - intros st' enumeration Hacc Hdel [_ Henum].
    unfold deleteUploadState, try_catch, removeItem in Hdel.
    rewrite Hacc in Hdel. cbn in Hdel. injection Hdel as <-.
    assert (Hgone : storage_key id ∉ enumeration).
    { intros Hin. apply Henum in Hin as [x Hx]. cbn [items] in Hx.
      by rewrite lookup_delete_eq in Hx. }
    split; [exact Hgone|]. intros Hclean.
    set (st' := mkStorage true (has_room st)
                  (delete (storage_key id) (items st))).
    assert (Hsame : ∀ key, key ∈ enumeration →
                           listed st' key = listed st key).
    { intros key Hin. apply listed_other_key. unfold st'. cbn [items].
      apply lookup_delete_ne. intros <-. done. }
    assert (Hclean' : Forall (λ key, ¬ corrupt st' key) enumeration).
    { rewrite Forall_forall in Hclean |- *. intros key Hin Hcor.
      apply (Hclean key Hin).
      destruct Hcor as (Hne & Hpre & data & e & Hdata & Hemp & Hparse).
      split; [done|]. split; [done|]. exists data, e.
      split; [|done]. unfold st' in Hdata. cbn [items] in Hdata.
      rewrite lookup_delete_ne in Hdata; [done|]. intros <-. done. }
    destruct (getAllUploadStates_spec st' enumeration) as (_ & Hok & _).
    destruct (Hok eq_refl Hclean') as [-> _].
    by apply omap_ext_in.
Qed.

Lemma save_delete_list_example :
  let st := mkStorage true (λ _ _, true) ∅ in
  let st1 := mkStorage true (λ _ _, true)
               {[storage_key "u1" := sample_text]} in
  @setItem st (storage_key "u1") sample_text = Normal st1 ∧
  enumerates st1 [storage_key "u1"] ∧
  Some sample_state ∈ @getAllUploadStates sample_JSON st1 [storage_key "u1"].
Proof.
  intros st st1.
  assert (Hset : setItem st (storage_key "u1") sample_text = Normal st1)
    by reflexivity.
  assert (Henum : enumerates st1 [storage_key "u1"]).
  { split; [apply NoDup_singleton|]. intros key. split.
    - intros Hin. apply list_elem_of_singleton in Hin as ->.
      by eexists.
    - intros [x Hx]. apply list_elem_of_singleton.
      destruct (decide (key = storage_key "u1")) as [->|Hne]; [done|].
      cbn [items st1] in Hx. by rewrite lookup_singleton_ne in Hx. }
  split; [exact Hset|]. split; [exact Henum|].
  destruct (@save_delete_list sample_JSON st "u1") as [Hsave _].
  apply (Hsave sample_state st1 [storage_key "u1"]);
    [exact Hset | discriminate | reflexivity | exact Henum |].
  repeat constructor. intros (_ & _ & data & e & Hdata & _ & Hparse).
  vm_compute in Hdata. injection Hdata as <-. discriminate.
Defined.

(** ** The speed setting *)

(** X6.  [getUploadSpeed] answers with the stored name when it is one of
    the four tiers, and with [verySlow] when nothing is stored, when the
    stored text is empty, and when it is neither a tier nor a name the
    tier table inherits; whatever it answers is a tier or an inherited
    name.  A [setUploadSpeed] with a tier that the store accepts is read
    back by [getUploadSpeed].  [setUploadSpeed] does not catch: when the
    store rejects the write the exception reaches the caller, with
    [currentSpeed] already changed and the stored speed as before.  Both
    functions throw on a store that cannot be accessed. *)
Theorem uploadSpeed_spec (inherited : list string) (st : Storage) :
  (accessible st = true →
     (items st !! "uploadSpeed" = None →
        getUploadSpeed inherited st = Normal "verySlow") ∧
     (∀ name, items st !! "uploadSpeed" = Some name →
        name ∈ UPLOAD_SPEEDS.*1 →
        getUploadSpeed inherited st = Normal name) ∧
     (∀ name, items st !! "uploadSpeed" = Some name →
        name ∉ UPLOAD_SPEEDS.*1 → name ∉ inherited →
        getUploadSpeed inherited st = Normal "verySlow") ∧
     (∀ answer, getUploadSpeed inherited st = Normal answer →
        answer ∈ UPLOAD_SPEEDS.*1 ∨ answer ∈ inherited)) ∧
  (∀ speed st', speed ∈ UPLOAD_SPEEDS.*1 →
     setUploadSpeed st speed = (speed, Normal st') →
     getUploadSpeed inherited st' = Normal speed) ∧
  (∀ speed, (setUploadSpeed st speed).1 = speed ∧
     (accessible st = true → has_room st "uploadSpeed" speed = false →
      (setUploadSpeed st speed).2 = Throw "QuotaExceededError")) ∧
  (accessible st = false →
     getUploadSpeed inherited st = Throw "SecurityError" ∧
     ∀ speed, (setUploadSpeed st speed).2 = Throw "SecurityError").
Proof.
  assert (Htier : ∀ name, name ∈ UPLOAD_SPEEDS.*1 → name ≠ "").
  { intros name Hin ->. vm_compute in Hin.
    repeat (apply elem_of_cons in Hin as [Hin|Hin]; [done|]).
    by apply elem_of_nil in Hin. }
  split; [|split; [|split]].
  - intros Hacc. unfold getUploadSpeed, getItem. rewrite Hacc. cbn.
    split; [by intros ->|]. split; [|split].
    + intros name -> Hin. unfold in_UPLOAD_SPEEDS.
      rewrite bool_decide_eq_false_2 by (by apply Htier).
      by rewrite (bool_decide_eq_true_2 _ Hin).
    + intros name -> Hno Hno'. unfold in_UPLOAD_SPEEDS.
      rewrite (bool_decide_eq_false_2 (name ∈ UPLOAD_SPEEDS.*1)) by done.
      rewrite (bool_decide_eq_false_2 (name ∈ inherited)) by done.
      by rewrite andb_false_r.
    + intros answer. destruct (items st !! "uploadSpeed") as [name|].
      * destruct (negb _ && in_UPLOAD_SPEEDS inherited name) eqn:Hin.
        -- intros [= <-]. apply andb_true_iff in Hin as [_ Hin].
           unfold in_UPLOAD_SPEEDS in Hin.
           apply orb_true_iff in Hin as [Hin|Hin];
             apply bool_decide_eq_true in Hin; eauto.
        -- intros [= <-]. left. vm_compute. set_solver.
      * intros [= <-]. left. vm_compute. set_solver.
  - intros speed st' Hin. unfold setUploadSpeed, setItem.
    destruct (accessible st) eqn:Hacc; [|done].
    destruct (has_room st _ _); [|done]. intros [= <-].
    unfold getUploadSpeed, getItem. cbn. rewrite lookup_insert_eq.
    unfold in_UPLOAD_SPEEDS.
    rewrite bool_decide_eq_false_2 by (by apply Htier).
    by rewrite (bool_decide_eq_true_2 _ Hin).
  - intros speed. split; [done|]. intros Hacc Hroom.
    unfold setUploadSpeed, setItem. cbn. by rewrite Hacc, Hroom.
  - intros Hacc. unfold getUploadSpeed, setUploadSpeed, getItem, setItem.
    rewrite Hacc. done.
Qed.

Lemma uploadSpeed_spec_example :
  let st := mkStorage true (λ _ _, true) {["uploadSpeed" := "turbo"]} in
  accessible st = true ∧
  getUploadSpeed ["toString"] st = Normal "verySlow" ∧
  ∃ st',
    setUploadSpeed st "fast" = ("fast", Normal st') ∧
    getUploadSpeed ["toString"] st' = Normal "fast".
Proof.
  intros st.
  destruct (uploadSpeed_spec ["toString"] st) as (Hget & Hset & _ & _).
  destruct (Hget eq_refl) as (_ & _ & Hunknown & _).
  split; [reflexivity|]. split.
  - apply (Hunknown "turbo"); [reflexivity| |].
    + vm_compute. intros Hin.
      repeat (apply elem_of_cons in Hin as [Hin|Hin]; [done|]).
      by apply elem_of_nil in Hin.
    + intros Hin. apply list_elem_of_singleton in Hin. done.
  - eexists. split; [reflexivity|]. apply Hset; [|reflexivity].
    vm_compute. constructor.
Defined.

(** ** Runs with a transfer client of constant outcome *)

Lemma updateChunkStatus_table s i u f now :
  chunks (updateChunkStatus s i u f now) = table_update (chunks s) i u f.
Proof. reflexivity. Qed.

Lemma table_update_length cs i u f :
  length (table_update cs i u f) = length cs.
Proof.
  unfold table_update. destruct (cs !! i); [by rewrite length_insert|done].
Qed.

Lemma table_update_lookup cs i j u f :
  table_update cs i u f !! j
  = if decide (i = j) then transition u f <$> cs !! j else cs !! j.
Proof.
  unfold table_update. case_decide as Hij.
  - subst j. destruct (cs !! i) as [c|] eqn:Hc; simpl.
    + rewrite list_lookup_insert_eq; [done|]. by eapply lookup_lt_Some.
    + by rewrite Hc.
  - destruct (cs !! i); [by rewrite list_lookup_insert_ne|done].
Qed.

Lemma filter_ext_in {A} (P Q : A → Prop) `{∀ x, Decision (P x)}
    `{∀ x, Decision (Q x)} (l : list A) :
  (∀ x, x ∈ l → P x ↔ Q x) → filter P l = filter Q l.
Proof.
  induction l as [|x l IH]; intros Hpq; [done|].
  rewrite !filter_cons.
  rewrite IH by (intros y Hy; apply Hpq; by right).
  destruct (decide (P x)) as [Hp|Hp].
  - rewrite decide_True; [done|]. apply Hpq; [by left|done].
  - rewrite decide_False; [done|]. intros Hq. apply Hp.
    apply Hpq; [by left|done].
Qed.

Lemma filter_notin_take {A} `{EqDecision A} n (l : list A) :
  NoDup l → filter (λ x, x ∉ take n l) l = drop n l.
Proof.
  revert n. induction l as [|x l IH]; intros n Hnd; [by destruct n|].
  apply NoDup_cons in Hnd as [Hx Hnd].
  destruct n as [|n]; simpl take; simpl drop.
  - apply filter_all. apply Forall_forall. intros y _. apply not_elem_of_nil.
  - rewrite filter_cons, decide_False by (intros Hn; apply Hn; by left).
    rewrite <- (IH n Hnd). apply filter_ext_in. intros y Hy. split.
    + intros Hn Hin. apply Hn. by right.
    + intros Hn Hin. apply elem_of_cons in Hin as [->|Hin]; done.
Qed.

Lemma pending_indices_NoDup cs : NoDup (pending_indices cs).
Proof. apply NoDup_filter, NoDup_seq. Qed.

Lemma pendingChunks_length s :
  well_indexed (chunks s) →
  length (pendingChunks s) = length (pending_indices (chunks s)).
Proof.
  intros Hwf. rewrite <- (length_fmap chunkIndex). f_equal.
  apply (pendingChunks_indices_from [] (chunks s)). exact Hwf.
Qed.

(** The table after outcomes [(u, f)] for the positions [idxs]. *)
Lemma foldl_table_update_lookup cs idxs u f j :
  NoDup idxs →
  foldl (λ t i, table_update t i u f) cs idxs !! j
  = if decide (j ∈ idxs) then transition u f <$> cs !! j else cs !! j.
Proof.
  revert cs. induction idxs as [|i idxs IH]; intros cs Hnd; cbn [foldl].
  - destruct (decide (j ∈ [])) as [Hin|_]; [|done].
    by apply elem_of_nil in Hin.
  - apply NoDup_cons in Hnd as [Hi Hnd]. rewrite IH by done.
    rewrite table_update_lookup.
    destruct (decide (j ∈ idxs)) as [Hin|Hin];
      destruct (decide (i = j)) as [Hij|Hij];
      destruct (decide (j ∈ i :: idxs)) as [Hc|Hc]; subst; try done;
      exfalso;
      first [ apply Hc; by left
            | apply Hc; by right
            | apply elem_of_cons in Hc as [Hc|Hc]; done ].
Qed.

Lemma foldl_table_update_length cs idxs u f :
  length (foldl (λ t i, table_update t i u f) cs idxs) = length cs.
Proof.
  revert cs. induction idxs as [|i idxs IH]; intros cs; simpl; [done|].
  by rewrite IH, table_update_length.
Qed.

Lemma uploadSingleChunk_constant env b i h :
  constant_client env b → guard_passes h i = true →
  let h' := (uploadSingleChunk env i h).2 in
  chunks (state h') = table_update (chunks (state h)) i b (negb b) ∧
  file h' = file h ∧ chunksRef h' = chunksRef h ∧
  isUploading h' = isUploading h ∧ isPaused h' = isPaused h ∧
  isPausedRef h' = isPausedRef h.
Proof.
  intros Hconst Hguard. cbv zeta. revert Hguard.
  unfold uploadSingleChunk, guard_passes. cbn [file chunksRef log].
  destruct (file h) eqn:Hf; [|done].
  destruct (chunksRef h !! i) eqn:Hb; [|done].
  intros _. rewrite Hconst. by destruct b.
Qed.

Lemma uploadAll_constant env b cs h :
  constant_client env b →
  Forall (λ c, guard_passes h (chunkIndex c) = true) cs →
  let h' := uploadAll env cs h in
  chunks (state h')
  = foldl (λ t i, table_update t i b (negb b)) (chunks (state h))
      (chunkIndex <$> cs) ∧
  file h' = file h ∧ chunksRef h' = chunksRef h ∧
  isUploading h' = isUploading h ∧ isPaused h' = isPaused h ∧
  isPausedRef h' = isPausedRef h.
Proof.
  intros Hconst Hall. cbv zeta. revert h Hall. unfold uploadAll.
  induction cs as [|c cs IH]; intros h Hall; [done|].
  apply Forall_cons in Hall as [Hc Hall]. simpl.
  destruct (uploadSingleChunk_constant env b (chunkIndex c) h Hconst Hc)
    as (Ht & Hf & Hr & Hu & Hp & Hpr).
  destruct (IH (uploadSingleChunk env (chunkIndex c) h).2)
    as (Ht' & Hf' & Hr' & Hu' & Hp' & Hpr').
  { eapply Forall_impl; [exact Hall|]. intros c' Hc'. simpl in *.
    unfold guard_passes in *. by rewrite Hf, Hr. }
  rewrite Ht', Ht, Hf', Hf, Hr', Hr, Hu', Hu, Hp', Hp, Hpr', Hpr. done.
Qed.

Lemma NoDup_take_pending cs n : NoDup (take n (pending_indices cs)).
Proof.
  eapply sublist_NoDup; [apply pending_indices_NoDup|apply sublist_take].
Qed.

Lemma pending_chunk_guard h c :
  covered h → well_indexed (chunks (state h)) →
  c ∈ chunks (state h) → guard_passes h (chunkIndex c) = true.
Proof.
  intros Hcov Hwf Hin. apply list_elem_of_lookup in Hin as [i Hi].
  rewrite (Hwf _ _ Hi). apply guard_passes_covered; [done|].
  by eapply lookup_lt_Some.
Qed.

(** One batch of the loop under a client of constant outcome [b]: the
    records at the first [MAX_PARALLEL_UPLOADS] pending positions make
    the transition of that outcome, every other record is as before. *)
Lemma batch_constant env b h e :
  constant_client env b → covered h → well_indexed (chunks (state h)) →
  let batch := take MAX_PARALLEL_UPLOADS (pendingChunks (state h)) in
  let h2 := uploadAll env batch (log e h) in
  (∀ j, chunks (state h2) !! j
        = if decide (j ∈ take MAX_PARALLEL_UPLOADS
                           (pending_indices (chunks (state h))))
          then transition b (negb b) <$> chunks (state h) !! j
          else chunks (state h) !! j) ∧
  length (chunks (state h2)) = length (chunks (state h)) ∧
  file h2 = file h ∧ chunksRef h2 = chunksRef h ∧
  isUploading h2 = isUploading h ∧ isPaused h2 = isPaused h ∧
  isPausedRef h2 = isPausedRef h.
Proof.
  intros Hconst Hcov Hwf batch h2.
  destruct (uploadAll_constant env b batch (log e h) Hconst)
    as (Ht & Hf & Hr & Hu & Hp & Hpr).
  { apply Forall_forall. intros c Hc.
    apply (pending_chunk_guard (log e h)); [done|done|].
    apply (subseteq_take MAX_PARALLEL_UPLOADS) in Hc.
    by apply list_elem_of_filter in Hc as [_ Hc]. }
  fold h2 in Ht, Hf, Hr, Hu, Hp, Hpr.
  unfold batch in Ht. rewrite (batch_indices (state h) Hwf) in Ht.
  cbn [state log] in Ht.
  split.
  { intros j. rewrite Ht. apply foldl_table_update_lookup.
    apply NoDup_take_pending. }
  split; [by rewrite Ht, foldl_table_update_length|]. done.
Qed.

Lemma well_indexed_pointwise cs cs' :
  well_indexed cs →
  (∀ j c', cs' !! j = Some c' →
           ∃ c, cs !! j = Some c ∧ chunkIndex c' = chunkIndex c) →
  well_indexed cs'.
Proof.
  intros Hwf Hrel j c' Hc'. destruct (Hrel j c' Hc') as (c & Hc & ->).
  by apply Hwf.
Qed.

Lemma batch_constant_well_indexed env b h e :
  constant_client env b → covered h → well_indexed (chunks (state h)) →
  well_indexed
    (chunks (state (uploadAll env
                      (take MAX_PARALLEL_UPLOADS (pendingChunks (state h)))
                      (log e h)))).
Proof.
  intros Hconst Hcov Hwf.
  destruct (batch_constant env b h e Hconst Hcov Hwf) as (Hlk & _).
  apply (well_indexed_pointwise (chunks (state h))); [done|].
  intros j c'. rewrite Hlk. case_decide.
  - destruct (chunks (state h) !! j) as [c|]; [|done].
    simpl. intros [= <-]. eauto.
  - eauto.
Qed.

Lemma pending_after_batch b cs cs' :
  length cs' = length cs →
  (∀ j, cs' !! j
        = if decide (j ∈ take MAX_PARALLEL_UPLOADS (pending_indices cs))
          then transition b (negb b) <$> cs !! j
          else cs !! j) →
  pending_indices cs'
  = if b then drop MAX_PARALLEL_UPLOADS (pending_indices cs)
    else pending_indices cs.
Proof.
  intros Hlen Hlk.
  assert (Hat : ∀ j,
    pending_at cs' j = true ↔
    if b then (j ∉ take MAX_PARALLEL_UPLOADS (pending_indices cs))
              ∧ pending_at cs j = true
    else pending_at cs j = true).
  { intros j. unfold pending_at at 1. rewrite Hlk.
    destruct (decide (j ∈ take MAX_PARALLEL_UPLOADS (pending_indices cs)))
      as [Hin|Hin].
    - pose proof Hin as Hin'.
      apply (subseteq_take MAX_PARALLEL_UPLOADS) in Hin'.
      apply pending_indices_elem in Hin' as (c & Hc & Hu).
      unfold pending_at. rewrite Hc. simpl. rewrite Hu.
      destruct b; simpl; [|done]. split; [done|]. by intros [? _].
    - unfold pending_at. destruct b; [|done]. split; [done|]. by intros [_ ?]. }
  unfold pending_indices at 1. rewrite Hlen. destruct b.
  - rewrite <- (filter_notin_take _ _ (pending_indices_NoDup cs)).
    set (batch := take MAX_PARALLEL_UPLOADS (pending_indices cs)) in *.
    unfold pending_indices. rewrite list_filter_filter.
    apply filter_ext_in. intros j _. apply Hat.
  - unfold pending_indices. apply filter_ext_in. intros j _. apply Hat.
Qed.

(** ** Runs in which every transfer succeeds *)

Lemma finished_uploaded cs :
  forallb uploaded cs = true → finished <$> cs = cs.
Proof.
  induction cs as [|c cs IH]; [done|]. cbn [forallb].
  intros [Hc Hcs]%andb_prop. rewrite fmap_cons, IH by done.
  unfold finished. by rewrite Hc.
Qed.

Lemma finished_after_batch cs cs' :
  length cs' = length cs →
  (∀ j, cs' !! j
        = if decide (j ∈ take MAX_PARALLEL_UPLOADS (pending_indices cs))
          then transition true false <$> cs !! j
          else cs !! j) →
  finished <$> cs' = finished <$> cs.
Proof.
  intros Hlen Hlk. apply list_eq. intros j.
  rewrite !list_lookup_fmap, Hlk. case_decide as Hin; [|done].
  apply (subseteq_take MAX_PARALLEL_UPLOADS) in Hin.
  apply pending_indices_elem in Hin as (c & Hc & Hu).
  rewrite Hc. simpl. unfold finished. rewrite Hu. done.
Qed.

Lemma dispatch_loop_all_succeed fuel env k h :
  constant_client env true → undisturbed env →
  covered h → well_indexed (chunks (state h)) →
  isPausedRef h = false →
  (length (pending_indices (chunks (state h)))
   ≤ MAX_PARALLEL_UPLOADS * fuel)%nat →
  ∃ h', dispatch_loop fuel env k h = (true, h') ∧
        chunks (state h') = finished <$> chunks (state h) ∧
        file h' = file h ∧ chunksRef h' = chunksRef h ∧
        isPaused h' = isPaused h ∧ isPausedRef h' = false.
Proof.
  intros Hconst Hund. revert k h.
  induction fuel as [|fuel IH]; intros k h Hcov Hwf Hp Hfuel; simpl;
    rewrite Hp; rewrite (pendingChunks_length _ Hwf).
  - rewrite decide_True by (unfold MAX_PARALLEL_UPLOADS in Hfuel; lia).
    exists h. split; [done|]. split; [|done].
    symmetry. apply finished_uploaded.
    apply (proj2 (allUploaded_pending (state h))).
    apply nil_length_inv. rewrite (pendingChunks_length _ Hwf).
    unfold MAX_PARALLEL_UPLOADS in Hfuel. lia.
  - case_decide as Hlen.
    { exists h. split; [done|]. split; [|done].
      symmetry. apply finished_uploaded.
      apply (proj2 (allUploaded_pending (state h))).
      apply nil_length_inv. by rewrite (pendingChunks_length _ Hwf). }
    rewrite !(suspend_no_request env Hund).
    match goal with
    | |- context [uploadAll env _ (log ?e h)] =>
        destruct (batch_constant env true h e Hconst Hcov Hwf)
          as (Hlk & Hl2 & Hf2 & Hr2 & Hu2 & Hpp2 & Hp2);
        pose proof (batch_constant_well_indexed env true h e Hconst Hcov Hwf)
          as Hwf2;
        set (h2 := uploadAll env _ (log e h)) in *
    end.
    cbn [negb] in Hlk.
    rewrite Hp2, Hp.
    pose proof (pending_after_batch true _ _ Hl2 Hlk) as Hpend.
    pose proof (finished_after_batch _ _ Hl2 Hlk) as Hfin.
    assert (Hcov2 : covered h2).
    { destruct Hcov as [Hfile Hlen']. split; [by rewrite Hf2|].
      by rewrite Hl2, Hr2. }
    assert (Hrec :
      ∃ h', dispatch_loop fuel env (S k) h2 = (true, h') ∧
            chunks (state h') = finished <$> chunks (state h) ∧
            file h' = file h ∧ chunksRef h' = chunksRef h ∧
            isPaused h' = isPaused h ∧ isPausedRef h' = false).
    { destruct (IH (S k) h2 Hcov2 Hwf2) as (h' & Hrun & Ht & Hf & Hr & Hq & Hq').
      - by rewrite Hp2.
      - rewrite Hpend, length_drop. lia.
      - exists h'. split; [done|]. rewrite Ht, Hfin, Hf, Hr, Hq, Hf2, Hr2, Hpp2.
        done. }
    destruct (ref_committed env k).
    + destruct (allUploaded (state h2)) eqn:Hall; [|exact Hrec].
      eexists. split; [done|]. cbn [state onComplete setIsUploading log
        file chunksRef isPaused isPausedRef].
      split.
      { rewrite <- Hfin. symmetry. by apply finished_uploaded. }
      rewrite Hf2, Hr2, Hpp2, Hp2, Hp. done.
    + assert (Hstale : allUploaded (state h) = false).
      { destruct (allUploaded (state h)) eqn:Ha; [|done].
        apply allUploaded_pending in Ha.
        rewrite <- (pendingChunks_length _ Hwf), Ha in Hlen. done. }
      rewrite Hstale. exact Hrec.
Qed.

Lemma table_update_settled t i :
  Forall (λ c, uploaded c = true ∧ failed c = false) t →
  table_update t i true false = t.
Proof.
  intros Hall. unfold table_update.
  destruct (t !! i) as [c|] eqn:Hc; [|done].
  apply list_insert_id. rewrite Hc. f_equal.
  apply (proj1 (Forall_lookup _ _) Hall) in Hc as [Hu Hf].
  destruct c; simpl in *; by subst.
Qed.

Lemma foldl_table_update_settled t idxs :
  Forall (λ c, uploaded c = true ∧ failed c = false) t →
  foldl (λ t i, table_update t i true false) t idxs = t.
Proof.
  intros Hall. induction idxs as [|i idxs IH]; [done|].
  cbn [foldl]. by rewrite table_update_settled.
Qed.

Lemma resetFailed_settled s :
  Forall (λ c, uploaded c = true ∧ failed c = false) (chunks s) →
  chunks (resetFailed s) = chunks s.
Proof.
  intros Hall. unfold resetFailed. cbn [chunks].
  induction Hall as [|c cs [_ Hf] _ IH]; [done|].
  rewrite fmap_cons, IH, Hf. done.
Qed.

(** The retry pass on a table in which everything is uploaded: whatever
    the stale table [rendered] makes it transfer again, the table stays
    as it is. *)
Lemma retryFailedChunks_settled env rendered h :
  constant_client env true → is_Some (file h) →
  well_indexed rendered →
  (length rendered ≤ length (chunksRef h))%nat →
  Forall (λ c, uploaded c = true ∧ failed c = false) (chunks (state h)) →
  let h' := retryFailedChunks env rendered h in
  chunks (state h') = chunks (state h) ∧
  file h' = file h ∧ chunksRef h' = chunksRef h ∧
  isUploading h' = isUploading h ∧ isPaused h' = isPaused h.
Proof.
  intros Hconst [f Hf] Hwf Hlen Hall. unfold retryFailedChunks.
  case_decide as Hnone; [done|].
  match goal with
  | |- context [uploadAll env ?cs ?h0] =>
      destruct (uploadAll_constant env true cs h0 Hconst)
        as (Ht & Hf' & Hr & Hu & Hp & _)
  end.
  { apply Forall_forall. intros c Hc.
    apply list_elem_of_filter in Hc as [_ Hc].
    apply list_elem_of_lookup in Hc as [i Hi].
    rewrite (Hwf _ _ Hi). unfold guard_passes. cbn [file chunksRef setState].
    rewrite Hf.
    destruct (lookup_lt_is_Some_2 (chunksRef h) i) as [b ->]; [|done].
    apply lookup_lt_Some in Hi. lia. }
  cbn zeta. split; [|done].
  rewrite Ht. cbn [state setState negb].
  rewrite resetFailed_settled by done.
  by apply foldl_table_update_settled.
Qed.

(** X7.  When every transfer succeeds and nobody pauses, a run of
    [startUpload] on a well-formed session with a file bound returns as
    soon as it is given one loop iteration for every
    [MAX_PARALLEL_UPLOADS] pending chunks.  At the return every record is
    uploaded and none is failed; records that were uploaded before are
    untouched, the others have only their flags changed
    ([retryCount] is kept); [isUploading] and [isPaused] are false; and
    [onComplete] has been called once or twice. *)
Theorem startUpload_all_succeed (fuel : nat) (env : Env) (h : Hook) :
  constant_client env true → undisturbed env →
  covered h → well_indexed (chunks (state h)) →
  Forall consistent (chunks (state h)) →
  isUploading h && negb (isPaused h) = false →
  (length (pendingChunks (state h)) ≤ MAX_PARALLEL_UPLOADS * fuel)%nat →
  ∃ h', startUpload fuel env h = (true, h') ∧
        chunks (state h') = finished <$> chunks (state h) ∧
        allUploaded (state h') = true ∧
        getFailedChunks h' = [] ∧
        isUploading h' = false ∧ isPaused h' = false ∧
        (completions h' = S (completions h) ∨
         completions h' = S (S (completions h))).
Proof.
  intros Hconst Hund Hcov Hwf Hcons Hguard Hfuel.
  set (h1 := setIsUploading true (setIsPaused false h)).
  assert (Hcov1 : covered h1) by exact Hcov.
  destruct (dispatch_loop_all_succeed fuel env 0 h1 Hconst Hund Hcov1 Hwf)
    as (h2 & Hloop & Ht2 & Hf2 & Hr2 & Hq2 & Hp2); [done|..].
  { change (state h1) with (state h).
    rewrite <- (pendingChunks_length _ Hwf). exact Hfuel. }
  change (chunks (state h1)) with (chunks (state h)) in Ht2.
  assert (Hsettled :
    Forall (λ c, uploaded c = true ∧ failed c = false) (chunks (state h2))).
  { rewrite Ht2. apply Forall_fmap. eapply Forall_impl; [exact Hcons|].
    intros c Hc. unfold finished. simpl.
    destruct (uploaded c) eqn:Hu; [|done]. split; [done|].
    destruct (failed c) eqn:Hfl; [|done]. destruct Hc. done. }
  destruct Hcov as [Hfile Hlen].
  destruct (retryFailedChunks_settled env (chunks (state h)) h2 Hconst)
    as (Ht3 & Hf3 & Hr3 & Hu3 & Hq3); [by rewrite Hf2|done|by rewrite Hr2|done|].
  destruct (retryFailedChunks_quiet env (chunks (state h)) h2) as [_ Hp3].
  set (h3 := retryFailedChunks env (chunks (state h)) h2) in *.
  assert (Hall3 : allUploaded (state h3) = true).
  { unfold allUploaded. rewrite Ht3. clear -Hsettled.
    induction Hsettled as [|c cs [Hu _] _ IH]; [done|].
    cbn [forallb]. by rewrite Hu, IH. }
  assert (Hrun : startUpload fuel env h
                 = (true, onComplete (setIsUploading false h3))).
  { unfold startUpload. destruct Hfile as [f Hf]. rewrite Hf, Hguard.
    fold h1. rewrite Hloop. cbn [negb]. rewrite Hp2. cbn [negb].
    rewrite (suspend_no_request env Hund). fold h3.
    rewrite Hp3, Hp2. unfold finalCheck. by rewrite Hall3. }
  eexists. split; [exact Hrun|].
  cbn [state onComplete setIsUploading log isUploading isPaused].
  split; [by rewrite Ht3|]. split; [done|]. split.
  { unfold getFailedChunks. cbn [state onComplete setIsUploading log].
    rewrite Ht3. clear -Hsettled.
    induction Hsettled as [|c cs [Hu Hf] _ IH]; [done|].
    rewrite filter_cons, decide_False; [done|]. intros [? _]. congruence. }
  split; [done|]. split; [by rewrite Hq3, Hq2|].
  destruct (startUpload_completions env Hund fuel h _ Hfile Hguard Hrun)
    as (Hc & _); [exact Hall3|]. exact Hc.
Qed.

Lemma startUpload_all_succeed_example :
  let cs0 := [mkChunkStatus 0 true false 0; mkChunkStatus 1 false false 0;
              mkChunkStatus 2 false true 1] in
  let f := mkFile "a.bin" 3 in
  let h := mkHook (Some f)
             [slice 0 1; slice 1 2; slice 2 3]
             (mkUploadState "u" "a.bin" 3 3 1 cs0 0 0)
             false false false 0 [] in
  let env := mkEnv (λ _ _, true) (λ _, 7) (λ _, NoRequest) (λ _, true) in
  ∃ h', startUpload 1 env h = (true, h') ∧
        chunks (state h')
        = [mkChunkStatus 0 true false 0; mkChunkStatus 1 true false 0;
           mkChunkStatus 2 true false 1] ∧
        isUploading h' = false.
Proof.
  intros cs0 f h env.
  assert (Hwf : well_indexed cs0).
  { intros [|[|[|i]]] c; simpl; intros [= <-]; reflexivity. }
  assert (Hcons : Forall consistent cs0).
  { repeat constructor; intros [? ?]; discriminate. }
  destruct (startUpload_all_succeed 1 env h) as (h' & Hrun & Ht & _ & _ & Hu & _).
  - intros n i. reflexivity.
  - intros p. reflexivity.
  - split; [by eexists|]. simpl. lia.
  - exact Hwf.
  - exact Hcons.
  - reflexivity.
  - vm_compute. lia.
  - exists h'. split; [exact Hrun|]. split; [exact Ht|exact Hu].
Defined.

(** ** Runs in which every transfer fails *)

Lemma afterFailures_transition n c :
  afterFailures n (transition false true c) = afterFailures (S n) c.
Proof.
  destruct n as [|n]; [done|]. unfold afterFailures, transition.
  cbn [chunkIndex retryCount]. f_equal. lia.
Qed.

(** What a batch hands to the transfer client. *)
Lemma batch_transferred env h e :
  covered h → well_indexed (chunks (state h)) →
  is_transfer e = None →
  transferred
    (trace (uploadAll env
              (take MAX_PARALLEL_UPLOADS (pendingChunks (state h)))
              (log e h)))
  = transferred (trace h)
    ++ take MAX_PARALLEL_UPLOADS (pending_indices (chunks (state h))).
Proof.
  intros Hcov Hwf He.
  match goal with
  | |- context [uploadAll env ?cs ?h0] =>
      destruct (uploadAll_effect env cs h0)
        as (_ & _ & _ & _ & evs & Ht & _ & Htr)
  end.
  rewrite Ht. cbn [trace log].
  rewrite (transferred_app (e :: trace h) evs), Htr.
  change (e :: trace h) with ([e] ++ trace h).
  rewrite (transferred_app (trace h) [e]).
  unfold transferred at 2. cbn [reverse]. rewrite reverse_singleton.
  cbn [omap list_omap]. rewrite He, app_nil_r. f_equal.
  rewrite (batch_indices (state h) Hwf).
  apply filter_all. apply Forall_forall. intros i Hi.
  apply (subseteq_take MAX_PARALLEL_UPLOADS) in Hi.
  apply pending_indices_elem in Hi as (c & Hc & _).
  apply (guard_passes_covered (log e h)); [done|].
  by eapply lookup_lt_Some.
Qed.

Lemma dispatch_loop_all_fail fuel env k h :
  constant_client env false → undisturbed env →
  covered h → well_indexed (chunks (state h)) →
  isPausedRef h = false →
  pending_indices (chunks (state h)) ≠ [] →
  let batch := take MAX_PARALLEL_UPLOADS
                 (pending_indices (chunks (state h))) in
  ∃ h', dispatch_loop fuel env k h = (false, h') ∧
        (∀ j, chunks (state h') !! j
              = if decide (j ∈ batch)
                then afterFailures fuel <$> chunks (state h) !! j
                else chunks (state h) !! j) ∧
        transferred (trace h')
        = transferred (trace h) ++ concat (replicate fuel batch) ∧
        completions h' = completions h ∧
        isUploading h' = isUploading h ∧ isPaused h' = isPaused h ∧
        isPausedRef h' = false.
Proof.
  intros Hconst Hund. revert k h.
  induction fuel as [|fuel IH]; intros k h Hcov Hwf Hp Hne batch; simpl;
    rewrite Hp; rewrite (pendingChunks_length _ Hwf);
    (rewrite decide_False
      by (intros Hz; apply Hne; by apply nil_length_inv)).
  - exists h. split; [done|]. split.
    { intros j. case_decide; [|done]. by destruct (chunks (state h) !! j). }
    cbn [replicate concat]. by rewrite app_nil_r.
  - rewrite !(suspend_no_request env Hund).
    match goal with
    | |- context [uploadAll env _ (log ?e h)] =>
        destruct (batch_constant env false h e Hconst Hcov Hwf)
          as (Hlk & Hl2 & Hf2 & Hr2 & Hu2 & Hpp2 & Hp2);
        pose proof (batch_constant_well_indexed env false h e Hconst Hcov Hwf)
          as Hwf2;
        pose proof (batch_transferred env h e Hcov Hwf eq_refl) as Htr2;
        destruct (uploadAll_quiet env
                    (take MAX_PARALLEL_UPLOADS (pendingChunks (state h)))
                    (log e h)) as [Hc2 _];
        rewrite completions_log in Hc2 by done;
        set (h2 := uploadAll env _ (log e h)) in *
    end.
    cbn [negb] in Hlk. fold batch in Hlk, Htr2.
    rewrite Hp2, Hp.
    pose proof (pending_after_batch false _ _ Hl2 Hlk) as Hpend.
    cbn match in Hpend.
    assert (Hcov2 : covered h2).
    { destruct Hcov as [Hfile Hlen']. split; [by rewrite Hf2|].
      by rewrite Hl2, Hr2. }
    assert (Hrec :
      ∃ h', dispatch_loop fuel env (S k) h2 = (false, h') ∧
        (∀ j, chunks (state h') !! j
              = if decide (j ∈ batch)
                then afterFailures (S fuel) <$> chunks (state h) !! j
                else chunks (state h) !! j) ∧
        transferred (trace h')
        = transferred (trace h) ++ concat (replicate (S fuel) batch) ∧
        completions h' = completions h ∧
        isUploading h' = isUploading h ∧ isPaused h' = isPaused h ∧
        isPausedRef h' = false).
    { destruct (IH (S k) h2 Hcov2 Hwf2)
        as (h' & Hrun & Ht & Htr & Hc & Hu & Hq & Hq').
      - by rewrite Hp2.
      - by rewrite Hpend.
      - exists h'. split; [done|]. rewrite Hpend in Ht, Htr. fold batch in Ht, Htr.
        split.
        { intros j. rewrite Ht, Hlk. case_decide; [|done].
          destruct (chunks (state h) !! j) as [c|]; [|done].
          cbn [fmap option_fmap option_map]. f_equal.
          apply afterFailures_transition. }
        split.
        { rewrite Htr, Htr2. cbn [replicate concat]. by rewrite <- app_assoc. }
        rewrite Hc, Hc2, Hu, Hu2, Hq, Hpp2. done. }
    assert (Hnot2 : allUploaded (state h2) = false).
    { destruct (allUploaded (state h2)) eqn:Ha; [|done].
      apply allUploaded_pending in Ha.
      pose proof (pendingChunks_length _ Hwf2) as Hl.
      rewrite Ha, Hpend in Hl. symmetry in Hl.
      apply nil_length_inv in Hl. done. }
    assert (Hnot : allUploaded (state h) = false).
    { destruct (allUploaded (state h)) eqn:Ha; [|done].
      apply allUploaded_pending in Ha.
      pose proof (pendingChunks_length _ Hwf) as Hl.
      rewrite Ha in Hl. symmetry in Hl.
      apply nil_length_inv in Hl. done. }
    destruct (ref_committed env k); [rewrite Hnot2|rewrite Hnot]; exact Hrec.
Qed.

(** X8.  When every transfer fails and nobody pauses, [startUpload] on a
    session with something pending is still in its loop after any number
    of iterations: the loop never reaches the retry pass or the final
    check.  Each iteration sends the same batch, the first
    [MAX_PARALLEL_UPLOADS] pending chunks, again; after [fuel] iterations
    each of them is failed with [retryCount] raised by [fuel], past
    [MAX_RETRIES] without limit, and every other record, and so every
    pending chunk beyond the first batch, has never been transferred or
    changed.  [isUploading] stays true and [onComplete] is not called. *)
Theorem startUpload_all_fail (fuel : nat) (env : Env) (h : Hook) :
  constant_client env false → undisturbed env →
  covered h → well_indexed (chunks (state h)) →
  isUploading h && negb (isPaused h) = false →
  pendingChunks (state h) ≠ [] →
  let batch := take MAX_PARALLEL_UPLOADS
                 (pending_indices (chunks (state h))) in
  ∃ h', startUpload fuel env h = (false, h') ∧
        (∀ j, chunks (state h') !! j
              = if decide (j ∈ batch)
                then afterFailures fuel <$> chunks (state h) !! j
                else chunks (state h) !! j) ∧
        transferred (trace h')
        = transferred (trace h) ++ concat (replicate fuel batch) ∧
        completions h' = completions h ∧
        isUploading h' = true ∧ isPaused h' = false.
Proof.
  intros Hconst Hund Hcov Hwf Hguard Hne batch.
  set (h1 := setIsUploading true (setIsPaused false h)).
  assert (Hcov1 : covered h1) by exact Hcov.
  destruct (dispatch_loop_all_fail fuel env 0 h1 Hconst Hund Hcov1 Hwf)
    as (h' & Hloop & Ht & Htr & Hc & Hu & Hq & Hp); [done|..].
  { change (state h1) with (state h). intros Hnil. apply Hne.
    apply nil_length_inv. by rewrite (pendingChunks_length _ Hwf), Hnil. }
  exists h'. split.
  { unfold startUpload. destruct Hcov as [[f Hf] _]. rewrite Hf, Hguard.
    fold h1. by rewrite Hloop. }
  done.
Qed.

Lemma startUpload_all_fail_example :
  let s := handleFileSelect_with 1 (mkFile "data.bin" 7) "upload_1" 0 0 in
  let h := mkHook (Some (mkFile "data.bin" 7))
             [slice 0 1; slice 1 2; slice 2 3; slice 3 4; slice 4 5;
              slice 5 6; slice 6 7] s
             false false false 0 [] in
  let env := mkEnv (λ _ _, false) (λ n, Z.of_nat n) (λ _, NoRequest)
               (λ _, true) in
  ∃ h', startUpload 10 env h = (false, h') ∧
        chunks (state h') !! 4%nat = Some (mkChunkStatus 4 false true 10) ∧
        chunks (state h') !! 5%nat = Some (mkChunkStatus 5 false false 0) ∧
        length (transferred (trace h')) = 50%nat.
Proof.
  intros s h env.
  assert (Hwf : well_indexed (chunks (state h))).
  { intros [|[|[|[|[|[|[|i]]]]]]] c; simpl; intros [= <-]; reflexivity. }
  destruct (startUpload_all_fail 10 env h) as (h' & Hrun & Ht & Htr & _).
  - intros n i. reflexivity.
  - intros p. reflexivity.
  - split; [by eexists|]. vm_compute. lia.
  - exact Hwf.
  - reflexivity.
  - discriminate.
  - exists h'. split; [exact Hrun|].
    split; [rewrite Ht; reflexivity|].
    split; [rewrite Ht; reflexivity|].
    rewrite Htr. reflexivity.
Defined.

(** ** Pause and cancel during a run *)

Lemma uploadSingleChunk_flags env i h :
  isPaused (uploadSingleChunk env i h).2 = isPaused h ∧
  isUploading (uploadSingleChunk env i h).2 = isUploading h.
Proof.
  unfold uploadSingleChunk. cbn [file chunksRef log].
  destruct (file h); [destruct (chunksRef h !! i)|];
    [destruct (uploadChunk env _ i)|..]; cbn; done.
Qed.

Lemma uploadAll_flags env cs h :
  isPaused (uploadAll env cs h) = isPaused h ∧
  isUploading (uploadAll env cs h) = isUploading h.
Proof.
  revert h. unfold uploadAll. induction cs as [|c cs IH]; intros h; [done|].
  simpl. destruct (IH (uploadSingleChunk env (chunkIndex c) h).2) as [-> ->].
  apply uploadSingleChunk_flags.
Qed.

Lemma suspend_flags env p h :
  isPaused h = isPausedRef h →
  let h' := suspend env p h in
  isPaused h' = isPausedRef h' ∧
  completions h' = completions h ∧
  (user_request env p ≠ Cancel → isUploading h' = isUploading h) ∧
  (user_request env p = NoRequest → h' = h).
Proof.
  intros Hm. unfold suspend. destruct (user_request env p); cbn; done.
Qed.

Lemma suspend_cases env p h :
  suspend env p h = h ∨ isPausedRef (suspend env p h) = true.
Proof. unfold suspend. destruct (user_request env p); cbn; auto. Qed.

Lemma dispatch_loop_enter_paused fuel env k h :
  isPausedRef h = true → dispatch_loop fuel env k h = (true, h).
Proof. intros Hp. destruct fuel; simpl; by rewrite Hp. Qed.

(** How the loop can be left: because of a pause, and then it has not
    notified; or unpaused, and then it has either notified once and
    cleared [isUploading], or done neither. *)
Lemma dispatch_loop_paused fuel env k h r h' :
  isPaused h = isPausedRef h →
  dispatch_loop fuel env k h = (r, h') →
  isPaused h' = isPausedRef h' ∧
  (isPausedRef h' = true → completions h' = completions h) ∧
  ((∀ p, user_request env p ≠ Cancel) →
   isPausedRef h' = true → isUploading h' = isUploading h) ∧
  (isPausedRef h' = false →
   completions h' = completions h ∧ isUploading h' = isUploading h
   ∨ completions h' = S (completions h) ∧ isUploading h' = false).
Proof.
  revert k h. induction fuel as [|fuel IH]; intros k h Hm; simpl.
  - destruct (isPausedRef h) eqn:Hp;
      [intros [= <- <-]; split; [congruence|auto]|].
    case_decide; intros [= <- <-]; (split; [congruence|auto]).
  - destruct (isPausedRef h) eqn:Hp;
      [intros [= <- <-]; split; [congruence|auto]|].
    case_decide as Hlen; [intros [= <- <-]; split; [congruence|auto]|].
    set (h2 := uploadAll env _ (log _ h)).
    assert (H2 : isPaused h2 = isPausedRef h2 ∧
                 completions h2 = completions h ∧
                 isUploading h2 = isUploading h).
    { unfold h2.
      match goal with
      | |- context [uploadAll env ?cs ?h0] =>
          destruct (uploadAll_quiet env cs h0) as [-> ->];
          destruct (uploadAll_flags env cs h0) as [-> ->]
      end.
      split; [cbn; congruence|]. split; [by apply completions_log|done]. }
    destruct H2 as (Hm2 & Hc2 & Hu2).
    destruct (suspend_flags env (AwaitBatch k) h2 Hm2) as (Hm3 & Hc3 & Hu3 & _).
    pose proof (suspend_cases env (AwaitBatch k) h2) as Hs3.
    set (h3 := suspend env (AwaitBatch k) h2) in *.
    destruct (suspend_flags env (AwaitDelay k) h3 Hm3) as (Hm4 & Hc4 & Hu4 & _).
    pose proof (suspend_cases env (AwaitDelay k) h3) as Hs4.
    destruct (isPausedRef h3) eqn:Hp3.
    { intros [= <- <-]. split; [congruence|]. split; [by rewrite Hc3, Hc2|].
      split; [|congruence].
      intros Hnc _. rewrite Hu3 by apply Hnc. exact Hu2. }
    destruct Hs3 as [Hs3|Hs3]; [|congruence].
    destruct (allUploaded _).
    { intros [= <- <-]. cbn [isPaused isPausedRef isUploading onComplete
        setIsUploading log].
      split; [congruence|]. split; [congruence|]. split; [congruence|].
      intros _. right. rewrite completions_onComplete.
      split; [|done]. f_equal.
      change (completions (setIsUploading false h3)) with (completions h3).
      by rewrite Hc3, Hc2. }
    intros Hrun. destruct (IH _ _ Hm4 Hrun) as (Hm' & Hc' & Hu' & He').
    split; [done|]. split; [|split].
    + intros Hp'. by rewrite Hc', Hc4, Hc3, Hc2.
    + intros Hnc Hp'. rewrite Hu', Hu4, Hu3 by (done || apply Hnc). exact Hu2.
    + intros Hp'. destruct Hs4 as [Hs4|Hs4].
      * rewrite Hs4, Hs3, Hc2, Hu2 in He'. by apply He'.
      * rewrite (dispatch_loop_enter_paused _ _ _ _ Hs4) in Hrun.
        injection Hrun as _ <-. congruence.
Qed.

(** X9.  A run of [startUpload] that returns because of a pause or a
    cancel (the ref says paused at the return) leaves [isPaused] true, so
    the guard of a later [startUpload] lets it through.  Either
    [onComplete] was not called by this run, and then [isUploading] is
    still true unless a cancel was requested; or the request came in
    during the retry pass, after the loop had uploaded everything: then
    [onComplete] was called once and [isUploading] is false.  The final
    check is skipped in both cases. *)
Theorem startUpload_paused (fuel : nat) (env : Env) (h h' : Hook) :
  is_Some (file h) →
  isUploading h && negb (isPaused h) = false →
  startUpload fuel env h = (true, h') →
  isPausedRef h' = true →
  isPaused h' = true ∧
  isUploading h' && negb (isPaused h') = false ∧
  (completions h' = completions h
   ∧ ((∀ p, user_request env p ≠ Cancel) → isUploading h' = true)
   ∨ completions h' = S (completions h) ∧ isUploading h' = false
     ∧ user_request env AwaitRetry ≠ NoRequest).
Proof.
  intros [f Hf] Hguard. unfold startUpload. rewrite Hf, Hguard.
  set (h1 := setIsUploading true (setIsPaused false h)).
  destruct (dispatch_loop fuel env 0 h1) as [exited h2] eqn:Hloop.
  destruct exited; cbn [negb]; [|done].
  assert (Hm1 : isPaused h1 = isPausedRef h1) by reflexivity.
  destruct (dispatch_loop_paused _ _ _ _ _ _ Hm1 Hloop)
    as (Hm2 & Hc2 & Hu2 & He2).
  change (completions h1) with (completions h) in *.
  change (isUploading h1) with true in *.
  destruct (isPausedRef h2) eqn:Hp2; cbn [negb].
  - rewrite Hp2. intros [= <-] _.
    assert (Hq : isPaused h2 = true) by congruence.
    split; [done|]. split; [by rewrite Hq, andb_false_r|].
    left. split; [by apply Hc2|]. intros Hnc. by apply Hu2.
  - destruct (retryFailedChunks_quiet env (chunks (state h)) h2)
      as [Hc3 Hp3].
    assert (Hf3 : isPaused (retryFailedChunks env (chunks (state h)) h2)
                  = isPaused h2 ∧
                  isUploading (retryFailedChunks env (chunks (state h)) h2)
                  = isUploading h2).
    { unfold retryFailedChunks. case_decide; [done|].
      match goal with
      | |- context [uploadAll env ?cs ?h0] =>
          destruct (uploadAll_flags env cs h0) as [-> ->]
      end. done. }
    destruct Hf3 as [Hq3 Hu3].
    set (h3 := retryFailedChunks env (chunks (state h)) h2) in *.
    assert (Hm3 : isPaused h3 = isPausedRef h3) by congruence.
    destruct (suspend_flags env AwaitRetry h3 Hm3) as (Hm4 & Hc4 & Hu4 & Hno).
    assert (Hreq : isPausedRef (suspend env AwaitRetry h3) = true →
              user_request env AwaitRetry ≠ NoRequest ∧
              (isUploading h3 = false →
               isUploading (suspend env AwaitRetry h3) = false)).
    { unfold suspend. destruct (user_request env AwaitRetry); cbn; [|done..].
      congruence. }
    set (h4 := suspend env AwaitRetry h3) in *.
    destruct (isPausedRef h4) eqn:Hp4.
    + intros [= <-] _.
      assert (Hq : isPaused h4 = true) by congruence.
      split; [done|]. split; [by rewrite Hq, andb_false_r|].
      destruct (Hreq eq_refl) as [Hne Hfalse].
      destruct (He2 eq_refl) as [[Hc Hu]|[Hc Hu]].
      * left. split; [congruence|]. intros Hnc.
        rewrite Hu4 by apply Hnc. congruence.
      * right. split; [congruence|]. split; [|done].
        apply Hfalse. congruence.
    + intros [= <-]. unfold finalCheck.
      destruct (allUploaded (state h4)); cbn; congruence.
Qed.

Lemma startUpload_paused_example :
  let s := handleFileSelect_with 1 (mkFile "data.bin" 7) "upload_1" 0 0 in
  let h := mkHook (Some (mkFile "data.bin" 7))
             [slice 0 1; slice 1 2; slice 2 3; slice 3 4; slice 4 5;
              slice 5 6; slice 6 7] s
             false false false 0 [] in
  let env := mkEnv (λ _ _, true) (λ n, Z.of_nat n)
               (λ p, match p with AwaitBatch 0 => Pause | _ => NoRequest end)
               (λ _, true) in
  let h' := (startUpload 3 env h).2 in
  startUpload 3 env h = (true, h') ∧
  isPaused h' = true ∧ isUploading h' = true ∧
  completions h' = 0%nat ∧ uploadedCount (state h') = 5%nat.
Proof.
  intros s h env h'.
  assert (Hrun : startUpload 3 env h = (true, h')) by (vm_compute; reflexivity).
  split; [exact Hrun|].
  destruct (startUpload_paused 3 env h h') as (Hq & _ & [[Hc Hu]|[Hc _]]).
  - by eexists.
  - reflexivity.
  - exact Hrun.
  - vm_compute. reflexivity.
  - split; [exact Hq|]. split.
    + apply Hu. intros [[|k]|k|]; discriminate.
    + split; [exact Hc|]. vm_compute. reflexivity.
  - vm_compute in Hc. discriminate.
Defined.

(** ** A second start while a run is in its loop *)

Lemma dispatch_loop_running fuel env k h h' :
  isPaused h = isPausedRef h →
  dispatch_loop fuel env k h = (false, h') →
  isPaused h' = false ∧ isPausedRef h' = false ∧
  isUploading h' = isUploading h ∧ completions h' = completions h.
Proof.
  revert k h. induction fuel as [|fuel IH]; intros k h Hm; simpl.
  - destruct (isPausedRef h) eqn:Hp; [done|].
    case_decide; [done|]. intros [= <-]. split; [congruence|done].
  - destruct (isPausedRef h) eqn:Hp; [done|].
    case_decide as Hlen; [done|].
    set (h2 := uploadAll env _ (log _ h)).
    assert (H2 : isPaused h2 = isPausedRef h2 ∧
                 completions h2 = completions h ∧
                 isUploading h2 = isUploading h).
    { unfold h2.
      match goal with
      | |- context [uploadAll env ?cs ?h0] =>
          destruct (uploadAll_quiet env cs h0) as [-> ->];
          destruct (uploadAll_flags env cs h0) as [-> ->]
      end.
      split; [cbn; congruence|]. split; [by apply completions_log|done]. }
    destruct H2 as (Hm2 & Hc2 & Hu2).
    destruct (suspend_flags env (AwaitBatch k) h2 Hm2) as (Hm3 & _).
    pose proof (suspend_cases env (AwaitBatch k) h2) as Hs3.
    set (h3 := suspend env (AwaitBatch k) h2) in *.
    destruct (suspend_flags env (AwaitDelay k) h3 Hm3) as (Hm4 & _).
    pose proof (suspend_cases env (AwaitDelay k) h3) as Hs4.
    destruct (isPausedRef h3) eqn:Hp3; [done|].
    destruct Hs3 as [Hs3|Hs3]; [|congruence].
    destruct (allUploaded _); [done|].
    intros Hrun. destruct Hs4 as [Hs4|Hs4].
    + destruct (IH _ _ Hm4 Hrun) as (Hq' & Hp' & Hu' & Hc').
      rewrite Hs4, Hs3 in Hu', Hc'.
      split; [done|]. split; [done|]. split; congruence.
    + rewrite (dispatch_loop_enter_paused _ _ _ _ Hs4) in Hrun. done.
Qed.

(** X10.  While a run of [startUpload] is inside its loop, whatever the
    transfers do and however many iterations have gone by, the flags
    are [isUploading = true] and [isPaused = false] and nothing has been
    notified; a further [startUpload] from a render that shows these
    flags returns at once and changes nothing. *)
Theorem startUpload_reentrant (fuel fuel2 : nat) (env env2 : Env)
    (h h' : Hook) :
  is_Some (file h) →
  isUploading h && negb (isPaused h) = false →
  startUpload fuel env h = (false, h') →
  isUploading h' = true ∧ isPaused h' = false ∧
  completions h' = completions h ∧
  startUpload fuel2 env2 h' = (true, h').
Proof.
  intros [f Hf] Hguard. unfold startUpload at 1. rewrite Hf, Hguard.
  set (h1 := setIsUploading true (setIsPaused false h)).
  destruct (dispatch_loop fuel env 0 h1) as [exited h2] eqn:Hloop.
  destruct exited; cbn [negb].
  { destruct (negb (isPausedRef h2)); [|destruct (isPausedRef h2)];
      try done.
    by destruct (isPausedRef (suspend env AwaitRetry _)). }
  intros [= <-].
  assert (Hm1 : isPaused h1 = isPausedRef h1) by reflexivity.
  destruct (dispatch_loop_running _ _ _ _ _ Hm1 Hloop) as (Hq & Hp & Hu & Hc).
  change (isUploading h1) with true in Hu.
  change (completions h1) with (completions h) in Hc.
  split; [done|]. split; [done|]. split; [done|].
  unfold startUpload. destruct (file h2); [|done].
  by rewrite Hu, Hq.
Qed.

Lemma startUpload_reentrant_example :
  let s := handleFileSelect_with 1 (mkFile "data.bin" 7) "upload_1" 0 0 in
  let h := mkHook (Some (mkFile "data.bin" 7))
             [slice 0 1; slice 1 2; slice 2 3; slice 3 4; slice 4 5;
              slice 5 6; slice 6 7] s
             false false false 0 [] in
  let env := mkEnv (λ n _, Nat.even n) (λ n, Z.of_nat n) (λ _, NoRequest)
               (λ _, true) in
  let h' := (startUpload 1 env h).2 in
  startUpload 1 env h = (false, h') ∧
  startUpload 9 env h' = (true, h') ∧ isUploading h' = true.
Proof.
  intros s h env h'.
  assert (Hrun : startUpload 1 env h = (false, h'))
    by (vm_compute; reflexivity).
  split; [exact Hrun|].
  destruct (startUpload_reentrant 1 9 env env h h') as (Hu & _ & _ & Hagain).
  - by eexists.
  - reflexivity.
  - exact Hrun.
  - split; [exact Hagain|exact Hu].
Defined.

(** ** What a run leaves alone *)

Lemma same_session_refl s : same_session s s.
Proof. by repeat split. Qed.

Lemma same_session_trans s1 s2 s3 :
  same_session s1 s2 → same_session s2 s3 → same_session s1 s3.
Proof.
  intros (H1 & H2 & H3 & H4 & H5 & H6 & H7) (G1 & G2 & G3 & G4 & G5 & G6 & G7).
  repeat split; congruence.
Qed.

Lemma same_session_updateChunkStatus s i u f now :
  same_session s (updateChunkStatus s i u f now).
Proof.
  unfold same_session, updateChunkStatus. cbn. repeat split.
  destruct (chunks s !! i) as [c|] eqn:Hc; [|done].
  rewrite list_fmap_insert. apply list_insert_id.
  by rewrite list_lookup_fmap, Hc.
Qed.

Lemma same_session_resetFailed s : same_session s (resetFailed s).
Proof.
  unfold same_session, resetFailed. cbn. repeat split.
  rewrite <- list_fmap_compose. apply list_fmap_ext.
  intros i c _. simpl. by destruct (failed c && _).
Qed.

Lemma same_binding_refl h : same_binding h h.
Proof. split; [done|]. split; [done|]. apply same_session_refl. Qed.

Lemma same_binding_trans h1 h2 h3 :
  same_binding h1 h2 → same_binding h2 h3 → same_binding h1 h3.
Proof.
  intros (Hf & Hr & Hs) (Hf' & Hr' & Hs').
  split; [congruence|]. split; [congruence|].
  by eapply same_session_trans.
Qed.

Lemma same_binding_uploadSingleChunk env i h :
  same_binding h (uploadSingleChunk env i h).2.
Proof.
  unfold uploadSingleChunk. cbn [file chunksRef log].
  destruct (file h) eqn:Hf;
    [|split; [done|]; split; [done|]; apply same_session_refl].
  destruct (chunksRef h !! i);
    [|split; [done|]; split; [done|]; apply same_session_refl].
  destruct (uploadChunk env _ i); cbn [snd];
    (split; [done|]; split; [done|]; apply same_session_updateChunkStatus).
Qed.

Lemma same_binding_uploadAll env cs h :
  same_binding h (uploadAll env cs h).
Proof.
  revert h. unfold uploadAll.
  induction cs as [|c cs IH]; intros h; [apply same_binding_refl|].
  simpl. eapply same_binding_trans; [|apply IH].
  apply same_binding_uploadSingleChunk.
Qed.

Lemma same_binding_suspend env p h : same_binding h (suspend env p h).
Proof.
  unfold suspend.
  destruct (user_request env p);
    (split; [done|]; split; [done|]; apply same_session_refl).
Qed.

Lemma same_binding_retryFailedChunks env rendered h :
  same_binding h (retryFailedChunks env rendered h).
Proof.
  unfold retryFailedChunks. case_decide; [apply same_binding_refl|].
  eapply same_binding_trans; [|apply same_binding_uploadAll].
  split; [done|]. split; [done|]. apply same_session_resetFailed.
Qed.

Lemma same_binding_dispatch_loop fuel env k h :
  same_binding h (dispatch_loop fuel env k h).2.
Proof.
  revert k h. induction fuel as [|fuel IH]; intros k h; simpl.
  - destruct (isPausedRef h); [apply same_binding_refl|].
    case_decide; apply same_binding_refl.
  - destruct (isPausedRef h); [apply same_binding_refl|].
    case_decide; [apply same_binding_refl|].
    set (h2 := uploadAll env _ (log _ h)).
    assert (H2 : same_binding h h2).
    { eapply same_binding_trans; [|apply same_binding_uploadAll].
      split; [done|]. split; [done|]. apply same_session_refl. }
    assert (H3 : same_binding h (suspend env (AwaitBatch k) h2)).
    { eapply same_binding_trans; [exact H2|apply same_binding_suspend]. }
    destruct (isPausedRef (suspend env (AwaitBatch k) h2)); [exact H3|].
    destruct (allUploaded _); [exact H3|].
    eapply same_binding_trans; [|apply IH].
    eapply same_binding_trans; [exact H3|apply same_binding_suspend].
Qed.

(** X11.  Whatever the transfers do, whenever the user pauses or
    cancels, and however long the run goes on, [startUpload] leaves the
    session's [uploadId], [fileName], [fileSize], [totalChunks],
    [chunkSize] and [startTime], the number of records, the [chunkIndex]
    at every position, the bound file and the blobs of [chunksRef] as
    they were.  The state is therefore always saved under the same
    storage key, a well-indexed table stays well-indexed, and a hook with
    a blob for every record keeps one. *)
Theorem startUpload_same_session (fuel : nat) (env : Env) (h : Hook) :
  let h' := (startUpload fuel env h).2 in
  same_session (state h) (state h') ∧
  file h' = file h ∧ chunksRef h' = chunksRef h ∧
  length (chunks (state h')) = length (chunks (state h)) ∧
  storage_key (uploadId (state h')) = storage_key (uploadId (state h)) ∧
  (well_indexed (chunks (state h)) → well_indexed (chunks (state h'))) ∧
  (covered h → covered h').
Proof.
  assert (Hb : same_binding h (startUpload fuel env h).2).
  { unfold startUpload. destruct (file h) eqn:Hf; [|apply same_binding_refl].
    destruct (isUploading h && negb (isPaused h)); [apply same_binding_refl|].
    set (h1 := setIsUploading true (setIsPaused false h)).
    pose proof (same_binding_dispatch_loop fuel env 0 h1) as H2.
    destruct (dispatch_loop fuel env 0 h1) as [exited h2]. cbn [snd] in H2.
    assert (H2' : same_binding h h2) by exact H2.
    destruct exited; cbn [negb]; [|exact H2'].
    set (h3 := if negb (isPausedRef h2)
               then suspend env AwaitRetry
                      (retryFailedChunks env (chunks (state h)) h2)
               else h2).
    assert (H3 : same_binding h h3).
    { unfold h3. destruct (negb (isPausedRef h2)); [|exact H2'].
      eapply same_binding_trans; [exact H2'|].
      eapply same_binding_trans; [apply same_binding_retryFailedChunks|].
      apply same_binding_suspend. }
    destruct (isPausedRef h3); [exact H3|]. cbn [snd].
    unfold finalCheck. by destruct (allUploaded (state h3)). }
  cbv zeta. destruct Hb as (Hf & Hr & Hs).
  pose proof Hs as (Hid & _ & _ & _ & _ & _ & Hidx).
  assert (Hlen : length (chunks (state (startUpload fuel env h).2))
                 = length (chunks (state h))).
  { by rewrite <- (length_fmap chunkIndex), Hidx, length_fmap. }
  split; [done|]. split; [done|]. split; [done|]. split; [done|].
  split; [by rewrite Hid|]. split.
  - intros Hwf i c' Hc'.
    assert (Hi : (chunkIndex <$> chunks (state h)) !! i = Some (chunkIndex c')).
    { by rewrite <- Hidx, list_lookup_fmap, Hc'. }
    rewrite list_lookup_fmap in Hi.
    destruct (chunks (state h) !! i) as [c|] eqn:Hc; [|done].
    injection Hi as <-. by apply Hwf.
  - intros [Hfile Hcov]. split; [by rewrite Hf|]. by rewrite Hlen, Hr.
Qed.

Lemma startUpload_same_session_example :
  let s := handleFileSelect_with 1 (mkFile "data.bin" 7) "upload_1" 0 0 in
  let h := mkHook (Some (mkFile "data.bin" 7))
             [slice 0 1; slice 1 2; slice 2 3; slice 3 4; slice 4 5;
              slice 5 6; slice 6 7] s
             false false false 0 [] in
  let env := mkEnv (λ n _, Nat.even n) (λ n, Z.of_nat n)
               (λ p, match p with AwaitBatch 2 => Cancel | _ => NoRequest end)
               (λ _, true) in
  let h' := (startUpload 5 env h).2 in
  covered h' ∧ well_indexed (chunks (state h')) ∧
  uploadId (state h') = "upload_1".
Proof.
  intros s h env h'.
  destruct (startUpload_same_session 5 env h)
    as ((Hid & _) & _ & _ & _ & _ & Hwf & Hcov).
  split; [|split].
  - apply Hcov. split; [by eexists|]. vm_compute. lia.
  - apply Hwf.
    intros [|[|[|[|[|[|[|i]]]]]]] c; simpl; intros [= <-]; reflexivity.
  - exact Hid.
Defined.

(** ** The byte count shown while uploading *)

Lemma uploadedCount_all s :
  allUploaded s = true → uploadedCount s = length (chunks s).
Proof.
  unfold allUploaded, uploadedCount. intros Hall. f_equal.
  apply filter_all. apply Forall_forall. intros c Hc.
  apply (proj1 (forallb_forall _ _) Hall). by apply list_elem_of_In.
Qed.

(** X12.  [getUploadedBytes] counts every uploaded chunk as a full
    [chunkSize].  For a session of a non-empty file with
    [ceil(fileSize / chunkSize)] records, once every chunk is uploaded
    the count is [ceil(fileSize / chunkSize) * chunkSize]: it is never
    below [fileSize], it is less than one chunk above it, and it equals
    [fileSize] exactly when [fileSize] is a multiple of [chunkSize]. *)
Theorem getUploadedBytes_complete (h : Hook) :
  let L := fileSize (state h) in
  let C := chunkSize (state h) in
  0 < C → 0 < L →
  Z.of_nat (length (chunks (state h))) = countChunks L C →
  allUploaded (state h) = true →
  getUploadedBytes h = Math_ceil_div L C * C ∧
  L ≤ getUploadedBytes h < L + C ∧
  (getUploadedBytes h = L ↔ L mod C = 0).
Proof.
  intros L C HC HL Hlen Hall. unfold getUploadedBytes.
  rewrite (uploadedCount_all _ Hall), Hlen. fold C.
  unfold countChunks. rewrite decide_False by lia.
  unfold Math_ceil_div.
  pose proof (Z.div_mod (- L) C ltac:(lia)) as Hdm.
  pose proof (Z.mod_pos_bound (- L) C HC) as Hr.
  split; [done|]. split; [nia|].
  assert (Hiff : L mod C = 0 ↔ (- L) mod C = 0).
  { assert (HC0 : C ≠ 0) by lia.
    rewrite (Z.mod_divide L C HC0), (Z.mod_divide (- L) C HC0).
    symmetry. apply Z.divide_opp_r. }
  rewrite Hiff. split; nia.
Qed.

Lemma getUploadedBytes_complete_example :
  let h := mkHook (Some (mkFile "a.bin" 5))
             [slice 0 2; slice 2 4; slice 4 5]
             (mkUploadState "u" "a.bin" 5 3 2
                [mkChunkStatus 0 true false 0; mkChunkStatus 1 true false 0;
                 mkChunkStatus 2 true false 1] 0 0)
             false false false 0 [] in
  getUploadedBytes h = 6 ∧ fileSize (state h) = 5.
Proof.
  intros h.
  destruct (getUploadedBytes_complete h) as (Heq & _).
  - reflexivity.
  - reflexivity.
  - reflexivity.
  - reflexivity.
  - split; [rewrite Heq|]; reflexivity.
Defined.

(** ** Elapsed and remaining time *)

Lemma Qfloor_between x n :
  (inject_Z n <= x)%Q → (x < inject_Z (n + 1))%Q → Qfloor x = n.
Proof.
  intros Hlo Hhi. pose proof (Qfloor_le x) as H1.
  assert (n ≤ Qfloor x).
  { rewrite <- (Qfloor_Z n). by apply Qfloor_resp_le. }
  assert (Qfloor x < n + 1).
  { rewrite Zlt_Qlt. eapply Qle_lt_trans; [exact H1|exact Hhi]. }
  lia.
Qed.

(** Below [2^53] the rounding of a quotient never reaches the next
    integer: the floor of the double quotient is the integer quotient. *)
Lemma Qfloor_Number_div `{Number} a b :
  correctly_rounded → 0 < b → Z.abs a < 2 ^ 53 →
  Qfloor (Number_div a b) = a / b.
Proof.
  intros [exact error] Hb Ha.
  pose proof (Z.div_mod a b ltac:(lia)) as Hdm.
  pose proof (Z.mod_pos_bound a b Hb) as Hr.
  destruct (Z.eq_dec (a mod b) 0) as [Hz|Hnz].
  - rewrite (Qfloor_comp _ (inject_Z (a / b))).
    + apply Qfloor_Z.
    + apply exact; [done | lia | done].
  - pose proof (error a b Hb Ha) as He.
    set (n := a / b) in *. set (r := a mod b) in *.
    set (x := Number_div a b) in *.
    assert (HB : (1 <= inject_Z b)%Q).
    { change 1%Q with (inject_Z 1). rewrite <- Zle_Qle. lia. }
    assert (HR1 : (1 <= inject_Z r)%Q).
    { change 1%Q with (inject_Z 1). rewrite <- Zle_Qle. lia. }
    assert (HR2 : (inject_Z r + 1 <= inject_Z b)%Q).
    { change 1%Q with (inject_Z 1).
      rewrite <- inject_Z_plus, <- Zle_Qle. lia. }
    assert (HA : (inject_Z (Z.abs a) < inject_Z (2 ^ 53))%Q)
      by (by rewrite <- Zlt_Qlt).
    assert (Hsplit : (inject_Z a == inject_Z b * inject_Z n + inject_Z r)%Q).
    { rewrite <- inject_Z_mult, <- inject_Z_plus. by rewrite <- Hdm. }
    assert (HIB : (inject_Z b * / inject_Z b == 1)%Q)
      by (apply Qmult_inv_r; lra).
    assert (HIBpos : (0 < / inject_Z b)%Q)
      by (apply Qinv_lt_0_compat; lra).
    unfold Qdiv in He.
    assert (Habs : (Qabs (inject_Z a * / inject_Z b)
                    == inject_Z (Z.abs a) * / inject_Z b)%Q).
    { rewrite Qabs_Qmult. rewrite (Qabs_pos (/ inject_Z b)) by lra.
      reflexivity. }
    rewrite Habs in He.
    set (B := inject_Z b) in *. set (IB := (/ B)%Q) in *.
    set (A := inject_Z a) in *. set (absA := inject_Z (Z.abs a)) in *.
    set (K := inject_Z (2 ^ 53)) in *.
    set (N := inject_Z n) in *. set (R := inject_Z r) in *.
    assert (HK : (0 < K)%Q) by (unfold K; reflexivity).
    assert (Hd : (Qabs (x - A * IB) < IB)%Q).
    { apply (Qmult_lt_r _ _ K HK).
      eapply Qle_lt_trans; [exact He|].
      rewrite (Qmult_comm IB K). by apply Qmult_lt_compat_r. }
    apply Qabs_Qlt_condition in Hd.
    assert (Hq : (A * IB == N + R * IB)%Q).
    { rewrite Hsplit. unfold IB. field. lra. }
    assert (HR1' : (IB <= R * IB)%Q).
    { rewrite <- (Qmult_1_l IB) at 1. apply Qmult_le_compat_r; lra. }
    assert (HR2' : (R * IB + IB <= 1)%Q).
    { rewrite <- HIB. rewrite <- (Qmult_1_l IB) at 2.
      rewrite <- Qmult_plus_distr_l. apply Qmult_le_compat_r; lra. }
    apply Qfloor_between.
    + fold N. lra.
    + rewrite inject_Z_plus. fold N. change (inject_Z 1) with 1%Q. lra.
Qed.

(** The three fields as the integers they are. *)
Lemma formatTime_fields `{Number} (ms : Z) :
  correctly_rounded → decimal_toString → Z.abs ms < 2 ^ 53 →
  formatTime ms
  = let seconds := ms / 1000 in
    let minutes := seconds / 60 in
    let hours := minutes / 60 in
    if decide (hours > 0) then
      pretty hours +:+ "h " +:+ pretty (Z.rem minutes 60) +:+ "m "
        +:+ pretty (Z.rem seconds 60) +:+ "s"
    else if decide (minutes > 0) then
      pretty minutes +:+ "m " +:+ pretty (Z.rem seconds 60) +:+ "s"
    else
      pretty seconds +:+ "s".
Proof.
  intros Hround Hprint Hms.
  assert (Hshrink : ∀ a b, 1 < b → Z.abs a < 2 ^ 53 →
            Z.abs (a / b) < 2 ^ 53).
  { intros a b Hb Ha.
    assert (Z.abs (a / b) ≤ Z.abs a); [|lia].
    destruct (Z.le_gt_cases 0 a) as [Hpos|Hneg].
    - pose proof (Z.div_pos a b Hpos ltac:(lia)).
      pose proof (Z.div_le_upper_bound a b a ltac:(lia) ltac:(nia)). lia.
    - pose proof (Z.div_lt_upper_bound a b 0 ltac:(lia) ltac:(lia)).
      pose proof (Z.div_le_lower_bound a b a ltac:(lia) ltac:(nia)). lia. }
  assert (Hrem : ∀ a, Z.abs (Z.rem a 60) < 2 ^ 53).
  { intros a. pose proof (Z.rem_bound_abs a 60 ltac:(lia)). lia. }
  pose proof (Hshrink ms 1000 ltac:(lia) Hms) as Hs.
  pose proof (Hshrink _ 60 ltac:(lia) Hs) as Hm.
  pose proof (Hshrink _ 60 ltac:(lia) Hm) as Hh.
  unfold formatTime.
  rewrite (Qfloor_Number_div ms 1000 Hround) by (lia || done).
  rewrite (Qfloor_Number_div (ms / 1000) 60 Hround) by (lia || done).
  rewrite (Qfloor_Number_div (ms / 1000 / 60) 60 Hround) by (lia || done).
  cbv zeta. by rewrite !Hprint by (done || apply Hrem).
Qed.

Lemma sample_Number_rounds :
  @correctly_rounded sample_Number ∧ @decimal_toString sample_Number.
Proof.
  split; [split|].
  - intros a b n Hb -> _. cbn [Number_div sample_Number].
    rewrite inject_Z_mult. field.
    change 0%Q with (inject_Z 0). rewrite inject_Z_injective. lia.
  - intros a b Hb _. cbn [Number_div sample_Number].
    set (q := (inject_Z a / inject_Z b)%Q).
    assert (Hz : (Qabs (q - q) == 0)%Q).
    { rewrite (Qabs_pos (q - q)) by lra. lra. }
    rewrite Hz. pose proof (Qabs_nonneg q). lra.
  - intros x _. reflexivity.
Qed.

(** X13.  Let division round to nearest and integers be printed in
    decimal, as the language has it.  For an integer [ms] with
    [0 <= ms < 2^53], [formatTime] shows the whole seconds of [ms] split
    into hours, minutes and seconds: the three numbers add up to
    [floor(ms / 1000)] seconds, minutes and seconds are below 60, and
    leading fields that are zero are left out (hours, or hours and
    minutes).  For [-2^53 < ms < 0] it shows the negative number
    [floor(ms / 1000)] with an [s] and never minutes or hours.  Outside
    this range the rounding of the quotients decides, and nothing is
    stated. *)
Theorem formatTime_spec `{Number} (ms : Z) :
  correctly_rounded → decimal_toString →
  (0 ≤ ms < 2 ^ 53 →
   ∃ hours minutes seconds,
     ms / 1000 = 3600 * hours + 60 * minutes + seconds ∧
     0 ≤ hours ∧ 0 ≤ minutes < 60 ∧ 0 ≤ seconds < 60 ∧
     formatTime ms
     = if decide (0 < hours) then
         pretty hours +:+ "h " +:+ pretty minutes +:+ "m "
           +:+ pretty seconds +:+ "s"
       else if decide (0 < minutes) then
         pretty minutes +:+ "m " +:+ pretty seconds +:+ "s"
       else pretty seconds +:+ "s") ∧
  (- 2 ^ 53 < ms < 0 →
   ms / 1000 < 0 ∧ formatTime ms = pretty (ms / 1000) +:+ "s").
Proof.
  intros Hround Hprint. split.
  - intros Hms. rewrite (formatTime_fields ms Hround Hprint) by lia.
    cbv zeta. set (t := ms / 1000).
    assert (Ht : 0 ≤ t) by (apply Z.div_pos; lia).
    exists (t / 60 / 60), ((t / 60) mod 60), (t mod 60).
    pose proof (Z.div_mod t 60 ltac:(lia)) as H1.
    pose proof (Z.div_mod (t / 60) 60 ltac:(lia)) as H2.
    pose proof (Z.mod_pos_bound t 60 ltac:(lia)) as H3.
    pose proof (Z.mod_pos_bound (t / 60) 60 ltac:(lia)) as H4.
    assert (H5 : 0 ≤ t / 60) by (apply Z.div_pos; lia).
    assert (H6 : 0 ≤ t / 60 / 60) by (apply Z.div_pos; lia).
    split; [lia|]. split; [done|]. split; [done|]. split; [done|].
    rewrite !Z.rem_mod_nonneg by lia.
    destruct (decide (t / 60 / 60 > 0)) as [Hh|Hh].
    + rewrite (decide_True (P := 0 < t / 60 / 60)) by lia. done.
    + rewrite (decide_False (P := 0 < t / 60 / 60)) by lia.
      assert (Hm : (t / 60) mod 60 = t / 60) by (apply Z.mod_small; lia).
      rewrite Hm.
      destruct (decide (t / 60 > 0)).
      * rewrite (decide_True (P := 0 < t / 60)) by lia. done.
      * rewrite (decide_False (P := 0 < t / 60)) by lia.
        rewrite (Z.mod_small t 60) by lia. done.
  - intros Hms.
    assert (Ht : ms / 1000 < 0) by (apply Z.div_lt_upper_bound; lia).
    split; [done|]. rewrite (formatTime_fields ms Hround Hprint) by lia.
    cbv zeta.
    assert (Hm : ms / 1000 / 60 < 0) by (apply Z.div_lt_upper_bound; lia).
    assert (Hh : ms / 1000 / 60 / 60 < 0) by (apply Z.div_lt_upper_bound; lia).
    rewrite !decide_False by lia. done.
Qed.

Lemma formatTime_spec_example :
  (∃ hours minutes seconds,
     3725 = 3600 * hours + 60 * minutes + seconds ∧
     0 ≤ minutes < 60 ∧ 0 ≤ seconds < 60 ∧ 0 ≤ hours) ∧
  @formatTime sample_Number (-1) = pretty (-1) +:+ "s".
Proof.
  destruct sample_Number_rounds as [Hround Hprint].
  split.
  - destruct (@formatTime_spec sample_Number 3725999 Hround Hprint)
      as [Hpos _].
    destruct Hpos as (hours & minutes & seconds & Hsum & Hh & Hm & Hs & _);
      [lia|].
    exists hours, minutes, seconds.
    change (3725999 / 1000) with 3725 in Hsum. done.
  - destruct (@formatTime_spec sample_Number (-1) Hround Hprint)
      as [_ Hneg].
    destruct Hneg as [_ Heq]; [lia|]. exact Heq.
Defined.

(** ** The retry pass and the table it was rendered with *)

Lemma uploadSingleChunk_outcome env i h :
  guard_passes h i = true →
  let h' := (uploadSingleChunk env i h).2 in
  let outcome := uploadChunk env (calls h) i in
  chunks (state h') = table_update (chunks (state h)) i outcome (negb outcome) ∧
  file h' = file h ∧ chunksRef h' = chunksRef h.
Proof.
  intros Hguard. cbv zeta. revert Hguard.
  unfold uploadSingleChunk, guard_passes. cbn [file chunksRef log calls].
  destruct (file h) eqn:Hf; [|done].
  destruct (chunksRef h !! i) eqn:Hb; [|done].
  intros _. by destruct (uploadChunk env (calls h) i).
Qed.

(** After the transfers of [cs], which hold distinct indices: a record
    at one of these indices has made the transition of its transfer's
    outcome, every other record is as before. *)
Lemma uploadAll_outcomes env cs h :
  Forall (λ c, guard_passes h (chunkIndex c) = true) cs →
  NoDup (chunkIndex <$> cs) →
  ∀ j,
    (j ∉ chunkIndex <$> cs →
     chunks (state (uploadAll env cs h)) !! j = chunks (state h) !! j) ∧
    (j ∈ chunkIndex <$> cs →
     ∃ n, chunks (state (uploadAll env cs h)) !! j
          = transition (uploadChunk env n j) (negb (uploadChunk env n j))
              <$> chunks (state h) !! j).
Proof.
  revert h. unfold uploadAll.
  induction cs as [|c cs IH]; intros h Hall Hnd j.
  { split; [done|]. intros Hin. by apply elem_of_nil in Hin. }
  apply Forall_cons in Hall as [Hc Hall].
  rewrite fmap_cons in Hnd. apply NoDup_cons in Hnd as [Hi Hnd].
  cbn [foldl]. rewrite fmap_cons.
  destruct (uploadSingleChunk_outcome env (chunkIndex c) h Hc)
    as (Ht & Hf & Hr).
  set (h1 := (uploadSingleChunk env (chunkIndex c) h).2) in *.
  assert (Hall1 : Forall (λ c, guard_passes h1 (chunkIndex c) = true) cs).
  { eapply Forall_impl; [exact Hall|]. intros c'. unfold guard_passes.
    by rewrite Hf, Hr. }
  destruct (IH h1 Hall1 Hnd j) as [Hout Hin].
  split.
  - intros Hj. apply not_elem_of_cons in Hj as [Hne Hj].
    rewrite (Hout Hj), Ht, table_update_lookup.
    by rewrite decide_False by done.
  - intros Hj. apply elem_of_cons in Hj as [->|Hj].
    + exists (calls h). rewrite (Hout Hi), Ht, table_update_lookup.
      by rewrite decide_True.
    + destruct (Hin Hj) as [n Hn]. exists n.
      rewrite Hn, Ht, table_update_lookup.
      rewrite decide_False; [done|]. intros <-. done.
Qed.

Lemma well_indexed_fmap_chunkIndex cs :
  well_indexed cs → chunkIndex <$> cs = seq 0 (length cs).
Proof.
  intros Hwf. apply list_eq. intros i. rewrite list_lookup_fmap.
  destruct (cs !! i) as [c|] eqn:Hc; simpl.
  - rewrite (Hwf _ _ Hc). symmetry. apply lookup_seq.
    split; [done|]. by eapply lookup_lt_Some.
  - symmetry. apply lookup_seq_ge. by apply lookup_ge_None.
Qed.

Lemma well_indexed_filter_NoDup (P : ChunkStatus → Prop)
    `{∀ c, Decision (P c)} cs :
  well_indexed cs → NoDup (chunkIndex <$> filter P cs).
Proof.
  intros Hwf. apply (sublist_NoDup _ (chunkIndex <$> cs)).
  - rewrite (well_indexed_fmap_chunkIndex cs Hwf). apply NoDup_seq.
  - apply fmap_sublist, sublist_filter.
Qed.

(** C5 (the code as it is).  [retryFailedChunks] chooses the chunks to
    transfer from [rendered], the chunk table of the render that created
    the callback (line 88), but clears the [failed] flags in the current
    table (lines 97-104).  With a file bound that has a blob for every
    record of [rendered]:
    - when [rendered] holds no record that is failed, not uploaded and
      below [MAX_RETRIES], nothing is done, whatever the current table
      holds;
    - otherwise the flags of the current table are reset and exactly
      the chunks chosen from [rendered] are dispatched and transferred;
    - the current record at each chosen position is overwritten with
      the outcome of its transfer, be it uploaded or at the retry
      ceiling in the current table; the other records are as the reset
      left them. *)
Theorem retryFailedChunks_stale_table (env : Env)
    (rendered : list ChunkStatus) (h : Hook) :
  well_indexed rendered →
  is_Some (file h) →
  (length rendered ≤ length (chunksRef h))%nat →
  let failedChunks :=
    filter (λ chunk, uploaded chunk = false ∧ failed chunk = true ∧
                     (retryCount chunk < MAX_RETRIES)%nat) rendered in
  let h' := retryFailedChunks env rendered h in
  (failedChunks = [] → h' = h) ∧
  (∃ evs,
     trace h' = evs ++ trace h ∧
     dispatched evs = chunkIndex <$> failedChunks ∧
     transferred evs = chunkIndex <$> failedChunks) ∧
  (failedChunks ≠ [] →
   ∀ j,
     (j ∉ chunkIndex <$> failedChunks →
      chunks (state h') !! j = chunks (resetFailed (state h)) !! j) ∧
     (j ∈ chunkIndex <$> failedChunks →
      ∃ n, chunks (state h') !! j
           = transition (uploadChunk env n j) (negb (uploadChunk env n j))
               <$> chunks (resetFailed (state h)) !! j)).
Proof.
  intros Hwf [f Hf] Hlen failedChunks h'.
  assert (Hguard : ∀ h0, file h0 = file h → chunksRef h0 = chunksRef h →
            Forall (λ c, guard_passes h0 (chunkIndex c) = true) failedChunks).
  { intros h0 Hf0 Hr0. apply Forall_forall. intros c Hc.
    apply list_elem_of_filter in Hc as [_ Hc].
    apply list_elem_of_lookup in Hc as [i Hi].
    rewrite (Hwf _ _ Hi). unfold guard_passes. rewrite Hf0, Hr0, Hf.
    destruct (lookup_lt_is_Some_2 (chunksRef h) i) as [b ->]; [|done].
    apply lookup_lt_Some in Hi. lia. }
  assert (Hh' : h' = if decide (length failedChunks = 0%nat) then h
                     else uploadAll env failedChunks (setState resetFailed h))
    by reflexivity.
  split; [|split].
  - intros Hnil. rewrite Hh', Hnil. done.
  - rewrite Hh'. case_decide as Hz.
    + apply nil_length_inv in Hz. rewrite Hz. by exists [].
    + destruct (uploadAll_effect env failedChunks (setState resetFailed h))
        as (_ & _ & _ & _ & evs & Ht & Hd & Htr).
      exists evs. split; [exact Ht|]. split; [exact Hd|].
      rewrite Htr. apply filter_all.
      apply Forall_fmap. by apply Hguard.
  - intros Hne j. rewrite Hh'.
    rewrite decide_False by (intros Hz; by apply nil_length_inv in Hz).
    apply (uploadAll_outcomes env failedChunks (setState resetFailed h)).
    + by apply Hguard.
    + by apply well_indexed_filter_NoDup.
Qed.

(** C5 at a table the program itself produces: [startUpload] was called
    on a session whose only chunk had failed twice; the loop transferred
    it until it was uploaded, with one more failure on the way
    ([retryCount = 3]).  The retry pass after the loop still chooses from
    the table of the call: it transfers the uploaded chunk again, and
    when that transfer fails the record, which was uploaded and at the
    retry ceiling, is failed with [retryCount = 4]. *)
Lemma retryFailedChunks_stale_table_example :
  let rendered := [mkChunkStatus 0 false true 2] in
  let current := [mkChunkStatus 0 true false 3] in
  let h := mkHook (Some (mkFile "data.bin" 1)) [slice 0 1]
             (mkUploadState "upload_1" "data.bin" 1 1 1 current 0 0)
             false false false 2 [] in
  let env := mkEnv (λ _ _, false) (λ n, Z.of_nat n) (λ _, NoRequest)
               (λ _, true) in
  let h' := retryFailedChunks env rendered h in
  filter retryable current = [] ∧
  transferred (trace h') = [0%nat] ∧
  chunks (state h') = [mkChunkStatus 0 false true 4].
Proof.
  intros rendered current h env h'.
  assert (Hwf : well_indexed rendered).
  { intros [|i] c; simpl; intros [= <-]; reflexivity. }
  destruct (retryFailedChunks_stale_table env rendered h Hwf)
    as (_ & (evs & Ht & _ & Htr) & Htable).
  - by eexists.
  - simpl. lia.
  - split; [reflexivity|]. split.
    + fold h' in Ht. rewrite Ht, app_nil_r. exact Htr.
    + destruct (Htable ltac:(discriminate) 0%nat) as [_ Hin].
      destruct Hin as [n Hn]; [by left|]. fold h' in Hn.
      apply list_eq. intros [|i].
      * rewrite Hn. reflexivity.
      * reflexivity.
Defined.

(** The run of [startUpload] that calls [retryFailedChunks] at that
    table: the first transfer fails, the second succeeds and the loop
    notifies, the third, made by the retry pass, fails.  The run ends
    notified, with its only chunk failed and not uploaded. *)
Lemma startUpload_retry_pass_at_ceiling :
  let f := mkFile "data.bin" 1 in
  let s := mkUploadState "upload_1" "data.bin" 1 1 1
             [mkChunkStatus 0 false true 2] 0 0 in
  let env := mkEnv (λ n _, bool_decide (n = 1%nat)) (λ n, Z.of_nat n)
               (λ _, NoRequest) (λ _, true) in
  ∃ h0 h',
    useResumableUpload s (Some f) = Some h0 ∧
    startUpload 2 env h0 = (true, h') ∧
    transferred (trace h') = [0; 0; 0]%nat ∧
    chunks (state h') = [mkChunkStatus 0 false true 4] ∧
    completions h' = 1%nat.
Proof.
  intros f s env. eexists _, _.
  split; [vm_compute; reflexivity|].
  split; [vm_compute; reflexivity|].
  vm_compute. repeat split.
Qed.
